(** * The genetic optimizer of the retirement planner ([genetic.py])

    A shallow embedding of [Algorithm] and of the helpers it calls, followed
    by the properties of the optimization loop.

    Modelling choices.
    - Python dictionaries keyed by parameter name are [gmap string _]; the
      dictionary [mutable_param_ranges], whose iteration order fixes the order
      in which random draws are consumed, is an association list.
    - Success rates and dates are exact rationals ([Q]); [int(x)] truncates
      towards zero.
    - numpy is part of the environment: its generator is a tape of draws, and
      the conversion of a Python list to an array, which decides what
      [np.random.choice] hands back, is an interface [NumpyArray].
    - The object [self], the module global [simulator.MONTE_CARLO_RUNS], the
      two JSON files and numpy's generator make up one [World], threaded
      through a state-and-exception monad [M].  A run that needs more
      iterations or more stack than the fuel it is given ends in [Diverge].
    - Console output, page logging and wall-clock timing are not modelled:
      the algorithm never reads them back. *)

From Stdlib Require Import ZArith QArith Qminmax Qpower Sorted Lia.
From stdpp Require Import gmap strings list fin_maps pretty.

Local Open Scope Z_scope.

(** ** Module constants *)

Definition RESET_SUCCESS : bool := false.
Definition SUCCESS_THRESH : Q := 0.5%Q.
Definition OFFSPRING_QTY : nat := 10.
Definition TARGET_SUCCESS_RATE : Q := 0.95%Q.
Definition INITIAL_MONTE_RUNS : Z := 100.
Definition MAX_MONTE_RUNS : Z := 5000.
Definition ITER_LIMIT : Z := 5.
Definition SEED : bool := true.

(** ** Data *)

(** One entry of [user_jobs] / [partner_jobs]; the optimizer reads only
    ["last_date"]. *)
Record income := { last_date : Q }.

(** Content of the tally file [PARAMS_SUCCESS_LOC], as far as the optimizer
    leaves it or finds it at a first run: blank text, text that [json.load]
    rejects (kept, so that what is appended to it shows), or an object of
    integer arrays, which is what [_update_param_count] writes.  Readable
    JSON of any other shape is not modelled. *)
Inductive tally_file_content :=
  | FEmpty
  | FCorrupt (text : string)
  | FTable (t : gmap string (list Z)).

Inductive exn :=
  | ValueError
  | KeyError
  | IndexError
  | AttributeError
  | TypeError
  | NoValidMutation.

(** [np.array(xs)] on a Python list [xs] of parameter values.  numpy settles
    on one dtype for the whole list and converts every element to it: a list
    of integers keeps its values, a list that mixes numbers and strings
    becomes a list of strings.  [np_item xs x] is what the element [x] of
    [xs] is converted to. *)
Class NumpyArray (V : Type) := np_item : list V -> V -> V.

Section Optimizer.
Context {V : Type} `{!EqDecision V}.
Context {R O : Type}.

(** A full assignment ([param_vals]): the scalar parameters and the two job
    lists. *)
Record Full := {
  scalars : gmap string V;
  user_jobs : list income;
  partner_jobs : list income
}.

(** What [Algorithm] reads from [self.model]: the current values and, for
    every parameter that has a ['range'], its evaluated candidate list. *)
Record Model := {
  param_vals : Full;
  param_ranges : list (string * list V)
}.

Record World := {
  rng : nat -> nat;                       (* numpy's generator, as a tape *)
  rng_pos : nat;
  mutable_param_ranges : list (string * list V);
  prev_used_params : list (gmap string V);
  returns : option R;                     (* self.returns, unset at first *)
  reset_success : bool;
  param_cnt : gmap string (list Z);
  tally_file : tally_file_content;
  MONTE_CARLO_RUNS : Z;                   (* simulator.MONTE_CARLO_RUNS *)
  model : Model;
  persisted : Full;                       (* models.model.load_params()[0] *)
  oracle : O
}.

Definition set_rng_pos (x : nat) (w : World) : World :=
  {| rng := rng w; rng_pos := x; mutable_param_ranges := mutable_param_ranges w;
     prev_used_params := prev_used_params w; returns := returns w;
     reset_success := reset_success w; param_cnt := param_cnt w;
     tally_file := tally_file w; MONTE_CARLO_RUNS := MONTE_CARLO_RUNS w;
     model := model w; persisted := persisted w; oracle := oracle w |}.

Definition set_mutable_param_ranges (x : list (string * list V)) (w : World) : World :=
  {| rng := rng w; rng_pos := rng_pos w; mutable_param_ranges := x;
     prev_used_params := prev_used_params w; returns := returns w;
     reset_success := reset_success w; param_cnt := param_cnt w;
     tally_file := tally_file w; MONTE_CARLO_RUNS := MONTE_CARLO_RUNS w;
     model := model w; persisted := persisted w; oracle := oracle w |}.

Definition set_prev_used_params (x : list (gmap string V)) (w : World) : World :=
  {| rng := rng w; rng_pos := rng_pos w; mutable_param_ranges := mutable_param_ranges w;
     prev_used_params := x; returns := returns w;
     reset_success := reset_success w; param_cnt := param_cnt w;
     tally_file := tally_file w; MONTE_CARLO_RUNS := MONTE_CARLO_RUNS w;
     model := model w; persisted := persisted w; oracle := oracle w |}.

Definition set_returns (x : option R) (w : World) : World :=
  {| rng := rng w; rng_pos := rng_pos w; mutable_param_ranges := mutable_param_ranges w;
     prev_used_params := prev_used_params w; returns := x;
     reset_success := reset_success w; param_cnt := param_cnt w;
     tally_file := tally_file w; MONTE_CARLO_RUNS := MONTE_CARLO_RUNS w;
     model := model w; persisted := persisted w; oracle := oracle w |}.

Definition set_reset_success (x : bool) (w : World) : World :=
  {| rng := rng w; rng_pos := rng_pos w; mutable_param_ranges := mutable_param_ranges w;
     prev_used_params := prev_used_params w; returns := returns w;
     reset_success := x; param_cnt := param_cnt w;
     tally_file := tally_file w; MONTE_CARLO_RUNS := MONTE_CARLO_RUNS w;
     model := model w; persisted := persisted w; oracle := oracle w |}.

Definition set_param_cnt (x : gmap string (list Z)) (w : World) : World :=
  {| rng := rng w; rng_pos := rng_pos w; mutable_param_ranges := mutable_param_ranges w;
     prev_used_params := prev_used_params w; returns := returns w;
     reset_success := reset_success w; param_cnt := x;
     tally_file := tally_file w; MONTE_CARLO_RUNS := MONTE_CARLO_RUNS w;
     model := model w; persisted := persisted w; oracle := oracle w |}.

Definition set_tally_file (x : tally_file_content) (w : World) : World :=
  {| rng := rng w; rng_pos := rng_pos w; mutable_param_ranges := mutable_param_ranges w;
     prev_used_params := prev_used_params w; returns := returns w;
     reset_success := reset_success w; param_cnt := param_cnt w;
     tally_file := x; MONTE_CARLO_RUNS := MONTE_CARLO_RUNS w;
     model := model w; persisted := persisted w; oracle := oracle w |}.

Definition set_MONTE_CARLO_RUNS (x : Z) (w : World) : World :=
  {| rng := rng w; rng_pos := rng_pos w; mutable_param_ranges := mutable_param_ranges w;
     prev_used_params := prev_used_params w; returns := returns w;
     reset_success := reset_success w; param_cnt := param_cnt w;
     tally_file := tally_file w; MONTE_CARLO_RUNS := x;
     model := model w; persisted := persisted w; oracle := oracle w |}.

Definition set_model_persisted (x : Model * Full) (w : World) : World :=
  {| rng := rng w; rng_pos := rng_pos w; mutable_param_ranges := mutable_param_ranges w;
     prev_used_params := prev_used_params w; returns := returns w;
     reset_success := reset_success w; param_cnt := param_cnt w;
     tally_file := tally_file w; MONTE_CARLO_RUNS := MONTE_CARLO_RUNS w;
     model := x.1; persisted := x.2; oracle := oracle w |}.

Definition set_oracle (x : O) (w : World) : World :=
  {| rng := rng w; rng_pos := rng_pos w; mutable_param_ranges := mutable_param_ranges w;
     prev_used_params := prev_used_params w; returns := returns w;
     reset_success := reset_success w; param_cnt := param_cnt w;
     tally_file := tally_file w; MONTE_CARLO_RUNS := MONTE_CARLO_RUNS w;
     model := model w; persisted := persisted w; oracle := x |}.

(** ** The monad *)

Inductive outcome (A : Type) :=
  | Done (a : A) (w : World)
  | Raised (e : exn) (w : World)
  | Diverge.
Global Arguments Done {A} a w.
Global Arguments Raised {A} e w.
Global Arguments Diverge {A}.

Definition M (A : Type) : Type := World -> outcome A.

Definition ret {A} (a : A) : M A := fun w => Done a w.

Definition bind {A B} (c : M A) (k : A -> M B) : M B :=
  fun w =>
    match c w with
    | Done a w' => k a w'
    | Raised e w' => Raised e w'
    | Diverge => Diverge
    end.

Definition raise {A} (e : exn) : M A := fun w => Raised e w.
Definition diverge {A} : M A := fun _ => Diverge.
Definition get {A} (f : World -> A) : M A := fun w => Done (f w) w.
Definition modify (f : World -> World) : M unit := fun w => Done tt (f w).

(** [d[k]] on a dictionary, [l[i]] on a list with a non-negative index. *)
Definition getitem {A} (e : exn) (o : option A) : M A :=
  match o with
  | Some a => ret a
  | None => raise e
  end.
End Optimizer.

Arguments Full V : clear implicits.
Arguments Model V : clear implicits.
Arguments World V R O : clear implicits.
Arguments outcome V R O A : clear implicits.
Arguments M V R O A : clear implicits.

Declare Scope py_scope.
Delimit Scope py_scope with py.
Notation "x <- c1 ;; c2" := (bind c1 (fun x => c2))
  (at level 100, c1 at next level, right associativity) : py_scope.
Notation "c1 ;;; c2" := (bind c1 (fun _ => c2))
  (at level 100, right associativity) : py_scope.

Local Open Scope py_scope.

Section Mutation.
Context {V : Type} `{!EqDecision V} `{!NumpyArray V}.
Context {R O : Type}.
Local Abbreviation M := (M V R O).

(** [for x in l: acc = f(acc, x)] *)
Fixpoint for_fold {A B} (f : B -> A -> M B) (l : list A) (acc : B) : M B :=
  match l with
  | [] => ret acc
  | x :: l' => acc' <- f acc x ;; for_fold f l' acc'
  end.

(** [list.index(v)]: the first position holding [v]. *)
Fixpoint index (v : V) (l : list V) : option nat :=
  match l with
  | [] => None
  | x :: l' => if decide (x = v) then Some 0%nat else S <$> index v l'
  end.

(** [l[i]] for a Python integer [i]: negative indices count from the end. *)
Definition py_nth {A} (l : list A) (i : Z) : option A :=
  if i <? 0
  then (if i <? - Z.of_nat (length l) then None
        else l !! Z.to_nat (Z.of_nat (length l) + i))
  else l !! Z.to_nat i.

(** [np.arange(lo, hi)] on integers. *)
Definition arange (lo hi : Z) : list Z :=
  (fun i : nat => lo + Z.of_nat i) <$> seq 0 (Z.to_nat (hi - lo)).

(** One draw from the generator. *)
Definition draw : M nat :=
  fun w => Done (rng w (rng_pos w)) (set_rng_pos (S (rng_pos w)) w).

(** [np.array(xs)] *)
Definition np_array (xs : list V) : list V := np_item xs <$> xs.

(** [np.random.choice(xs)] and [np.random.choice(xs, p=prob)] on an array
    [xs]: some element of [xs], picked by the generator; an empty [xs]
    raises [ValueError]. *)
Definition choice {A} (xs : list A) : M A :=
  match xs with
  | [] => raise ValueError
  | _ => d <- draw ;; getitem IndexError (xs !! (d mod length xs)%nat)
  end.

(** [_gaussian_int].  With [max_deviation <= 0] the scale is not positive,
    [ss.norm.cdf] yields NaN (or nothing at all) and the draw raises. *)
Definition _gaussian_int (center max_deviation : Z) : M Z :=
  let x := (fun k => k + center) <$> arange (- max_deviation) (max_deviation + 1) in
  if max_deviation <=? 0 then raise ValueError else choice x.

(** [_random_mutate]; [np.random.choice] is given the Python list and draws
    from the array made of it. *)
Definition _random_mutate : M (gmap string V) :=
  ranges <- get mutable_param_ranges ;;
  for_fold (fun res (item : string * list V) =>
              v <- choice (np_array item.2) ;; ret (<[item.1 := v]> res))
           ranges ∅.

(** The loop of [_step_mutate] that builds [res]. *)
Definition step_once (mutable_param_values : gmap string V) (max_step : Z)
  : M (gmap string V) :=
  ranges <- get mutable_param_ranges ;;
  for_fold (fun res (item : string * list V) =>
              let param := item.1 in
              let param_range := item.2 in
              v <- getitem KeyError (mutable_param_values !! param) ;;
              old_idx <- getitem ValueError (index v param_range) ;;
              g <- _gaussian_int (Z.of_nat old_idx) max_step ;;
              let new_idx := Z.min (Z.of_nat (length param_range) - 1) (Z.max 0 g) in
              x <- getitem IndexError (py_nth param_range new_idx) ;;
              ret (<[param := x]> res))
           ranges ∅.

(** [_step_mutate]; the fuel bounds the depth of the self-call. *)
Fixpoint _step_mutate (fuel : nat) (mutable_param_values : gmap string V)
    (max_step : Z) : M (gmap string V) :=
  match fuel with
  | 0%nat => diverge
  | S fuel' =>
      res <- step_once mutable_param_values max_step ;;
      prev <- get prev_used_params ;;
      if decide (res ∈ prev)
      then _step_mutate fuel' mutable_param_values max_step
      else ret res
  end.
End Mutation.

(** ** Numbers *)

(** [a > b] and [a < b] on rates and dates. *)
Definition Qgtb (a b : Q) : bool := negb (Qle_bool a b).
Definition Qltb (a b : Q) : bool := negb (Qle_bool b a).

(** Python's [max(a, b)] and [min(a, b)]: the first argument wins a tie. *)
Definition py_max (a b : Q) : Q := if Qgtb b a then b else a.
Definition py_min (a b : Q) : Q := if Qltb b a then b else a.

(** [int(x)] *)
Definition py_int (x : Q) : Z := Z.quot (Qnum x) (Zpos (Qden x)).

(** The budget written into [override_dict['monte_carlo_runs']]. *)
Definition monte_carlo_runs (success_rate : Q) : Z :=
  py_int (py_max (inject_Z INITIAL_MONTE_RUNS)
            (py_min (inject_Z MAX_MONTE_RUNS)
               (inject_Z MAX_MONTE_RUNS
                * (success_rate + (1 - TARGET_SUCCESS_RATE)) ^ 70)%Q)).

(** [not x] where [x] is a rate or [None]. *)
Definition is_falsy (x : option Q) : bool :=
  match x with
  | None => true
  | Some r => Qeq_bool r 0
  end.

(** [type(x) != float] where [x] is a rate or [None]. *)
Definition is_not_float (x : option Q) : bool :=
  match x with
  | None => true
  | Some _ => false
  end.

(** The test that opens the confirmation pass. *)
Definition beats_target (success_rate : Q) : bool :=
  Qle_bool (TARGET_SUCCESS_RATE * 1.005)%Q success_rate.

(** The quantity whose integer part the budget is said to be:
    [max(INITIAL_MONTE_RUNS, min(MAX_MONTE_RUNS, MAX_MONTE_RUNS * (r + (1 -
    TARGET_SUCCESS_RATE)) ** 70))], with the maximum and the minimum of the
    rationals. *)
Definition clamped_budget (r : Q) : Q :=
  Qmax (inject_Z INITIAL_MONTE_RUNS)
    (Qmin (inject_Z MAX_MONTE_RUNS)
       (inject_Z MAX_MONTE_RUNS * (r + (1 - TARGET_SUCCESS_RATE)) ^ 70)%Q).

Section Tally.
Context {V : Type} `{!EqDecision V} `{!NumpyArray V}.
Context {R O : Type}.
Local Abbreviation M := (M V R O).

(** [for x in l: body(x)] *)
Definition for_each {A} (l : list A) (body : A -> M unit) : M unit :=
  for_fold (fun _ x => body x) l tt.

(** [{param: [0]*len(param_range) for param, param_range in ranges.items()}] *)
Definition zero_table (ranges : list (string * list V)) : gmap string (list Z) :=
  foldl (fun t (item : string * list V) => <[item.1 := replicate (length item.2) 0]> t)
        ∅ ranges.

(** The first [with] block of [_update_param_count]. *)
Definition load_tally : M unit :=
  f <- get tally_file ;;
  match f with
  | FTable t => modify (set_param_cnt t)
  | FEmpty =>
      modify (set_param_cnt ∅) ;;;
      modify (set_reset_success true) ;;;
      modify (set_tally_file (FTable ∅))
  | FCorrupt text =>
      (* the file was read to its end: ['{}'] lands behind the rejected
         text, which stays unreadable *)
      modify (set_param_cnt ∅) ;;;
      modify (set_reset_success true) ;;;
      modify (set_tally_file (FCorrupt (text +:+ "{}")))
  end.

(** [self.param_cnt[param][param_range.index(param_vals[param])] += 1] *)
Definition bump (param_vals : gmap string V) (item : string * list V) : M unit :=
  let param := item.1 in
  let param_range := item.2 in
  cnt <- get param_cnt ;;
  row <- getitem KeyError (cnt !! param) ;;
  v <- getitem KeyError (param_vals !! param) ;;
  i <- getitem ValueError (index v param_range) ;;
  c <- getitem IndexError (row !! i) ;;
  modify (set_param_cnt (<[param := <[i := c + 1]> row]> cnt)).

(** [_update_param_count] *)
Definition _update_param_count (param_vals : gmap string V) : M unit :=
  load_tally ;;;
  reset <- get reset_success ;;
  ranges <- get mutable_param_ranges ;;
  (if reset
   then modify (set_reset_success false) ;;;
        modify (set_param_cnt (zero_table ranges))
   else ret tt) ;;;
  for_each ranges (bump param_vals) ;;;
  cnt <- get param_cnt ;;
  modify (set_tally_file (FTable cnt)).

(** [sum(tally[param])]; a missing row counts as empty. *)
Definition tally_sum (t : gmap string (list Z)) (param : string) : Z :=
  foldr Z.add 0 (default [] (t !! param)).

(** [full_param_vals[key]] for the keys that hold job lists. *)
Definition jobs_of (key : string) (f : Full V) : option (list income) :=
  if decide (key = "user_jobs") then Some (user_jobs f)
  else if decide (key = "partner_jobs") then Some (partner_jobs f)
  else None.

(** [enumerate(l)] *)
Definition enumerate {A} (l : list A) : list (nat * A) := imap pair l.

(** [_check_if_beaten]; [restart] is the call [self.main()]. *)
Definition _check_if_beaten (restart : M unit) (full_param_vals : Full V) : M unit :=
  for_each ["user"; "partner"] (fun usr =>
    jobs <- getitem KeyError (jobs_of (usr +:+ "_jobs") full_param_vals) ;;
    for_each (enumerate jobs) (fun item =>
      let i := item.1 in
      let income := item.2 in
      saved <- get persisted ;;
      saved_jobs <- getitem KeyError (jobs_of (usr +:+ "_jobs") saved) ;;
      saved_income <- getitem IndexError (saved_jobs !! i) ;;
      if Qgtb (last_date income) (last_date saved_income)
      then restart
      else ret tt)).
End Tally.

Section Loop.
Context {V : Type} `{!EqDecision V} `{!NumpyArray V}.
Context {R O : Type}.
Local Abbreviation M := (M V R O).
Local Abbreviation Mute := (gmap string V).

(** [Simulator(full_param_vals, override_dict).main()]: the arguments are the
    assignment, the two overrides, the module global it may read and its own
    state; [None] stands for the empty dict of a cancelled run, otherwise the
    result holds ['s_rate'] and ['returns']. *)
Variable simulate : Full V -> Z -> option R -> Z -> O -> option (Q * R) * O.

(** [self.model.save_from_genetic(vals, reduce_dates)]: rewrites the model's
    values and the parameter file. *)
Variable save_from_genetic : Mute -> bool -> Model V * Full V -> Model V * Full V.

(** [full_param_vals.update(vals)] *)
Definition update (full : Full V) (vals : Mute) : Full V :=
  {| scalars := vals ∪ scalars full;
     user_jobs := user_jobs full;
     partner_jobs := partner_jobs full |}.

(** [_make_child]; the dictionary [full_param_vals] is updated in place, so
    its new content is returned next to the result.  The result is [None] for
    the pair [(None, None)] of a cancelled run. *)
Definition _make_child (fuel : nat) (full_param_vals : Full V) (success_rate : Q)
    (mutate : string) (parent_mute_param_vals : option Mute) (max_step : Z)
    (idx : nat) : M (Full V * option (Q * Mute)) :=
  child_mute_param_vals <-
    (if decide (mutate = "step") then
       parent <- getitem TypeError parent_mute_param_vals ;;
       child <- _step_mutate fuel parent max_step ;;
       prev <- get prev_used_params ;;
       modify (set_prev_used_params (prev ++ [child])) ;;;
       ret child
     else if decide (mutate = "random") then
       modify (set_prev_used_params []) ;;;
       child <- _random_mutate ;;
       prev <- get prev_used_params ;;
       modify (set_prev_used_params (prev ++ [child])) ;;;
       ret child
     else if decide (mutate = "identical") then
       getitem TypeError parent_mute_param_vals
     else raise NoValidMutation) ;;
  let full_param_vals := update full_param_vals child_mute_param_vals in
  let runs := monte_carlo_runs success_rate in
  reuse <- (if decide (idx = 0%nat) then ret None
            else r <- get returns ;; r' <- getitem AttributeError r ;; ret (Some r')) ;;
  global_runs <- get MONTE_CARLO_RUNS ;;
  o <- get oracle ;;
  let sim := simulate full_param_vals runs reuse global_runs o in
  modify (set_oracle sim.2) ;;;
  match sim.1 with
  | None => ret (full_param_vals, None)
  | Some (s_rate, rets) =>
      modify (set_returns (Some rets)) ;;;
      ret (full_param_vals, Some (s_rate, child_mute_param_vals))
  end.

(** The variables of [main]'s frame.  [arg_alias] tells whether
    [full_param_vals] is still the very dictionary received in [next_loop];
    [arg_frozen] is that dictionary's content once the variable was rebound. *)
Record Locals := {
  full_param_vals : Full V;
  success_rate : Q;
  parent_is_best_qty : Z;
  parent_mute_param_vals : Mute;
  arg_alias : bool;
  arg_frozen : option (Full V)
}.

Definition with_full (f : Full V) (l : Locals) : Locals :=
  {| full_param_vals := f; success_rate := success_rate l;
     parent_is_best_qty := parent_is_best_qty l;
     parent_mute_param_vals := parent_mute_param_vals l;
     arg_alias := arg_alias l; arg_frozen := arg_frozen l |}.

Definition with_rate (r : Q) (l : Locals) : Locals :=
  {| full_param_vals := full_param_vals l; success_rate := r;
     parent_is_best_qty := parent_is_best_qty l;
     parent_mute_param_vals := parent_mute_param_vals l;
     arg_alias := arg_alias l; arg_frozen := arg_frozen l |}.

Definition with_qty (q : Z) (l : Locals) : Locals :=
  {| full_param_vals := full_param_vals l; success_rate := success_rate l;
     parent_is_best_qty := q;
     parent_mute_param_vals := parent_mute_param_vals l;
     arg_alias := arg_alias l; arg_frozen := arg_frozen l |}.

Definition with_parent (p : Mute) (l : Locals) : Locals :=
  {| full_param_vals := full_param_vals l; success_rate := success_rate l;
     parent_is_best_qty := parent_is_best_qty l;
     parent_mute_param_vals := p;
     arg_alias := arg_alias l; arg_frozen := arg_frozen l |}.

(** [full_param_vals = copy.deepcopy(...)]: the variable leaves the
    dictionary it may have shared with the caller. *)
Definition rebind_full (f : Full V) (l : Locals) : Locals :=
  {| full_param_vals := f; success_rate := success_rate l;
     parent_is_best_qty := parent_is_best_qty l;
     parent_mute_param_vals := parent_mute_param_vals l;
     arg_alias := false;
     arg_frozen := if arg_alias l then Some (full_param_vals l) else arg_frozen l |}.

(** What the caller's dictionary holds when [main] hands control back. *)
Definition arg_content (l : Locals) : option (Full V) :=
  if arg_alias l then Some (full_param_vals l) else arg_frozen l.

(** How one pass through the body of [while True] ends. *)
Inductive ctl :=
  | Return (l : Locals)
  | Continue (l : Locals).

(** [while success_rate < SUCCESS_THRESH: ... _make_child(..., 'random')];
    [cancelled] is the test guarding [return None].  The flag in the result
    tells whether the loop was left through that [return]. *)
Fixpoint random_restart (cancelled : option Q -> bool) (fuel : nat) (l : Locals)
    : M (Locals * bool) :=
  if Qltb (success_rate l) SUCCESS_THRESH then
    match fuel with
    | 0%nat => diverge
    | S fuel' =>
        r <- _make_child fuel (full_param_vals l) (success_rate l) "random" None 1 0 ;;
        let l := with_full r.1 l in
        if cancelled (fst <$> r.2) then ret (l, true)
        else
          child <- getitem TypeError r.2 ;;
          random_restart cancelled fuel'
            (with_parent child.2 (with_rate child.1 l))
    end
  else ret (l, false).

(** [for idx in range(OFFSPRING_QTY): children.append(_make_child(...))];
    the second component is [None] when the loop left through [return None]. *)
Fixpoint make_children (fuel : nat) (idxs : list nat) (l : Locals)
    (children : list (Q * Mute)) : M (Locals * option (list (Q * Mute))) :=
  match idxs with
  | [] => ret (l, Some children)
  | idx :: idxs' =>
      r <- _make_child fuel (full_param_vals l) (success_rate l) "step"
             (Some (parent_mute_param_vals l))
             (Z.max 1 (parent_is_best_qty l)) idx ;;
      let l := with_full r.1 l in
      if is_falsy (fst <$> r.2) then ret (l, None)
      else
        child <- getitem TypeError r.2 ;;
        make_children fuel idxs' l (children ++ [child])
  end.

(** [children.sort(key=lambda child: child[0], reverse=True)]: a stable sort
    by decreasing rate. *)
Fixpoint insert_desc (c : Q * Mute) (sorted : list (Q * Mute)) : list (Q * Mute) :=
  match sorted with
  | [] => [c]
  | d :: sorted' =>
      if Qgtb c.1 d.1 then c :: d :: sorted' else d :: insert_desc c sorted'
  end.

Definition sort_desc (children : list (Q * Mute)) : list (Q * Mute) :=
  foldl (fun sorted c => insert_desc c sorted) [] children.

(** The branch taken when no child is better than the parent. *)
Definition no_improvement (fuel : nat) (l : Locals) : M (Locals * bool) :=
  let l := with_qty (parent_is_best_qty l + 1) l in
  if ITER_LIMIT <=? parent_is_best_qty l then
    let l := with_qty 0 l in
    let l := with_rate 0 l in
    random_restart is_falsy fuel l
  else ret (l, false).

(** The branch taken when the best child beats the parent. *)
Definition improvement (best : Q * Mute) (l : Locals) : M (Locals * bool) :=
  let l := with_qty 0 l in
  let l := with_parent best.2 (with_rate best.1 l) in
  _update_param_count (parent_mute_param_vals l) ;;;
  ret (l, false).

(** The block under [if success_rate >= TARGET_SUCCESS_RATE * 1.005];
    [restart] is [self.main] and [advancing] is [next_loop[0]]. *)
Definition confirm (fuel : nat) (restart : option (Full V) -> M (option (Full V)))
    (advancing : bool) (l : Locals) : M ctl :=
  current_monte_carlo_runs <- get MONTE_CARLO_RUNS ;;
  modify (set_MONTE_CARLO_RUNS MAX_MONTE_RUNS) ;;;
  r <- _make_child fuel (full_param_vals l) (success_rate l) "identical"
         (Some (parent_mute_param_vals l)) 1 0 ;;
  let l := with_full r.1 l in
  if is_falsy (fst <$> r.2) then ret (Return l)
  else
    child <- getitem TypeError r.2 ;;
    let l := with_rate child.1 l in
    modify (set_MONTE_CARLO_RUNS current_monte_carlo_runs) ;;;
    if Qltb (success_rate l) TARGET_SUCCESS_RATE then ret (Continue l)
    else
      _check_if_beaten (restart None ;;; ret tt) (full_param_vals l) ;;;
      let l := with_full (update (full_param_vals l) (parent_mute_param_vals l)) l in
      m <- get model ;;
      saved <- get persisted ;;
      modify (set_model_persisted
                (save_from_genetic (parent_mute_param_vals l) advancing (m, saved))) ;;;
      m <- get model ;;
      let l := rebind_full (param_vals m) l in
      shared <- restart (Some (full_param_vals l)) ;;
      ret (Continue (with_full (default (full_param_vals l) shared) l)).

(** [children.sort(...)] and the choice between the two branches. *)
Definition select (fuel : nat) (l : Locals) (children : list (Q * Mute))
    : M (Locals * bool) :=
  best <- getitem IndexError (head (sort_desc children)) ;;
  if Qle_bool best.1 (success_rate l)
  then no_improvement fuel l
  else improvement best l.

(** [if success_rate >= TARGET_SUCCESS_RATE * 1.005: ...] *)
Definition target_check (fuel : nat) (restart : option (Full V) -> M (option (Full V)))
    (advancing : bool) (l : Locals) : M ctl :=
  if beats_target (success_rate l)
  then confirm fuel restart advancing l
  else ret (Continue l).

(** One pass through the body of [while True]. *)
Definition generation (fuel : nat) (restart : option (Full V) -> M (option (Full V)))
    (advancing : bool) (l : Locals) : M ctl :=
  _check_if_beaten (restart None ;;; ret tt) (full_param_vals l) ;;;
  r <- make_children fuel (seq 0 OFFSPRING_QTY) l [] ;;
  let l := r.1 in
  match r.2 with
  | None => ret (Return l)
  | Some children =>
      r <- select fuel l children ;;
      let l := r.1 in
      if r.2 then ret (Return l)
      else target_check fuel restart advancing l
  end.

(** [while True: body]; [main] returns as soon as a pass ends in [return]. *)
Fixpoint while_true (n : nat) (body : Locals -> M ctl) (l : Locals)
    : M (option (Full V)) :=
  match n with
  | 0%nat => diverge
  | S n' =>
      c <- body l ;;
      match c with
      | Return l' => ret (arg_content l')
      | Continue l' => while_true n' body l'
      end
  end.

(** The first lines of [main], up to the improvement loop. *)
Definition first_parameter_set (fuel : nat) (next_loop : option (Full V))
    : M (Locals * bool) :=
  m <- get model ;;
  modify (set_mutable_param_ranges (param_ranges m)) ;;;
  let mute_param_vals : Mute :=
    filter (fun kv : string * V => kv.1 ∈ (param_ranges m).*1)
           (scalars (param_vals m)) in
  modify (set_prev_used_params []) ;;;
  let l :=
    {| full_param_vals := default (param_vals m) next_loop;
       success_rate := 0; parent_is_best_qty := 0;
       parent_mute_param_vals := mute_param_vals;
       arg_alias := bool_decide (is_Some next_loop);
       arg_frozen := None |} in
  if bool_decide (is_Some next_loop) then ret (l, false)
  else if SEED then ret (l, false)
  else random_restart is_not_float fuel l.

(** [main]; [next_loop] is [None] for the default [(False, [])] and
    [Some full] for [(True, full)].  The result is the content that the
    caller's dictionary [next_loop[1]] has when [main] returns. *)
Fixpoint main (fuel : nat) (next_loop : option (Full V)) : M (option (Full V)) :=
  match fuel with
  | 0%nat => diverge
  | S fuel' =>
      r <- first_parameter_set fuel' next_loop ;;
      if r.2 then ret (arg_content r.1)
      else
        _update_param_count (parent_mute_param_vals r.1) ;;;
        while_true fuel'
          (generation fuel' (main fuel') (bool_decide (is_Some next_loop)))
          r.1
  end.
End Loop.


(** ** Vocabulary of the statements *)

Section Vocabulary.
Context {V : Type} `{!EqDecision V} `{!NumpyArray V}.
Context {R O : Type}.
Local Abbreviation M := (M V R O).
Local Abbreviation World := (World V R O).
Local Abbreviation Mute := (gmap string V).

(** Partial correctness: whatever [c] returns from [w] satisfies [Q]. *)
Definition ensures {A} (c : M A) (w : World) (Q : A -> World -> Prop) : Prop :=
  forall a w', c w = Done a w' -> Q a w'.

(** Total correctness: [c] returns from [w], and the result satisfies [Q]. *)
Definition yields {A} (c : M A) (w : World) (Q : A -> World -> Prop) : Prop :=
  exists a w', c w = Done a w' /\ Q a w'.

(** Every parameter of [ranges] holds one of its candidates in [vals]. *)
Definition values_in (ranges : list (string * list V)) (vals : Mute) : Prop :=
  forall param param_range,
    (param, param_range) ∈ ranges ->
    exists v, vals !! param = Some v /\ v ∈ param_range.



(** Only the generator has moved between [w] and [w']. *)
Definition only_rng (w w' : World) : Prop := exists n, w' = set_rng_pos n w.

(** The body of the loop of [_step_mutate], as [step_once] runs it. *)
Definition step_body (mutable_param_values : Mute) (max_step : Z)
    (res : Mute) (item : string * list V) : M Mute :=
  v <- getitem KeyError (mutable_param_values !! item.1) ;;
  old_idx <- getitem ValueError (index v item.2) ;;
  g <- _gaussian_int (Z.of_nat old_idx) max_step ;;
  x <- getitem IndexError
         (py_nth item.2 (Z.min (Z.of_nat (length item.2) - 1) (Z.max 0 g))) ;;
  ret (<[item.1 := x]> res).

(** The table has, for every parameter, one counter per candidate. *)
Definition table_shaped (ranges : list (string * list V)) (t : gmap string (list Z)) : Prop :=
  forall p r, (p, r) ∈ ranges -> exists row, t !! p = Some row /\ length row = length r.

(** The table that the next call of [_update_param_count] starts from. *)
Definition effective_table (w : World) : gmap string (list Z) :=
  if reset_success w then zero_table (mutable_param_ranges w)
  else match tally_file w with
       | FTable t => t
       | _ => zero_table (mutable_param_ranges w)
       end.

(** [t'] is [t] with, for every parameter of [l], the counter at the index
    of its value in [vals] raised by one, and nothing else changed. *)
Definition bumped (vals : Mute) (l : list (string * list V))
    (t t' : gmap string (list Z)) : Prop :=
  (forall p r, (p, r) ∈ l ->
     exists v i row n,
       vals !! p = Some v /\ index v r = Some i /\
       t !! p = Some row /\ row !! i = Some n /\
       t' !! p = Some (<[i := n + 1]> row)) /\
  (forall p, p ∉ l.*1 -> t' !! p = t !! p).

(** The world after the first [with] block of [_update_param_count]. *)
Definition load_world (w : World) : World :=
  match tally_file w with
  | FEmpty => set_tally_file (FTable ∅) (set_reset_success true (set_param_cnt ∅ w))
  | FCorrupt text =>
      set_tally_file (FCorrupt (text +:+ "{}"))
        (set_reset_success true (set_param_cnt ∅ w))
  | FTable t => set_param_cnt t w
  end.

(** [f[usr + '_jobs'][i]] *)
Definition job_entry (usr : string) (i : nat) (f : Full V) : option income :=
  jobs_of (usr +:+ "_jobs") f ≫= fun jobs => jobs !! i.

(** Some monitored job of the loop's own assignment ends strictly later than
    the job at the same place of the persisted one. *)
Definition own_is_later (own saved : Full V) : Prop :=
  exists usr i inc sinc,
    usr ∈ ["user"; "partner"] /\
    job_entry usr i own = Some inc /\
    job_entry usr i saved = Some sinc /\
    (last_date sinc < last_date inc)%Q.

(** The persisted assignment has a job wherever the loop's own has one. *)
Definition covers (saved own : Full V) : Prop :=
  forall usr i, usr ∈ ["user"; "partner"] ->
    is_Some (job_entry usr i own) -> is_Some (job_entry usr i saved).

(** The body of the inner loop of [_check_if_beaten]. *)
Definition check_entry (restart : M unit) (usr : string) (item : nat * income) : M unit :=
  saved <- get persisted ;;
  saved_jobs <- getitem KeyError (jobs_of (usr +:+ "_jobs") saved) ;;
  saved_income <- getitem IndexError (saved_jobs !! item.1) ;;
  if Qgtb (last_date item.2) (last_date saved_income)
  then restart
  else ret tt.

(** The same body on a job tagged with the name of its list. *)
Definition check_item (restart : M unit) (e : string * (nat * income)) : M unit :=
  check_entry restart e.1 e.2.

(** The jobs that [_check_if_beaten] looks at, in the order of its two
    loops: the user's jobs, then the partner's, each with its place in its
    list. *)
Definition monitored (f : Full V) : list (string * (nat * income)) :=
  (pair "user" <$> enumerate (user_jobs f))
  ++ (pair "partner" <$> enumerate (partner_jobs f)).

(** The persisted assignment has the job [e], and the own job does not end
    later than it. *)
Definition not_later_at (saved : Full V) (e : string * (nat * income)) : Prop :=
  exists sinc, job_entry e.1 e.2.1 saved = Some sinc /\
               (last_date e.2.2 <= last_date sinc)%Q.

(** The persisted assignment has the job [e], and the own job ends strictly
    later than it. *)
Definition own_later_at (saved : Full V) (e : string * (nat * income)) : Prop :=
  exists sinc, job_entry e.1 e.2.1 saved = Some sinc /\
               (last_date sinc < last_date e.2.2)%Q.

(** The persisted assignment has no job at the place of [e]. *)
Definition missing_at (saved : Full V) (e : string * (nat * income)) : Prop :=
  job_entry e.1 e.2.1 saved = None.

(** Going through the monitored jobs in order, an own job that ends later
    than the persisted one comes before any job that the persisted
    assignment lacks. *)
Definition reaches_later (own saved : Full V) : Prop :=
  exists before e after,
    monitored own = before ++ e :: after /\
    Forall (not_later_at saved) before /\
    own_later_at saved e.

(** The claim's reading of "overtaken": some persisted job ends strictly
    later than the loop's own. *)
Definition saved_is_later (own saved : Full V) : Prop :=
  exists usr i inc sinc,
    usr ∈ ["user"; "partner"] /\
    job_entry usr i own = Some inc /\
    job_entry usr i saved = Some sinc /\
    (last_date inc < last_date sinc)%Q.

Definition head_is_best (sorted : list (Q * Mute)) : Prop :=
  forall best, head sorted = Some best ->
    forall c, c ∈ sorted -> (c.1 <= best.1)%Q.

End Vocabulary.

(** ** The two halves of [_make_child] and further vocabulary *)

Section Halves.
Context {V : Type} `{!EqDecision V} `{!NumpyArray V}.
Context {R O : Type}.
Local Abbreviation M := (M V R O).
Local Abbreviation World := (World V R O).
Local Abbreviation Mute := (gmap string V).

(** The [if mutate == ...] chain of [_make_child]: the assignment that will
    be evaluated. *)
Definition choose_child (fuel : nat) (mutate : string)
    (parent_mute_param_vals : option Mute) (max_step : Z) : M Mute :=
  if decide (mutate = "step") then
    parent <- getitem TypeError parent_mute_param_vals ;;
    child <- _step_mutate fuel parent max_step ;;
    prev <- get prev_used_params ;;
    modify (set_prev_used_params (prev ++ [child])) ;;;
    ret child
  else if decide (mutate = "random") then
    modify (set_prev_used_params []) ;;;
    child <- _random_mutate ;;
    prev <- get prev_used_params ;;
    modify (set_prev_used_params (prev ++ [child])) ;;;
    ret child
  else if decide (mutate = "identical") then
    getitem TypeError parent_mute_param_vals
  else raise NoValidMutation.

(** The rest of [_make_child], from [full_param_vals.update(...)] on. *)
Definition evaluate_child
    (simulate : Full V -> Z -> option R -> Z -> O -> option (Q * R) * O)
    (full_param_vals : Full V) (success_rate : Q) (idx : nat)
    (child_mute_param_vals : Mute) : M (Full V * option (Q * Mute)) :=
  let full_param_vals := update full_param_vals child_mute_param_vals in
  let runs := monte_carlo_runs success_rate in
  reuse <- (if decide (idx = 0%nat) then ret None
            else r <- get returns ;; r' <- getitem AttributeError r ;; ret (Some r')) ;;
  global_runs <- get MONTE_CARLO_RUNS ;;
  o <- get oracle ;;
  let sim := simulate full_param_vals runs reuse global_runs o in
  modify (set_oracle sim.2) ;;;
  match sim.1 with
  | None => ret (full_param_vals, None)
  | Some (s_rate, rets) =>
      modify (set_returns (Some rets)) ;;;
      ret (full_param_vals, Some (s_rate, child_mute_param_vals))
  end.

(** Pass number [k] of [_step_mutate], counted from zero: the loop that
    builds [res], run once [k] earlier passes have each taken one draw per
    parameter. *)
Definition nth_pass (k : nat) (parent : Mute) (max_step : Z) (w : World)
    : outcome V R O Mute :=
  step_once parent max_step
    (set_rng_pos (rng_pos w + k * length (mutable_param_ranges w)) w).

(** The first [n] passes all build assignments that the history holds. *)
Definition passes_collide (n : nat) (parent : Mute) (max_step : Z) (w : World) : Prop :=
  forall j, (j < n)%nat ->
    exists r wj, nth_pass j parent max_step w = Done r wj /\ r ∈ prev_used_params w.

(** Every value of [res] sits, in its candidate list, at most [max_step]
    places away from the place of the parent's value. *)
Definition within_step (ranges : list (string * list V)) (parent res : Mute)
    (max_step : Z) : Prop :=
  forall p r, (p, r) ∈ ranges ->
    exists v i v' j,
      parent !! p = Some v /\ index v r = Some i /\
      res !! p = Some v' /\ r !! j = Some v' /\
      Z.abs (Z.of_nat j - Z.of_nat i) <= max_step.

(** The parts of the world that neither mutation nor simulation writes. *)
Definition same_store (w w' : World) : Prop :=
  mutable_param_ranges w' = mutable_param_ranges w /\
  reset_success w' = reset_success w /\
  param_cnt w' = param_cnt w /\
  tally_file w' = tally_file w /\
  MONTE_CARLO_RUNS w' = MONTE_CARLO_RUNS w /\
  model w' = model w /\
  persisted w' = persisted w.
End Halves.

Section TallyVocabulary.
Context {V : Type} `{!EqDecision V} `{!NumpyArray V}.
Context {R O : Type}.
Local Abbreviation World := (World V R O).

(** The world in which the loop of [_update_param_count] starts: the file
    has been read and, if asked for, the table has been zeroed. *)
Definition prepared_world (w : World) : World :=
  if reset_success (load_world w)
  then set_param_cnt (zero_table (mutable_param_ranges (load_world w)))
         (set_reset_success false (load_world w))
  else load_world w.

(** What the tally file holds once [json.load] has been tried on it. *)
Definition file_after_load (f : tally_file_content) : tally_file_content :=
  match f with
  | FEmpty => FTable ∅
  | FCorrupt text => FCorrupt (text +:+ "{}")
  | FTable t => FTable t
  end.
End TallyVocabulary.

(** ** [models/model.py]

    [self.params] is the dictionary read from the parameter file: parameter
    name to an object of attributes (["val"], ["range"], ["calcd"], ...).
    The attribute values are JSON values of some type [J] with decidable
    equality.  The file holds such a dictionary or nothing readable. *)

Module ModelFile.
Section WithJson.
Context {J : Type} `{!EqDecision J}.

Inductive failure :=
  | ParameterFileNotFound
  | MissingKey (key : string).

Record state := {
  params : list (string * gmap string J);
  file : option (list (string * gmap string J))
}.


(** The loop of [save_params]: [obj["val"] = params_vals[param]], stopping
    at the first parameter that [params_vals] lacks. *)
Fixpoint set_vals (params_vals : gmap string J) (ps : list (string * gmap string J))
    : list (string * gmap string J) * option failure :=
  match ps with
  | [] => ([], None)
  | (param, obj) :: rest =>
      match params_vals !! param with
      | None => ((param, obj) :: rest, Some (MissingKey param))
      | Some v =>
          let r := set_vals params_vals rest in
          ((param, <["val" := v]> obj) :: r.1, r.2)
      end
  end.

(** [save_params]: the state it leaves and the exception, if any. *)
Definition save_params (params_vals : gmap string J) (st : state)
    : state * option failure :=
  let r := set_vals params_vals (params st) in
  match r.2 with
  | Some e => ({| params := r.1; file := file st |}, Some e)
  | None => ({| params := r.1; file := Some r.1 |}, None)
  end.

(** The test of [filter_params] on one object. *)
Definition keeps (include : bool) (attr : string) (attr_val : option J)
    (obj : gmap string J) : bool :=
  if include then
    match obj !! attr with
    | Some a =>
        match attr_val with
        | None => true
        | Some v => bool_decide (a = v)
        end
    | None => false
    end
  else
    match obj !! attr with
    | None => true
    | Some a =>
        match attr_val with
        | None => false
        | Some v => bool_decide (a <> v)
        end
    end.

(** [filter_params] *)
Fixpoint filter_params (include : bool) (attr : string) (attr_val : option J)
    (ps : list (string * gmap string J)) : list (string * gmap string J) :=
  match ps with
  | [] => []
  | (param, obj) :: rest =>
      if keeps include attr attr_val obj
      then (param, obj) :: filter_params include attr attr_val rest
      else filter_params include attr attr_val rest
  end.
End WithJson.
End ModelFile.

(** ** Arrays of integers, and of integers and strings *)

(** An array made of a list of integers holds the integers of the list. *)
#[global] Instance int_array : NumpyArray Z := fun _ x => x.

(** Parameter values that are integers or strings. *)
Inductive scalar :=
  | SInt (n : Z)
  | SStr (s : string).

#[global] Instance scalar_eq_dec : EqDecision scalar.
Proof. solve_decision. Defined.

(** [str(x)] *)
Definition as_text (x : scalar) : string :=
  match x with
  | SInt n => pretty n
  | SStr s => s
  end.

(** The array made of a list that holds a string is an array of strings:
    [np.array([1, 'a'])] is [array(['1', 'a'])].  A list of integers only
    keeps its values. *)
#[global] Instance scalar_array : NumpyArray scalar := fun xs x =>
  if existsb (fun y => match y with SStr _ => true | SInt _ => false end) xs
  then SStr (as_text x)
  else x.

(** ** Sample data

    One parameter ["X"] with the candidates [1..5], a generator whose [n]-th
    draw is [n], and a simulator that replays a script of results: its state
    counts the calls made so far. *)

Definition sample_ranges : list (string * list Z) := [("X", [1; 2; 3; 4; 5])].

Definition sample_full (vals : gmap string Z) (date : Q) : Full Z :=
  {| scalars := vals;
     user_jobs := [{| last_date := date |}];
     partner_jobs := [{| last_date := date |}] |}.

Definition make_world (ranges : list (string * list Z)) (vals : gmap string Z)
    (tape : nat -> nat) (prev : list (gmap string Z)) (saved_date : Q)
    : World Z unit nat :=
  {| rng := tape; rng_pos := 0;
     mutable_param_ranges := ranges;
     prev_used_params := prev;
     returns := None;
     reset_success := RESET_SUCCESS;
     param_cnt := ∅;
     tally_file := FTable (zero_table ranges);
     MONTE_CARLO_RUNS := 1000;
     model := {| param_vals := sample_full vals 2040; param_ranges := ranges |};
     persisted := sample_full vals saved_date;
     oracle := 0%nat |}.

Definition sample_world (prev : list (gmap string Z)) (saved_date : Q)
    : World Z unit nat :=
  make_world sample_ranges {["X" := 3]} (fun n => n) prev saved_date.

(** Three parameters, so that ten distinct children exist around a parent;
    the generator walks through the neighbourhood digit by digit. *)
Definition trio_ranges : list (string * list Z) :=
  [("X", [1; 2; 3; 4; 5]); ("Y", [1; 2; 3; 4; 5]); ("Z", [1; 2; 3; 4; 5])].

Definition trio_parent : gmap string Z := {["X" := 3; "Y" := 3; "Z" := 3]}.

Definition trio_world : World Z unit nat :=
  make_world trio_ranges trio_parent
    (fun n => ((n / 3) / 3 ^ (n mod 3))%nat) [] 2040.

(** A simulator that replays [script]: the [n]-th call answers with the
    [n]-th entry, [None] standing for a cancelled run. *)
Definition replay (script : list (option Q)) (full : Full Z) (runs : Z)
    (reuse : option unit) (global_runs : Z) (n : nat) : option (Q * unit) * nat :=
  ((fun r => (r, tt)) <$> default None (script !! n), S n).

(** A [save_from_genetic] that stores the values as they are. *)
Definition store (vals : gmap string Z) (reduce_dates : bool)
    (mp : Model Z * Full Z) : Model Z * Full Z :=
  ({| param_vals := update (param_vals mp.1) vals;
      param_ranges := param_ranges mp.1 |},
   update mp.2 vals).

Definition trio_locals (rate : Q) (qty : Z) : Locals :=
  {| full_param_vals := sample_full trio_parent 2040;
     success_rate := rate;
     parent_is_best_qty := qty;
     parent_mute_param_vals := trio_parent;
     arg_alias := false;
     arg_frozen := None |}.

(** The world of [trio_world] with a persisted assignment that lists no
    job at all. *)
Definition jobless_world : World Z unit nat :=
  set_model_persisted
    (model trio_world,
     {| scalars := trio_parent; user_jobs := []; partner_jobs := [] |})
    trio_world.

(** A world whose model holds the value 7 for ["X"], outside the candidates. *)
Definition off_grid_world : World Z unit nat :=
  make_world sample_ranges {["X" := 7]} (fun n => n) [] 2040.

(** A parameter file with two parameters, the second one with a candidate
    list; the attribute values are kept as text. *)
Definition sample_params : list (string * gmap string string) :=
  [("age", {["val" := "30"]});
   ("retire", {["val" := "60"; "range" := "range(55,65)"]})].

(** The world of [sample_world] in which the history holds the parent 3
    and its two neighbours, three of the five assignments. *)
Definition exhausted_world : World Z unit nat :=
  sample_world [{["X" := 2]}; {["X" := 3]}; {["X" := 4]}] 2040.

(** The number of assignments there are: the size of the Cartesian product
    of the candidate lists. *)
Definition assignments_qty {V} (ranges : list (string * list V)) : nat :=
  foldr (fun item n => (length item.2 * n)%nat) 1%nat ranges.



(** * Properties *)

(** ** Reasoning about [M] *)

Section Hoare.
Context {V : Type} `{!EqDecision V} `{!NumpyArray V}.
Context {R O : Type}.
Local Abbreviation M := (M V R O).
Local Abbreviation World := (World V R O).

Lemma bind_Done {A B} (c : M A) (k : A -> M B) w b w' :
  bind c k w = Done b w' <-> exists a w1, c w = Done a w1 /\ k a w1 = Done b w'.
Proof.
  unfold bind. split.
  - destruct (c w) as [a w1| |]; [eauto | discriminate..].
  - intros (a & w1 & -> & Hk). exact Hk.
Qed.

Lemma ensures_bind {A B} (c : M A) (k : A -> M B) w Q :
  ensures c w (fun a w1 => ensures (k a) w1 Q) -> ensures (bind c k) w Q.
Proof.
  intros H b w' Hb. apply bind_Done in Hb as (a & w1 & Hc & Hk).
  exact (H a w1 Hc b w' Hk).
Qed.

Lemma yields_bind {A B} (c : M A) (k : A -> M B) w Q :
  yields c w (fun a w1 => yields (k a) w1 Q) -> yields (bind c k) w Q.
Proof.
  intros (a & w1 & Hc & b & w' & Hk & HQ). exists b, w'. split; [|done].
  unfold bind. by rewrite Hc.
Qed.

Lemma ensures_weaken {A} (c : M A) w (Q Q' : A -> World -> Prop) :
  (forall a w', Q a w' -> Q' a w') -> ensures c w Q -> ensures c w Q'.
Proof. intros HQ H a w' Hc. eauto. Qed.

Lemma yields_weaken {A} (c : M A) w (Q Q' : A -> World -> Prop) :
  (forall a w', Q a w' -> Q' a w') -> yields c w Q -> yields c w Q'.
Proof. intros HQ (a & w' & Hc & H). exists a, w'. eauto. Qed.

Lemma yields_ensures {A} (c : M A) w (Q Q' : A -> World -> Prop) :
  yields c w Q -> ensures c w Q' -> yields c w (fun a w' => Q a w' /\ Q' a w').
Proof. intros (a & w' & Hc & H) HE. exists a, w'. eauto. Qed.

Lemma yields_ret {A} (a : A) (w : World) (Q : A -> World -> Prop) : Q a w -> yields (ret a) w Q.
Proof. intros. exists a, w. done. Qed.

Lemma yields_get {A} (f : World -> A) (w : World) (Q : A -> World -> Prop) :
  Q (f w) w -> yields (get f) w Q.
Proof. intros. exists (f w), w. done. Qed.

Lemma yields_getitem {A} e (o : option A) a (w : World) (Q : A -> World -> Prop) :
  o = Some a -> Q a w -> yields (getitem e o) w Q.
Proof. intros -> ?. exists a, w. done. Qed.

Lemma getitem_Done {A} e (o : option A) (w : World) a w' :
  getitem e o w = Done a w' -> o = Some a /\ w' = w.
Proof. destruct o; cbn; intros [=]; subst; done. Qed.

(** What a loop keeps, every pass of it keeps. *)
Lemma for_fold_ensures {A B} (f : B -> A -> M B) (I : B -> World -> Prop) l :
  (forall acc x w, x ∈ l -> I acc w -> ensures (f acc x) w I) ->
  forall acc w, I acc w -> ensures (for_fold f l acc) w I.
Proof.
  induction l as [|x l IH]; intros Hf acc w HI; cbn.
  - intros a w' [= <- <-]. done.
  - apply ensures_bind. intros acc' w1 Hx.
    apply IH; [|by eapply Hf; [left|..]].
    intros ? ? ? Hin. apply Hf. by right.
Qed.

Lemma for_fold_yields {A B} (f : B -> A -> M B) (I : B -> World -> Prop) l :
  (forall acc x w, x ∈ l -> I acc w -> yields (f acc x) w I) ->
  forall acc w, I acc w -> yields (for_fold f l acc) w I.
Proof.
  induction l as [|x l IH]; intros Hf acc w HI; cbn.
  - by apply yields_ret.
  - apply yields_bind. eapply yields_weaken; [|by eapply Hf; [left|..]].
    intros acc' w1 HI'. apply IH; [|done].
    intros ? ? ? Hin. apply Hf. by right.
Qed.
End Hoare.

(** ** Mutation *)

Section MutationFacts.
Context {V : Type} `{!EqDecision V} `{!NumpyArray V}.
Context {R O : Type}.
Local Abbreviation M := (M V R O).
Local Abbreviation World := (World V R O).
Local Abbreviation Mute := (gmap string V).

Lemma only_rng_refl (w : World) : only_rng w w.
Proof. exists (rng_pos w). by destruct w. Qed.

Lemma only_rng_trans (w1 w2 w3 : World) : only_rng w1 w2 -> only_rng w2 w3 -> only_rng w1 w3.
Proof. intros [n ->] [m ->]. by exists m. Qed.


Lemma only_rng_prev (w w' : World) :
  only_rng w w' -> prev_used_params w' = prev_used_params w.
Proof. by intros [n ->]. Qed.

Lemma index_lookup (v : V) l i : index v l = Some i -> l !! i = Some v.
Proof.
  revert i. induction l as [|x l IH]; intros i; cbn; [done|].
  case_decide as Hx; [by intros [= <-]; subst|].
  destruct (index v l) as [j|]; cbn; [|done].
  intros [= <-]. by apply IH.
Qed.

Lemma index_elem_of (v : V) l : v ∈ l -> is_Some (index v l).
Proof.
  induction l as [|x l IH]; [by intros ?%elem_of_nil|].
  intros Hin. cbn. case_decide as Hx; [by eexists|].
  apply elem_of_cons in Hin as [->|Hin]; [done|].
  destruct (IH Hin) as [j ->]. by eexists.
Qed.

Lemma choice_ensures {A} (xs : list A) (w : World) :
  ensures (choice xs) w (fun x w' => x ∈ xs /\ only_rng w w').
Proof.
  destruct xs as [|x0 xs]; [by intros ? ? [=]|].
  unfold choice. apply ensures_bind. intros d w1 [= <- <-].
  intros x w' [Hx ->]%getitem_Done. split.
  - by eapply list_elem_of_lookup_2.
  - by eexists.
Qed.

Lemma choice_yields {A} (xs : list A) (w : World) :
  xs <> [] -> yields (choice xs) w (fun _ _ => True).
Proof.
  intros Hne. destruct xs as [|x0 xs]; [done|].
  unfold choice. apply yields_bind. eexists _, _. split; [reflexivity|].
  destruct (lookup_lt_is_Some_2 (x0 :: xs) (rng w (rng_pos w) mod length (x0 :: xs))%nat)
    as [x Hx].
  { apply Nat.mod_upper_bound. done. }
  by eapply yields_getitem.
Qed.

Lemma length_arange lo hi : length (arange lo hi) = Z.to_nat (hi - lo).
Proof. unfold arange. by rewrite length_fmap, length_seq. Qed.

Lemma gaussian_int_yields center max_deviation (w : World) :
  1 <= max_deviation ->
  yields (_gaussian_int center max_deviation) w (fun _ _ => True).
Proof.
  intros Hdev. unfold _gaussian_int.
  destruct (Z.leb_spec max_deviation 0) as [|_]; [lia|].
  apply choice_yields. intros Hnil%(f_equal length).
  rewrite length_fmap, length_arange in Hnil. cbn in Hnil. lia.
Qed.

Lemma gaussian_int_ensures center max_deviation (w : World) :
  ensures (_gaussian_int center max_deviation) w
    (fun g w' => center - max_deviation <= g <= center + max_deviation /\ only_rng w w').
Proof.
  unfold _gaussian_int. destruct (max_deviation <=? 0); [by intros ? ? [=]|].
  eapply ensures_weaken; [|apply choice_ensures].
  intros g w' [Hg Hw]. split; [|done].
  apply list_elem_of_fmap in Hg as (k & -> & Hk).
  unfold arange in Hk. apply list_elem_of_fmap in Hk as (i & -> & Hi).
  apply elem_of_seq in Hi. lia.
Qed.



Lemma random_mutate_yields (w : World) :
  (forall item, item ∈ mutable_param_ranges w -> item.2 <> []) ->
  yields _random_mutate w (fun _ _ => True).
Proof.
  intros Hne. unfold _random_mutate. apply yields_bind, yields_get.
  apply (for_fold_yields _ (fun _ _ => True)); [|done].
  intros acc item w1 Hitem _. apply yields_bind.
  eapply yields_weaken.
  2:{ apply choice_yields. intros Hnil. apply (Hne item Hitem).
      unfold np_array in Hnil. by apply fmap_nil_inv in Hnil. }
  cbn. intros. by apply yields_ret.
Qed.

Lemma py_nth_elem_of {A} (l : list A) i x : py_nth l i = Some x -> x ∈ l.
Proof.
  unfold py_nth. destruct (i <? 0); [destruct (i <? _); [done|]|];
    apply list_elem_of_lookup_2.
Qed.

Lemma py_nth_in_range {A} (l : list A) i :
  0 <= i < Z.of_nat (length l) -> is_Some (py_nth l i).
Proof.
  intros Hi. unfold py_nth. destruct (Z.ltb_spec i 0) as [|_]; [lia|].
  apply lookup_lt_is_Some_2. lia.
Qed.

Lemma step_once_unfold parent max_step (w : World) :
  step_once parent max_step w
  = for_fold (step_body parent max_step) (mutable_param_ranges w) ∅ w.
Proof. reflexivity. Qed.

Lemma step_body_ensures parent max_step res item (w : World) :
  ensures (step_body parent max_step res item) w (fun res' w' =>
    only_rng w w' /\ exists v, res' = <[item.1 := v]> res /\ v ∈ item.2).
Proof.
  unfold step_body.
  apply ensures_bind. intros v w1 [_ ->]%getitem_Done.
  apply ensures_bind. intros i w1 [_ ->]%getitem_Done.
  apply ensures_bind. eapply ensures_weaken; [|apply gaussian_int_ensures].
  cbn. intros g w1 [_ Hw1].
  apply ensures_bind. intros x w2 [Hx ->]%getitem_Done.
  intros res' w2 [= <- <-]. split; [done|].
  exists x. split; [done|]. by eapply py_nth_elem_of.
Qed.

Lemma step_body_yields parent max_step res item (w : World) :
  1 <= max_step ->
  (exists v, parent !! item.1 = Some v /\ v ∈ item.2) ->
  yields (step_body parent max_step res item) w (fun _ _ => True).
Proof.
  intros Hstep (v & Hv & Hin). unfold step_body.
  apply yields_bind. eapply yields_getitem; [done|].
  destruct (index_elem_of v item.2 Hin) as [i Hi].
  apply yields_bind. eapply yields_getitem; [done|].
  apply yields_bind.
  eapply yields_weaken; [|by apply gaussian_int_yields].
  cbn. intros g w1 _.
  apply index_lookup, lookup_lt_Some in Hi.
  destruct (py_nth_in_range item.2
              (Z.min (Z.of_nat (length item.2) - 1) (Z.max 0 g))) as [x Hx]; [lia|].
  apply yields_bind. eapply yields_getitem; [done|].
  by apply yields_ret.
Qed.


Lemma step_once_yields parent max_step (w : World) :
  1 <= max_step ->
  values_in (mutable_param_ranges w) parent ->
  yields (step_once parent max_step) w (fun _ _ => True).
Proof.
  intros Hstep Hparent. unfold yields. rewrite step_once_unfold.
  apply (for_fold_yields _ (fun _ _ => True)); [|done].
  intros acc [p r] w1 Hitem _. apply step_body_yields; [done|].
  by apply Hparent.
Qed.

Lemma step_mutate_unfold fuel parent max_step (w : World) :
  _step_mutate (S fuel) parent max_step w
  = match step_once parent max_step w with
    | Done res w1 =>
        if decide (res ∈ prev_used_params w1)
        then _step_mutate fuel parent max_step w1
        else Done res w1
    | Raised e w1 => Raised e w1
    | Diverge => Diverge
    end.
Proof.
  cbn [_step_mutate]. unfold bind at 1.
  destruct (step_once parent max_step w) as [res w1| |]; [|done..].
  unfold bind, get. by destruct (decide _).
Qed.



Lemma step_once_only_rng parent max_step (w : World) :
  ensures (step_once parent max_step) w (fun _ w' => only_rng w w').
Proof.
  intros res w'. rewrite step_once_unfold. revert res w'.
  apply (for_fold_ensures _ (fun _ w' => only_rng w w')); [|apply only_rng_refl].
  intros acc item w1 _ Hw1 acc' w2 Hb.
  apply step_body_ensures in Hb as [Hw2 _]. by eapply only_rng_trans.
Qed.

Lemma step_mutate_fresh fuel parent max_step (w : World) :
  ensures (_step_mutate fuel parent max_step) w (fun res w' =>
    only_rng w w' /\ res ∉ prev_used_params w).
Proof.
  revert w. induction fuel as [|fuel IH]; intros w res w' Hrun; [done|].
  rewrite step_mutate_unfold in Hrun.
  destruct (step_once parent max_step w) as [res1 w1| |] eqn:Hone; [|done..].
  apply step_once_only_rng in Hone as Hw1.
  rewrite (only_rng_prev _ _ Hw1) in Hrun.
  destruct (decide (res1 ∈ prev_used_params w)) as [Hin|Hnew].
  - apply IH in Hrun as (Hw' & Hnot).
    rewrite (only_rng_prev _ _ Hw1) in Hnot.
    split; [by eapply only_rng_trans|done].
  - injection Hrun as <- <-. done.
Qed.


End MutationFacts.


(** ** The tally of accepted values *)

Section TallyFacts.
Context {V : Type} `{!EqDecision V} `{!NumpyArray V}.
Context {R O : Type}.
Local Abbreviation M := (M V R O).
Local Abbreviation World := (World V R O).
Local Abbreviation Mute := (gmap string V).

Lemma zero_table_lookup_aux (l : list (string * list V)) (t : gmap string (list Z)) p :
  NoDup l.*1 ->
  (forall r, (p, r) ∈ l ->
     foldl (fun (t : gmap string (list Z)) (item : string * list V) =>
              <[item.1 := replicate (length item.2) 0]> t) t l !! p
     = Some (replicate (length r) 0)) /\
  (p ∉ l.*1 ->
     foldl (fun (t : gmap string (list Z)) (item : string * list V) =>
              <[item.1 := replicate (length item.2) 0]> t) t l !! p
     = t !! p).
Proof.
  revert t. induction l as [|[p0 r0] l IH]; intros t Hnd; cbn.
  - split; [by intros ? ?%elem_of_nil|done].
  - apply NoDup_cons in Hnd as [Hp0 Hnd].
    destruct (IH (<[p0 := replicate (length r0) 0]> t) Hnd) as [IHin IHout].
    split.
    + intros r [[= -> ->]|Hin]%elem_of_cons; [|by apply IHin].
      rewrite IHout by done. apply lookup_insert_eq.
    + intros [Hne Hp]%not_elem_of_cons. rewrite IHout by done.
      by apply lookup_insert_ne.
Qed.

Lemma zero_table_lookup (ranges : list (string * list V)) p r :
  NoDup ranges.*1 -> (p, r) ∈ ranges ->
  zero_table ranges !! p = Some (replicate (length r) 0).
Proof. intros Hnd Hin. by apply (zero_table_lookup_aux ranges ∅ p Hnd). Qed.

Lemma zero_table_shaped (ranges : list (string * list V)) :
  NoDup ranges.*1 -> table_shaped ranges (zero_table ranges).
Proof.
  intros Hnd p r Hin. eexists. split; [by apply zero_table_lookup|].
  apply length_replicate.
Qed.

Lemma sum_replicate_zero n : foldr Z.add 0 (replicate n 0) = 0.
Proof. induction n; cbn; lia. Qed.

Lemma sum_insert_succ (row : list Z) i n :
  row !! i = Some n ->
  foldr Z.add 0 (<[i := n + 1]> row) = foldr Z.add 0 row + 1.
Proof.
  revert i. induction row as [|x row IH]; intros [|i] Hi; simplify_eq/=; [lia|].
  rewrite (IH i Hi). lia.
Qed.

Lemma bumped_shaped (vals : Mute) ranges t t' :
  table_shaped ranges t -> bumped vals ranges t t' -> table_shaped ranges t'.
Proof.
  intros Hshape [Hin _] p r Hpr.
  destruct (Hin p r Hpr) as (v & i & row & n & _ & _ & Hrow & _ & ->).
  destruct (Hshape p r Hpr) as (row' & Hrow' & Hlen).
  eexists. split; [done|]. rewrite length_insert. congruence.
Qed.

Lemma bumped_sum (vals : Mute) ranges t t' p r :
  (p, r) ∈ ranges -> bumped vals ranges t t' ->
  tally_sum t' p = tally_sum t p + 1.
Proof.
  intros Hpr [Hin _].
  destruct (Hin p r Hpr) as (v & i & row & n & _ & _ & Hrow & Hn & Hrow').
  unfold tally_sum. rewrite Hrow, Hrow'. cbn. by apply sum_insert_succ.
Qed.

(** The loop of [_update_param_count] over the parameters [l]. *)
Lemma bump_loop vals (l : list (string * list V)) (w : World) :
  NoDup l.*1 ->
  table_shaped l (param_cnt w) ->
  values_in l vals ->
  yields (for_each l (bump vals)) w (fun _ w' =>
    exists t', w' = set_param_cnt t' w /\ bumped vals l (param_cnt w) t').
Proof.
  revert w. induction l as [|[p0 r0] l IH]; intros w Hnd Hshape Hvals.
  - apply yields_ret. exists (param_cnt w). split; [by destruct w|].
    split; [by intros ? ? ?%elem_of_nil|done].
  - cbn in Hnd. apply NoDup_cons in Hnd as [Hp0 Hnd].
    destruct (Hshape p0 r0) as (row & Hrow & Hlen); [left|].
    destruct (Hvals p0 r0) as (v & Hv & Hvin); [left|].
    destruct (index_elem_of v r0 Hvin) as [i Hi].
    assert (is_Some (row !! i)) as [n Hn].
    { apply lookup_lt_is_Some_2. rewrite Hlen.
      by eapply lookup_lt_Some, index_lookup. }
    set (w1 := set_param_cnt (<[p0 := <[i := n + 1]> row]> (param_cnt w)) w).
    assert (bump vals (p0, r0) w = Done tt w1) as Hbump.
    { unfold bump, bind, get, modify. cbn. rewrite Hrow. cbn. rewrite Hv. cbn.
      rewrite Hi. cbn. by rewrite Hn. }
    destruct (IH w1) as ([] & w' & Hrun & t' & -> & Hin & Hout); [done|..].
    + intros p r Hpr. destruct (Hshape p r) as (row' & Hrow' & Hlen'); [by right|].
      exists row'. split; [|done]. cbn. rewrite lookup_insert_ne; [done|].
      intros ->. apply Hp0. apply list_elem_of_fmap. by exists (p, r).
    + intros p r Hpr. apply Hvals. by right.
    + exists tt, (set_param_cnt t' w1). split.
      { unfold for_each in *. cbn. unfold bind at 1. by rewrite Hbump. }
      exists t'. split; [done|]. cbn in Hin, Hout. split.
      * intros p r [[= -> ->]|Hpr]%elem_of_cons.
        -- exists v, i, row, n. repeat (split; [done|]).
           rewrite Hout by done. apply lookup_insert_eq.
        -- destruct (Hin p r Hpr) as (v' & i' & row' & n' & ? & ? & Hr & ? & ?).
           exists v', i', row', n'. repeat (split; [done|]).
           rewrite lookup_insert_ne in Hr; [done|].
           intros ->. apply Hp0. apply list_elem_of_fmap. by exists (p, r).
      * intros p [Hne Hp]%not_elem_of_cons. rewrite Hout by done.
        by apply lookup_insert_ne.
Qed.

Lemma load_tally_run (w : World) : load_tally w = Done tt (load_world w).
Proof.
  unfold load_tally, load_world, bind, get, modify.
  by destruct (tally_file w).
Qed.

(** One call of [_update_param_count]: the world it leaves and the table
    it writes. *)
Lemma update_param_count_step vals (w : World) :
  NoDup (mutable_param_ranges w).*1 ->
  table_shaped (mutable_param_ranges w) (effective_table w) ->
  values_in (mutable_param_ranges w) vals ->
  yields (_update_param_count vals) w (fun _ w' =>
    exists t',
      w' = set_tally_file (FTable t') (set_param_cnt t' (set_reset_success false w)) /\
      bumped vals (mutable_param_ranges w) (effective_table w) t').
Proof.
  intros Hnd Hshape Hvals. unfold _update_param_count.
  apply yields_bind. exists tt, (load_world w). split; [apply load_tally_run|].
  apply yields_bind, yields_get. apply yields_bind, yields_get.
  apply yields_bind.
  set (w2 := if reset_success (load_world w)
             then set_param_cnt (zero_table (mutable_param_ranges (load_world w)))
                    (set_reset_success false (load_world w))
             else load_world w).
  exists tt, w2. split.
  { subst w2. by destruct (reset_success (load_world w)). }
  assert (mutable_param_ranges (load_world w) = mutable_param_ranges w) as Hr1.
  { unfold load_world. by destruct (tally_file w). }
  assert (param_cnt w2 = effective_table w /\
          mutable_param_ranges w2 = mutable_param_ranges w /\
          forall t', set_tally_file (FTable t') (set_param_cnt t' w2)
                     = set_tally_file (FTable t')
                         (set_param_cnt t' (set_reset_success false w)))
    as (Hc & Hr2 & Hnorm).
  { subst w2. unfold effective_table, load_world.
    destruct w as [g gp ranges prev rets reset cnt file runs mdl saved orc].
    cbn. by destruct file, reset. }
  rewrite Hr1. apply yields_bind.
  eapply yields_weaken; [|apply (bump_loop vals _ w2); [done|by rewrite Hc|done]].
  cbn. intros _ w3 (t' & -> & Hb).
  apply yields_bind, yields_get. exists tt. eexists. split; [reflexivity|].
  exists t'. split; [apply Hnorm|]. by rewrite <- Hc.
Qed.

Lemma effective_table_after t (w : World) :
  effective_table (set_tally_file (FTable t) (set_param_cnt t (set_reset_success false w)))
  = t.
Proof. reflexivity. Qed.

(** C9. Each call of [_update_param_count] with an assignment whose values
    lie in their candidate sequences raises, for every mutable parameter,
    exactly the counter at the index of the accepted value by one and leaves
    every other counter as it was; so after [N] such calls that start from
    an all-zero table sized to the candidate sequences, the counters of each
    parameter add up to [N]. *)
Theorem tally_sum_counts_accepts (w : World) :
  NoDup (mutable_param_ranges w).*1 ->
  (forall vals,
      table_shaped (mutable_param_ranges w) (effective_table w) ->
      values_in (mutable_param_ranges w) vals ->
      yields (_update_param_count vals) w (fun _ w' =>
        tally_file w' = FTable (effective_table w') /\
        bumped vals (mutable_param_ranges w) (effective_table w) (effective_table w'))) /\
  (forall accepted,
      effective_table w = zero_table (mutable_param_ranges w) ->
      Forall (values_in (mutable_param_ranges w)) accepted ->
      yields (for_each accepted _update_param_count) w (fun _ w' =>
        forall p r, (p, r) ∈ mutable_param_ranges w ->
          tally_sum (effective_table w') p = Z.of_nat (length accepted))).
Proof.
  intros Hnd. split.
  - intros vals Hshape Hvals.
    eapply yields_weaken; [|by apply update_param_count_step].
    cbn. intros _ w' (t' & -> & Hb). by rewrite effective_table_after.
  - intros accepted Hzero Hall.
    assert (table_shaped (mutable_param_ranges w) (effective_table w)) as Hshape.
    { rewrite Hzero. by apply zero_table_shaped. }
    assert (forall p r, (p, r) ∈ mutable_param_ranges w ->
              tally_sum (effective_table w) p = 0) as Hsum.
    { intros p r Hpr. unfold tally_sum.
      rewrite Hzero, (zero_table_lookup _ p r Hnd Hpr). apply sum_replicate_zero. }
    clear Hzero. change 0 with (Z.of_nat 0) in Hsum.
    cut (forall k (w0 : World),
           mutable_param_ranges w0 = mutable_param_ranges w ->
           table_shaped (mutable_param_ranges w) (effective_table w0) ->
           (forall p r, (p, r) ∈ mutable_param_ranges w ->
              tally_sum (effective_table w0) p = Z.of_nat k) ->
           yields (for_each accepted _update_param_count) w0 (fun _ w' =>
             forall p r, (p, r) ∈ mutable_param_ranges w ->
               tally_sum (effective_table w') p = Z.of_nat (k + length accepted))).
    { intros Hgen. by apply (Hgen 0%nat w). }
    clear Hshape Hsum.
    induction accepted as [|vals accepted IH]; intros k w0 Hr Hshape Hsum.
    + apply yields_ret. intros p r Hpr. rewrite Nat.add_0_r. by eapply Hsum.
    + apply Forall_cons in Hall as [Hvals Hall].
      unfold for_each. cbn [for_fold]. apply yields_bind.
      eapply yields_weaken; [|apply update_param_count_step; by rewrite Hr].
      cbn. intros [] w1 (t' & -> & Hb). rewrite Hr in Hb.
      eapply yields_weaken; [|apply (IH Hall (S k))].
      * cbn. intros _ w' Hfin p r Hpr. rewrite (Hfin p r Hpr). f_equal. cbn. lia.
      * done.
      * rewrite effective_table_after. by eapply bumped_shaped.
      * intros p r Hpr. rewrite effective_table_after.
        rewrite (bumped_sum _ _ _ _ p r Hpr Hb), (Hsum p r Hpr). lia.
Qed.
End TallyFacts.

Lemma sample_values_in (v : Z) :
  v ∈ [1; 2; 3; 4; 5] -> values_in sample_ranges {["X" := v]}.
Proof.
  intros Hv param param_range Hin. apply list_elem_of_singleton in Hin.
  injection Hin as -> ->. exists v. split; [|done]. apply lookup_singleton_eq.
Qed.

Lemma tally_sum_counts_accepts_witness :
  NoDup (mutable_param_ranges (sample_world [] 2040)).*1 /\
  yields (for_each [{["X" := 3]}; {["X" := 4]}] _update_param_count)
    (sample_world [] 2040)
    (fun _ w' => forall p r, (p, r) ∈ sample_ranges ->
                   tally_sum (effective_table w') p = 2).
Proof.
  assert (NoDup (mutable_param_ranges (sample_world [] 2040)).*1) as Hnd.
  { apply NoDup_singleton. }
  split; [exact Hnd|].
  destruct (tally_sum_counts_accepts (sample_world [] 2040) Hnd) as [_ Hall].
  apply (Hall [{["X" := 3]}; {["X" := 4]}]); [reflexivity|].
  repeat apply Forall_cons_2; [| |apply Forall_nil_2];
    apply sample_values_in; set_solver.
Defined.

(** ** Being overtaken *)

Section OvertakeFacts.
Context {V : Type} `{!EqDecision V} `{!NumpyArray V}.
Context {R O : Type}.
Local Abbreviation M := (M V R O).
Local Abbreviation World := (World V R O).

Lemma Qgtb_lt a b : Qgtb a b = true <-> (b < a)%Q.
Proof.
  unfold Qgtb. rewrite negb_true_iff, <- not_true_iff_false, Qle_bool_iff.
  split; [apply Qnot_le_lt|apply Qlt_not_le].
Qed.

Lemma for_each_cons {A} (b : A -> M unit) x l (w : World) :
  for_each (x :: l) b w = bind (b x) (fun _ => for_each l b) w.
Proof.
  unfold for_each. cbn [for_fold]. unfold bind.
  by destruct (b x w) as [[] w'| |].
Qed.

Lemma check_entry_run restart usr i inc sinc (w : World) :
  job_entry usr i (persisted w) = Some sinc ->
  check_entry restart usr (i, inc) w
  = (if Qgtb (last_date inc) (last_date sinc) then restart w else Done tt w).
Proof.
  unfold job_entry, check_entry, bind, get. cbn.
  destruct (jobs_of _ (persisted w)) as [sjobs|]; cbn; [|done].
  intros ->. cbn. by destruct (Qgtb _ _).
Qed.

Lemma check_if_beaten_unfold (restart : M unit) (full : Full V) :
  _check_if_beaten restart full
  = for_each ["user"; "partner"] (fun usr =>
      jobs <- getitem KeyError (jobs_of (usr +:+ "_jobs") full) ;;
      for_each (enumerate jobs) (check_entry restart usr)).
Proof. reflexivity. Qed.

Lemma jobs_of_monitored usr (f : Full V) :
  usr ∈ ["user"; "partner"] -> is_Some (jobs_of (usr +:+ "_jobs") f).
Proof.
  intros [->|[->|[]%elem_of_nil]%elem_of_cons]%elem_of_cons; by eexists.
Qed.

Lemma for_each_quiet {A} (b : A -> M unit) l (w : World) :
  (forall x, x ∈ l -> b x w = Done tt w) -> for_each l b w = Done tt w.
Proof.
  induction l as [|x l IH]; intros Hb; [done|].
  rewrite for_each_cons. unfold bind. rewrite Hb by left.
  apply IH. intros y Hy. apply Hb. by right.
Qed.

Lemma for_each_first_raise {A} (b : A -> M unit) l (w : World) k x e :
  l !! k = Some x ->
  (forall j y, (j < k)%nat -> l !! j = Some y -> b y w = Done tt w) ->
  b x w = Raised e w ->
  for_each l b w = Raised e w.
Proof.
  revert k. induction l as [|y l IH]; intros k Hk Hbefore Hx; [done|].
  rewrite for_each_cons. unfold bind. destruct k as [|k]; cbn in Hk.
  - injection Hk as ->. by rewrite Hx.
  - rewrite (Hbefore 0%nat y) by (done || lia).
    apply (IH k); [done| |done].
    intros j z Hj Hz. apply (Hbefore (S j) z); [lia|done].
Qed.

Lemma check_entry_missing restart usr i inc (w : World) sjobs :
  jobs_of (usr +:+ "_jobs") (persisted w) = Some sjobs ->
  sjobs !! i = None ->
  check_entry restart usr (i, inc) w = Raised IndexError w.
Proof.
  intros Hjobs Hnone. unfold check_entry, bind, get. cbn.
  rewrite Hjobs. cbn. by rewrite Hnone.
Qed.

Lemma check_entry_not_later restart usr i inc sinc (w : World) :
  job_entry usr i (persisted w) = Some sinc ->
  (last_date inc <= last_date sinc)%Q ->
  check_entry restart usr (i, inc) w = Done tt w.
Proof.
  intros Hs Hle. rewrite (check_entry_run _ _ _ _ _ _ Hs).
  destruct (Qgtb _ _) eqn:Hgt; [|done].
  apply Qgtb_lt in Hgt. by apply Qlt_not_le in Hgt.
Qed.

Lemma for_each_app {A} (b : A -> M unit) l1 l2 (w : World) :
  for_each (l1 ++ l2) b w = bind (for_each l1 b) (fun _ => for_each l2 b) w.
Proof.
  revert w. induction l1 as [|x l1 IH]; intros w; [done|].
  cbn [app]. unfold bind. rewrite !for_each_cons. unfold bind.
  destruct (b x w) as [[] w1| |]; [|done..]. by rewrite IH.
Qed.

Lemma for_each_fmap {A B} (f : A -> B) (b : B -> M unit) l (w : World) :
  for_each (f <$> l) b w = for_each l (fun x => b (f x)) w.
Proof.
  revert w. induction l as [|x l IH]; intros w; [done|].
  rewrite fmap_cons, !for_each_cons. unfold bind.
  destruct (b (f x) w) as [[] w1| |]; [|done..]. apply IH.
Qed.

(** The two loops of [_check_if_beaten] go through the monitored jobs. *)
Lemma check_if_beaten_flat (restart : M unit) (full : Full V) (w : World) :
  _check_if_beaten restart full w
  = for_each (monitored full) (check_item restart) w.
Proof.
  rewrite check_if_beaten_unfold. unfold monitored.
  set (body := fun usr : string => _).
  rewrite for_each_cons, for_each_app. unfold bind.
  assert (forall w0, body "user" w0
            = for_each (pair "user" <$> enumerate (user_jobs full))
                (check_item restart) w0) as ->.
  { intros w0. by rewrite for_each_fmap. }
  destruct (for_each _ (check_item restart) w) as [[] w1| |]; [|done..].
  rewrite for_each_cons. unfold bind.
  assert (forall w0, body "partner" w0
            = for_each (pair "partner" <$> enumerate (partner_jobs full))
                (check_item restart) w0) as ->.
  { intros w0. by rewrite for_each_fmap. }
  by destruct (for_each _ (check_item restart) w1) as [[] w2| |].
Qed.

Lemma monitored_usr (full : Full V) e :
  e ∈ monitored full -> e.1 ∈ ["user"; "partner"].
Proof.
  unfold monitored.
  intros [(x & -> & _)%list_elem_of_fmap|(x & -> & _)%list_elem_of_fmap]%elem_of_app.
  - apply list_elem_of_here.
  - apply list_elem_of_further, list_elem_of_here.
Qed.

Lemma check_item_not_later restart e (w : World) :
  not_later_at (persisted w) e -> check_item restart e w = Done tt w.
Proof.
  destruct e as [usr [i inc]]. intros (sinc & Hs & Hle).
  by apply (check_entry_not_later _ _ _ _ sinc).
Qed.

Lemma check_item_later restart e (w : World) :
  own_later_at (persisted w) e -> check_item restart e w = restart w.
Proof.
  destruct e as [usr [i inc]]. intros (sinc & Hs & Hlt). unfold check_item.
  cbn [fst snd] in *. rewrite (check_entry_run _ _ _ _ _ _ Hs).
  apply Qgtb_lt in Hlt. by rewrite Hlt.
Qed.

Lemma check_item_missing restart e (w : World) :
  e.1 ∈ ["user"; "partner"] -> missing_at (persisted w) e ->
  check_item restart e w = Raised IndexError w.
Proof.
  destruct e as [usr [i inc]]. unfold missing_at, job_entry, check_item.
  cbn [fst snd]. intros Husr Hnone.
  destruct (jobs_of_monitored usr (persisted w) Husr) as [sjobs Hjobs].
  rewrite Hjobs in Hnone. by apply (check_entry_missing _ _ _ _ _ sjobs).
Qed.

(** Every monitored job is of exactly one of the three kinds. *)
Lemma entry_cases (saved : Full V) e :
  not_later_at saved e \/ own_later_at saved e \/ missing_at saved e.
Proof.
  unfold not_later_at, own_later_at, missing_at.
  destruct (job_entry e.1 e.2.1 saved) as [sinc|]; [|by right; right].
  destruct (Qlt_le_dec (last_date sinc) (last_date e.2.2)) as [Hlt|Hle].
  - right. left. by exists sinc.
  - left. by exists sinc.
Qed.

(** The walk stops at the first job that is not of the first kind. *)
Lemma monitored_scan (saved : Full V) (l : list (string * (nat * income))) :
  Forall (not_later_at saved) l \/
  exists before e after,
    l = before ++ e :: after /\ Forall (not_later_at saved) before /\
    (own_later_at saved e \/ missing_at saved e).
Proof.
  induction l as [|e l IH]; [by left|].
  destruct (entry_cases saved e) as [Hok|Hbad].
  - destruct IH as [Hall|(before & e' & after & -> & Hbefore & He')].
    + left. by constructor.
    + right. exists (e :: before), e', after. split; [done|].
      split; [by constructor|done].
  - right. by exists [], e, l.
Qed.

Lemma for_each_stops_at {A} (b : A -> M unit) before x after (w : World) :
  (forall y, y ∈ before -> b y w = Done tt w) ->
  for_each (before ++ x :: after) b w
  = bind (b x) (fun _ => for_each after b) w.
Proof.
  intros Hbefore. rewrite for_each_app. unfold bind at 1.
  rewrite (for_each_quiet _ _ _ Hbefore). apply for_each_cons.
Qed.

Lemma check_stops_at_later restart (full : Full V) (w : World) before e after :
  monitored full = before ++ e :: after ->
  Forall (not_later_at (persisted w)) before ->
  own_later_at (persisted w) e ->
  _check_if_beaten restart full w
  = bind restart (fun _ => for_each after (check_item restart)) w.
Proof.
  intros Hsplit Hbefore Hlater. rewrite check_if_beaten_flat, Hsplit.
  rewrite for_each_stops_at.
  - unfold bind. by rewrite check_item_later.
  - intros y Hy. apply check_item_not_later.
    by eapply Forall_forall in Hbefore.
Qed.

Lemma check_stops_at_missing restart (full : Full V) (w : World) before e after :
  monitored full = before ++ e :: after ->
  Forall (not_later_at (persisted w)) before ->
  missing_at (persisted w) e ->
  _check_if_beaten restart full w = Raised IndexError w.
Proof.
  intros Hsplit Hbefore Hmissing. rewrite check_if_beaten_flat, Hsplit.
  rewrite for_each_stops_at.
  - unfold bind. rewrite check_item_missing; [done| |done].
    apply (monitored_usr full). rewrite Hsplit.
    apply elem_of_app. right. apply list_elem_of_here.
  - intros y Hy. apply check_item_not_later.
    by eapply Forall_forall in Hbefore.
Qed.

Lemma check_all_not_later restart (full : Full V) (w : World) :
  Forall (not_later_at (persisted w)) (monitored full) ->
  _check_if_beaten restart full w = Done tt w.
Proof.
  intros Hall. rewrite check_if_beaten_flat. apply for_each_quiet.
  intros y Hy. apply check_item_not_later. by eapply Forall_forall in Hall.
Qed.

(** C1, as the code has it.  [_check_if_beaten] goes through the monitored
    jobs, the user's and then the partner's, and compares each own
    [last_date] with the persisted one.  At the first own job that ends
    strictly later than the persisted one, that is when the persisted
    baseline is the earlier one, it calls [self.main()] in the state at hand
    and, once that call has returned, goes on with the jobs that follow.  It
    does so exactly when such a job comes before any job that the persisted
    baseline lacks; a lacking job met first raises [IndexError].  When the
    persisted baseline has every monitored job and no own [last_date] is
    later than the persisted one, and only then, the check returns at once
    without calling [self.main()] and changes nothing. *)
Theorem overtake_restarts_when_own_is_later (full : Full V) (w : World) :
  (Forall (not_later_at (persisted w)) (monitored full) <->
   forall restart, _check_if_beaten restart full w = Done tt w) /\
  (forall before e after,
      monitored full = before ++ e :: after ->
      Forall (not_later_at (persisted w)) before ->
      own_later_at (persisted w) e ->
      forall restart,
        _check_if_beaten restart full w
        = bind restart (fun _ => for_each after (check_item restart)) w) /\
  (forall before e after,
      monitored full = before ++ e :: after ->
      Forall (not_later_at (persisted w)) before ->
      missing_at (persisted w) e ->
      forall restart, _check_if_beaten restart full w = Raised IndexError w) /\
  (reaches_later full (persisted w) <->
   _check_if_beaten diverge full w = Diverge).
Proof.
  split; [|split; [|split]].
  - split; [intros Hall restart; by apply check_all_not_later|].
    intros Hquiet.
    destruct (monitored_scan (persisted w) (monitored full))
      as [Hall|(before & e & after & Hsplit & Hbefore & [Hlater|Hmissing])];
      [done| |].
    + pose proof (Hquiet diverge) as Hrun.
      by rewrite (check_stops_at_later _ _ _ _ _ _ Hsplit Hbefore Hlater) in Hrun.
    + pose proof (Hquiet diverge) as Hrun.
      by rewrite (check_stops_at_missing _ _ _ _ _ _ Hsplit Hbefore Hmissing) in Hrun.
  - intros before e after Hsplit Hbefore Hlater restart.
    by eapply check_stops_at_later.
  - intros before e after Hsplit Hbefore Hmissing restart.
    by eapply check_stops_at_missing.
  - split.
    + intros (before & e & after & Hsplit & Hbefore & Hlater).
      by rewrite (check_stops_at_later _ _ _ _ _ _ Hsplit Hbefore Hlater).
    + intros Hrun.
      destruct (monitored_scan (persisted w) (monitored full))
        as [Hall|(before & e & after & Hsplit & Hbefore & [Hlater|Hmissing])].
      * by rewrite check_all_not_later in Hrun.
      * by exists before, e, after.
      * by rewrite (check_stops_at_missing _ _ _ _ _ _ Hsplit Hbefore Hmissing)
          in Hrun.
Qed.
End OvertakeFacts.

Lemma overtake_restarts_when_own_is_later_witness :
  own_later_at (persisted (sample_world [] 2039)) ("user", (0%nat, {| last_date := 2040 |})) /\
  _check_if_beaten (modify (set_prev_used_params [{["X" := 1]}]))
    (sample_full {["X" := 3]} 2040) (sample_world [] 2039)
  = bind (modify (set_prev_used_params [{["X" := 1]}]))
      (fun _ =>
         for_each [("partner", (0%nat, {| last_date := 2040 |}))]
           (check_item (modify (set_prev_used_params [{["X" := 1]}]))))
      (sample_world [] 2039).
Proof.
  assert (own_later_at (persisted (sample_world [] 2039))
            ("user", (0%nat, {| last_date := 2040 |}))) as Hlater.
  { exists {| last_date := 2039 |}. split; reflexivity. }
  split; [exact Hlater|].
  destruct (overtake_restarts_when_own_is_later
              (sample_full {["X" := 3]} 2040) (sample_world [] 2039))
    as (_ & Hover & _).
  apply (Hover [] ("user", (0%nat, {| last_date := 2040 |}))
           [("partner", (0%nat, {| last_date := 2040 |}))]);
    [reflexivity|constructor|exact Hlater].
Defined.

(** A persisted [last_date] of 2041 against an own one of 2040 starts no new
    search, though the restart offered here would never come back. *)
Lemma overtake_later_baseline_counterexample :
  saved_is_later (sample_full {["X" := 3]} 2040) (persisted (sample_world [] 2041)) /\
  _check_if_beaten diverge (sample_full {["X" := 3]} 2040) (sample_world [] 2041)
  = Done tt (sample_world [] 2041).
Proof.
  split; [|reflexivity].
  exists "user", 0%nat, {| last_date := 2040 |}, {| last_date := 2041 |}.
  split; [apply list_elem_of_here|]. repeat split.
Qed.

(** ** The budget and the margin *)

Lemma py_int_Qeq (x y : Q) : (x == y)%Q -> py_int x = py_int y.
Proof.
  unfold Qeq, py_int. intros Heq.
  rewrite <- (Z.quot_mul_cancel_r (Qnum x) (Zpos (Qden x)) (Zpos (Qden y))) by done.
  rewrite Heq, (Z.mul_comm (Zpos (Qden x))).
  apply Z.quot_mul_cancel_r; done.
Qed.

Lemma Qltb_lt a b : Qltb a b = true <-> (a < b)%Q.
Proof. apply (Qgtb_lt b a). Qed.

Lemma py_max_Qmax (a b : Q) : (py_max a b == Qmax a b)%Q.
Proof.
  unfold py_max. destruct (Qgtb b a) eqn:Hgt.
  - apply Qgtb_lt in Hgt. symmetry. apply Q.max_r. by apply Qlt_le_weak.
  - symmetry. apply Q.max_l. apply Qnot_lt_le. intros Hlt%Qgtb_lt. congruence.
Qed.

Lemma py_min_Qmin (a b : Q) : (py_min a b == Qmin a b)%Q.
Proof.
  unfold py_min. destruct (Qltb b a) eqn:Hlt.
  - apply Qltb_lt in Hlt. symmetry. apply Q.min_r. by apply Qlt_le_weak.
  - symmetry. apply Q.min_l. apply Qnot_lt_le. intros Hlt'%Qltb_lt. congruence.
Qed.

Lemma py_int_bounds (lo hi : Z) (x : Q) :
  (inject_Z lo <= x)%Q -> (x <= inject_Z hi)%Q -> lo <= py_int x <= hi.
Proof.
  unfold Qle, py_int. cbn. rewrite !Z.mul_1_r. intros Hlo Hhi. split.
  - apply Z.quot_le_lower_bound; lia.
  - apply Z.quot_le_upper_bound; lia.
Qed.

(** ** The optimization loop *)

Section LoopFacts.
Context {V : Type} `{!EqDecision V} `{!NumpyArray V}.
Context {R O : Type}.
Local Abbreviation M := (M V R O).
Local Abbreviation World := (World V R O).
Local Abbreviation Mute := (gmap string V).
Variable sim : Full V -> Z -> option R -> Z -> O -> option (Q * R) * O.
Variable save : Mute -> bool -> Model V * Full V -> Model V * Full V.

(** The re-evaluation of the parent: no mutation, no reused draws. *)
Lemma make_child_identical fuel full rate parent max_step (w : World) :
  _make_child sim fuel full rate "identical" (Some parent) max_step 0 w
  = let res := sim (update full parent) (monte_carlo_runs rate) None
                 (MONTE_CARLO_RUNS w) (oracle w) in
    match res.1 with
    | None => Done (update full parent, None) (set_oracle res.2 w)
    | Some (s_rate, rets) =>
        Done (update full parent, Some (s_rate, parent))
             (set_returns (Some rets) (set_oracle res.2 w))
    end.
Proof.
  unfold _make_child, bind, getitem, ret, get, modify. cbn.
  repeat case_decide; try done.
  by destruct (sim _ _ _ _ _) as [[[s rets]|] o].
Qed.

(** C5, as the code has it.  The confirmation pass is entered exactly when
    the current success rate is at least [TARGET_SUCCESS_RATE * 1.005]; a
    rate of exactly [TARGET_SUCCESS_RATE] does not enter it and a rate of
    [TARGET_SUCCESS_RATE * 1.006] does. *)
Theorem confirm_entered_from_margin fuel restart advancing (l : Locals) :
  ((TARGET_SUCCESS_RATE * 1.005 <= success_rate l)%Q /\
   target_check sim save fuel restart advancing l = confirm sim save fuel restart advancing l
   \/
   (success_rate l < TARGET_SUCCESS_RATE * 1.005)%Q /\
   target_check sim save fuel restart advancing l = ret (Continue l)) /\
  beats_target TARGET_SUCCESS_RATE = false /\
  beats_target (TARGET_SUCCESS_RATE * 1.006) = true.
Proof.
  split; [|done]. unfold target_check, beats_target.
  destruct (Qle_bool _ _) eqn:Hle.
  - left. split; [by apply Qle_bool_iff|done].
  - right. split; [|done]. apply Qnot_le_lt. intros Hle'%Qle_bool_iff. congruence.
Qed.

(** C3, as the code has it.  When the re-evaluation at full fidelity gives a
    non-zero rate below [TARGET_SUCCESS_RATE], the loop goes on with the same
    parent assignment and the same plateau counter, the saved budget is put
    back, and the current success rate becomes the rate just measured. *)
Theorem failed_confirmation_keeps_parent fuel restart advancing (l : Locals)
    (w : World) r' rets o' :
  sim (update (full_param_vals l) (parent_mute_param_vals l))
    (monte_carlo_runs (success_rate l)) None MAX_MONTE_RUNS (oracle w)
  = (Some (r', rets), o') ->
  ~ (r' == 0)%Q ->
  (r' < TARGET_SUCCESS_RATE)%Q ->
  exists l' w',
    confirm sim save fuel restart advancing l w = Done (Continue l') w' /\
    parent_mute_param_vals l' = parent_mute_param_vals l /\
    parent_is_best_qty l' = parent_is_best_qty l /\
    success_rate l' = r' /\
    full_param_vals l' = update (full_param_vals l) (parent_mute_param_vals l) /\
    MONTE_CARLO_RUNS w' = MONTE_CARLO_RUNS w.
Proof.
  intros Hsim Hnz Hlow. eexists _, _. split.
  - unfold confirm. unfold bind at 1, get. unfold bind at 1, modify.
    unfold bind at 1. rewrite make_child_identical. cbn. rewrite Hsim. cbn.
    destruct (Qeq_bool r' 0) eqn:Hz; [by apply Qeq_bool_iff in Hz|].
    unfold bind, getitem, ret. cbn.
    apply Qltb_lt in Hlow. rewrite Hlow. reflexivity.
  - done.
Qed.

(** C10. When the simulator reports cancellation during the re-evaluation,
    the confirmation block ends in [return None] with
    [simulator.MONTE_CARLO_RUNS] still set to [MAX_MONTE_RUNS], whatever the
    saved value was, and [main]'s loop hands that world back as it is: a
    generation whose children and selection lead into that confirmation
    ends the loop there. *)
Theorem cancelled_confirmation_leaves_override fuel restart advancing (l : Locals)
    (w : World) o' :
  sim (update (full_param_vals l) (parent_mute_param_vals l))
    (monte_carlo_runs (success_rate l)) None MAX_MONTE_RUNS (oracle w)
  = (None, o') ->
  exists l' w',
    confirm sim save fuel restart advancing l w = Done (Return l') w' /\
    w' = set_oracle o' (set_MONTE_CARLO_RUNS MAX_MONTE_RUNS w) /\
    MONTE_CARLO_RUNS w' = MAX_MONTE_RUNS /\
    while_true 1 (confirm sim save fuel restart advancing) l w = Done (arg_content l') w' /\
    (forall n l0 w0 wa l1 children wb,
        _check_if_beaten (restart None ;;; ret tt) (full_param_vals l0) w0
        = Done tt wa ->
        make_children sim fuel (seq 0 OFFSPRING_QTY) l0 [] wa
        = Done (l1, Some children) wb ->
        select sim fuel l1 children wb = Done (l, false) w ->
        beats_target (success_rate l) = true ->
        generation sim save fuel restart advancing l0 w0 = Done (Return l') w' /\
        while_true (S n) (generation sim save fuel restart advancing) l0 w0
        = Done (arg_content l') w').
Proof.
  intros Hsim.
  assert (confirm sim save fuel restart advancing l w
          = Done (Return (with_full (update (full_param_vals l)
                                       (parent_mute_param_vals l)) l))
                 (set_oracle o' (set_MONTE_CARLO_RUNS MAX_MONTE_RUNS w))) as Hrun.
  { unfold confirm. unfold bind at 1, get. unfold bind at 1, modify.
    unfold bind at 1. rewrite make_child_identical. cbn. by rewrite Hsim. }
  eexists _, _. split; [exact Hrun|]. split; [done|]. split; [done|].
  split; [cbn; unfold bind; by rewrite Hrun|].
  intros n l0 w0 wa l1 children wb Hcheck Hkids Hselect Hbeats.
  assert (generation sim save fuel restart advancing l0 w0
          = Done (Return (with_full (update (full_param_vals l)
                                       (parent_mute_param_vals l)) l))
                 (set_oracle o' (set_MONTE_CARLO_RUNS MAX_MONTE_RUNS w))) as Hgen.
  { unfold generation. unfold bind at 1. rewrite Hcheck.
    unfold bind at 1. rewrite Hkids. cbn [fst snd].
    unfold bind at 1. rewrite Hselect. cbn [fst snd].
    unfold target_check. by rewrite Hbeats. }
  split; [done|]. cbn [while_true]. unfold bind. by rewrite Hgen.
Qed.

Lemma get_Done {A} (f : World -> A) (w : World) a w' :
  get f w = Done a w' -> a = f w /\ w' = w.
Proof. by intros [= <- <-]. Qed.

Lemma modify_Done (f : World -> World) (w : World) u w' :
  modify f w = Done u w' -> w' = f w.
Proof. by intros [= <-]. Qed.

Lemma ret_Done {A} (a : A) (w : World) b w' :
  ret a w = Done b w' -> b = a /\ w' = w.
Proof. by intros [= <- <-]. Qed.

(** The children loop rewrites [full_param_vals] and nothing else. *)
Lemma make_children_locals fuel idxs (l : Locals) children (w : World) :
  ensures (make_children sim fuel idxs l children) w (fun r _ =>
    exists f, r.1 = with_full f l).
Proof.
  revert l children w. induction idxs as [|idx idxs IH]; intros l children w; cbn.
  - intros r w' [-> _]%ret_Done. exists (full_param_vals l). by destruct l.
  - apply ensures_bind. intros r1 w1 _.
    destruct (is_falsy _).
    + intros r w' [-> _]%ret_Done. by eexists.
    + apply ensures_bind. intros child w2 _.
      eapply ensures_weaken; [|apply IH]. cbn. intros r w' [f ->]. by exists f.
Qed.

Lemma random_restart_qty cancelled fuel (l : Locals) (w : World) :
  ensures (random_restart sim cancelled fuel l) w (fun r _ =>
    parent_is_best_qty r.1 = parent_is_best_qty l).
Proof.
  revert l w. induction fuel as [|fuel IH]; intros l w; cbn;
    destruct (Qltb _ _); try (by intros r w' [-> _]%ret_Done); [done|].
  apply ensures_bind. intros r1 w1 _.
  destruct (cancelled _); [by intros r w' [-> _]%ret_Done|].
  apply ensures_bind. intros child w2 _.
  eapply ensures_weaken; [|apply IH]. cbn. by intros r w' ->.
Qed.

(** The head of the sorted children is one of them and has the best rate. *)
Lemma insert_desc_elem_of (c : Q * Mute) sorted x :
  x ∈ insert_desc c sorted <-> x = c \/ x ∈ sorted.
Proof.
  induction sorted as [|d sorted IH]; cbn.
  - rewrite list_elem_of_singleton. split; [by left|].
    by intros [?|?%elem_of_nil].
  - destruct (Qgtb _ _); [apply elem_of_cons|].
    rewrite !elem_of_cons, IH. tauto.
Qed.

Lemma insert_desc_head_is_best (c : Q * Mute) sorted :
  head_is_best sorted -> head_is_best (insert_desc c sorted).
Proof.
  destruct sorted as [|d sorted]; intros Hbest best; cbn.
  - intros [= <-] x ->%list_elem_of_singleton. apply Qle_refl.
  - destruct (Qgtb c.1 d.1) eqn:Hgt; cbn; intros [= <-] x Hx.
    + apply Qgtb_lt in Hgt.
      apply elem_of_cons in Hx as [->|Hx]; [apply Qle_refl|].
      eapply Qle_trans; [by apply (Hbest d)|by apply Qlt_le_weak].
    + apply elem_of_cons in Hx as [->|Hx]; [apply Qle_refl|].
      apply insert_desc_elem_of in Hx as [->|Hx].
      * apply Qnot_lt_le. intros Hlt%Qgtb_lt. congruence.
      * apply (Hbest d); [done|by right].
Qed.

Lemma sort_desc_best (children : list (Q * Mute)) best :
  head (sort_desc children) = Some best ->
  best ∈ children /\ forall c, c ∈ children -> (c.1 <= best.1)%Q.
Proof.
  unfold sort_desc.
  assert (forall (l acc : list (Q * Mute)),
            head_is_best acc ->
            head_is_best (foldl (fun sorted c => insert_desc c sorted) acc l) /\
            forall x, x ∈ foldl (fun sorted c => insert_desc c sorted) acc l
                      <-> x ∈ acc \/ x ∈ l) as Hfold.
  { induction l as [|c l IH]; intros acc Hacc; cbn.
    - split; [done|]. intros x. split; [by left|].
      by intros [?|?%elem_of_nil].
    - destruct (IH (insert_desc c acc)) as [Hb Hel];
        [by apply insert_desc_head_is_best|].
      split; [done|]. intros x. rewrite Hel, insert_desc_elem_of, elem_of_cons.
      tauto. }
  destruct (Hfold children []) as [Hb Hel]; [by intros ? [=]|].
  intros Hhead. split.
  - apply head_Some_elem_of, Hel in Hhead as [[]%elem_of_nil|]; done.
  - intros c Hc. apply (Hb best Hhead). apply Hel. by right.
Qed.

Lemma select_qty fuel (l : Locals) children (w : World) l' flag w' :
  select sim fuel l children w = Done (l', flag) w' ->
  exists best,
    head (sort_desc children) = Some best /\
    parent_is_best_qty l'
    = (if Qltb (success_rate l) best.1 then 0
       else if ITER_LIMIT <=? parent_is_best_qty l + 1 then 0
            else parent_is_best_qty l + 1).
Proof.
  unfold select. intros (best & w1 & [Hbest ->]%getitem_Done & Hrun)%bind_Done.
  exists best. split; [done|]. unfold Qltb.
  destruct (Qle_bool best.1 (success_rate l)); cbn.
  - unfold no_improvement in Hrun. cbn in Hrun.
    destruct (ITER_LIMIT <=? parent_is_best_qty l + 1).
    + by apply random_restart_qty in Hrun.
    + by apply ret_Done in Hrun as [[= -> ->] _].
  - unfold improvement in Hrun.
    apply bind_Done in Hrun as (u & w2 & _ & Hret).
    by apply ret_Done in Hret as [[= -> ->] _].
Qed.

Lemma confirm_continue_qty fuel restart advancing (l : Locals) (w : World) l' w' :
  confirm sim save fuel restart advancing l w = Done (Continue l') w' ->
  parent_is_best_qty l' = parent_is_best_qty l.
Proof.
  unfold confirm.
  intros (runs & w1 & _ & H)%bind_Done.
  apply bind_Done in H as (u1 & w2 & _ & H).
  apply bind_Done in H as (r & w3 & _ & H).
  destruct (is_falsy _); [by apply ret_Done in H as [[=] _]|].
  apply bind_Done in H as (child & w4 & _ & H).
  apply bind_Done in H as (u2 & w5 & _ & H).
  destruct (Qltb _ _); [by apply ret_Done in H as [[= ->] _]|].
  apply bind_Done in H as (u3 & w6 & _ & H).
  apply bind_Done in H as (m1 & w7 & _ & H).
  apply bind_Done in H as (saved & w8 & _ & H).
  apply bind_Done in H as (u4 & w9 & _ & H).
  apply bind_Done in H as (m2 & w10 & _ & H).
  apply bind_Done in H as (shared & w11 & _ & H).
  by apply ret_Done in H as [[= ->] _].
Qed.

Lemma target_check_continue_qty fuel restart advancing (l : Locals) (w : World) l' w' :
  target_check sim save fuel restart advancing l w = Done (Continue l') w' ->
  parent_is_best_qty l' = parent_is_best_qty l.
Proof.
  unfold target_check. destruct (beats_target _).
  - apply confirm_continue_qty.
  - by intros [[= ->] _]%ret_Done.
Qed.

(** C4, as the code has it.  In a generation that runs to its end, the
    plateau counter becomes 0 when the best child's rate strictly exceeds the
    parent's; otherwise it grows by one, unless that brings it to
    [ITER_LIMIT], in which case the random restart sets it back to 0. *)
Theorem plateau_counter_step fuel restart advancing (l : Locals) (w : World) l' w' :
  generation sim save fuel restart advancing l w = Done (Continue l') w' ->
  exists w1 l1 children w2 best,
    make_children sim fuel (seq 0 OFFSPRING_QTY) l [] w1
    = Done (l1, Some children) w2 /\
    head (sort_desc children) = Some best /\
    best ∈ children /\
    (forall c, c ∈ children -> (c.1 <= best.1)%Q) /\
    parent_is_best_qty l'
    = (if Qltb (success_rate l) best.1 then 0
       else if ITER_LIMIT <=? parent_is_best_qty l + 1 then 0
            else parent_is_best_qty l + 1).
Proof.
  unfold generation.
  intros (u & w1 & _ & H)%bind_Done.
  apply bind_Done in H as ([l1 [children|]] & w2 & Hkids & H); cbn in H;
    [|by apply ret_Done in H as [[=] _]].
  apply bind_Done in H as ([l2 flag] & w3 & Hsel & H). cbn in H.
  destruct flag; [by apply ret_Done in H as [[=] _]|].
  apply target_check_continue_qty in H.
  apply make_children_locals in Hkids as Hl1. destruct Hl1 as [f Hl1]. cbn in Hl1.
  apply select_qty in Hsel as (best & Hbest & Hqty).
  destruct (sort_desc_best children best Hbest) as [Hin Hmax].
  exists w1, l1, children, w2, best. repeat (split; [done|]).
  rewrite H, Hqty, Hl1. done.
Qed.

(** A child whose rate is zero ends the children loop the way a cancelled
    run does: the test [not children[-1][0]] cannot tell them apart. *)
Lemma zero_rate_ends_children fuel idx idxs (l : Locals) children (w : World)
    full' r child w' :
  _make_child sim fuel (full_param_vals l) (success_rate l) "step"
    (Some (parent_mute_param_vals l)) (Z.max 1 (parent_is_best_qty l)) idx w
  = Done (full', Some (r, child)) w' ->
  (r == 0)%Q ->
  make_children sim fuel (idx :: idxs) l children w = Done (with_full full' l, None) w'.
Proof.
  intros Hchild Hzero. cbn [make_children]. unfold bind. rewrite Hchild. cbn.
  apply Qeq_bool_iff in Hzero. by rewrite Hzero.
Qed.
End LoopFacts.

Lemma confirm_margin_counterexample :
  ~ (TARGET_SUCCESS_RATE * 1.005 < TARGET_SUCCESS_RATE * 1.005)%Q /\
  beats_target (TARGET_SUCCESS_RATE * 1.005) = true /\
  target_check (replay []) store 1 (fun _ => diverge) false
    (trio_locals (TARGET_SUCCESS_RATE * 1.005) 0)
  = confirm (replay []) store 1 (fun _ => diverge) false
      (trio_locals (TARGET_SUCCESS_RATE * 1.005) 0).
Proof. split; [apply Qlt_irrefl|]. split; reflexivity. Qed.

Lemma failed_confirmation_keeps_parent_witness :
  exists l' w',
    confirm (replay [Some 0.9%Q]) store 1 (fun _ => diverge) false
      (trio_locals 0.96 0) trio_world
    = Done (Continue l') w' /\
    parent_mute_param_vals l' = trio_parent /\
    parent_is_best_qty l' = 0 /\
    success_rate l' = 0.9%Q /\
    full_param_vals l' = update (sample_full trio_parent 2040) trio_parent /\
    MONTE_CARLO_RUNS w' = MONTE_CARLO_RUNS trio_world.
Proof.
  apply (failed_confirmation_keeps_parent (replay [Some 0.9%Q]) store 1
           (fun _ => diverge) false (trio_locals 0.96 0) trio_world 0.9%Q tt 1%nat).
  - reflexivity.
  - intros Heq. discriminate Heq.
  - reflexivity.
Defined.

(** A parent rated 0.96 whose re-evaluation gives 0.9 goes on with the rate
    0.9, not with the rate it had before. *)
Lemma failed_confirmation_rate_counterexample :
  exists l' w',
    confirm (replay [Some 0.9%Q]) store 1 (fun _ => diverge) false
      (trio_locals 0.96 0) trio_world
    = Done (Continue l') w' /\
    ~ (success_rate l' == success_rate (trio_locals 0.96 0))%Q.
Proof.
  eexists _, _. split; [vm_compute; reflexivity|].
  cbn. intros Heq. discriminate Heq.
Qed.

Lemma cancelled_confirmation_leaves_override_witness :
  exists l' w',
    confirm (replay [None]) store 1 (fun _ => diverge) false
      (trio_locals 0.96 0) trio_world
    = Done (Return l') w' /\
    w' = set_oracle 1%nat (set_MONTE_CARLO_RUNS MAX_MONTE_RUNS trio_world) /\
    MONTE_CARLO_RUNS w' = MAX_MONTE_RUNS /\
    while_true 1 (confirm (replay [None]) store 1 (fun _ => diverge) false)
      (trio_locals 0.96 0) trio_world
    = Done (arg_content l') w'.
Proof.
  destruct (cancelled_confirmation_leaves_override (replay [None]) store 1
              (fun _ => diverge) false (trio_locals 0.96 0) trio_world 1%nat)
    as (l' & w' & Hrun & Hw & Hruns & Hloop & _); [reflexivity|].
  by exists l', w'.
Defined.

(** A whole run: ten children rated 0.96, then a cancelled confirmation.
    [main] returns and the module global stays at 5000 instead of 1000. *)
Lemma main_cancelled_in_confirmation :
  exists w',
    main (replay (replicate 10 (Some 0.96%Q) ++ [None])) store 3 None trio_world
    = Done None w' /\
    MONTE_CARLO_RUNS trio_world = 1000 /\
    MONTE_CARLO_RUNS w' = 5000.
Proof. eexists. split; [vm_compute; reflexivity|]. split; reflexivity. Qed.

Lemma plateau_counter_step_witness :
  exists l' w',
    generation (replay (replicate 10 (Some 0.6%Q))) store 30 (fun _ => diverge)
      false (trio_locals 0.7 2) trio_world
    = Done (Continue l') w' /\
    exists w1 l1 children w2 best,
      make_children (replay (replicate 10 (Some 0.6%Q))) 30 (seq 0 OFFSPRING_QTY)
        (trio_locals 0.7 2) [] w1
      = Done (l1, Some children) w2 /\
      head (sort_desc children) = Some best /\
      best ∈ children /\
      (forall c, c ∈ children -> (c.1 <= best.1)%Q) /\
      parent_is_best_qty l'
      = (if Qltb 0.7 best.1 then 0
         else if ITER_LIMIT <=? 2 + 1 then 0 else 2 + 1).
Proof.
  assert (exists l' w',
            generation (replay (replicate 10 (Some 0.6%Q))) store 30
              (fun _ => diverge) false (trio_locals 0.7 2) trio_world
            = Done (Continue l') w') as (l' & w' & Hrun).
  { eexists _, _. vm_compute. reflexivity. }
  exists l', w'. split; [exact Hrun|].
  exact (plateau_counter_step _ _ _ _ _ _ _ _ _ Hrun).
Defined.

(** Ten children rated 0.6 against a parent rated 0.7 that has already won
    four times: the counter does not go from 4 to 5, the restart puts it
    back to 0. *)
Lemma plateau_counter_counterexample :
  exists l1 children w2 l' w',
    make_children (replay (replicate 10 (Some 0.6%Q) ++ [Some 0.55%Q])) 30
      (seq 0 OFFSPRING_QTY) (trio_locals 0.7 4) [] trio_world
    = Done (l1, Some children) w2 /\
    Forall (fun c : Q * gmap string Z => (c.1 <= 0.7)%Q) children /\
    generation (replay (replicate 10 (Some 0.6%Q) ++ [Some 0.55%Q])) store 30
      (fun _ => diverge) false (trio_locals 0.7 4) trio_world
    = Done (Continue l') w' /\
    parent_is_best_qty l' = 0 /\
    parent_is_best_qty l' <> parent_is_best_qty (trio_locals 0.7 4) + 1.
Proof.
  eexists _, _, _, _, _. split; [vm_compute; reflexivity|].
  split; [repeat (apply Forall_cons_2; [by vm_compute|]); apply Forall_nil_2|].
  split; [vm_compute; reflexivity|]. split; [reflexivity|]. by cbn.
Qed.

(** C2.  One child whose simulation ran to its end with a success rate of
    0.0: no run was cancelled, one simulation was made, and [main] returns. *)
Theorem main_returns_on_zero_rate :
  exists w',
    main (replay [Some 0%Q]) store 3 None trio_world = Done None w' /\
    replay [Some 0%Q] (sample_full trio_parent 2040) 100 None 1000 0
    = (Some (0%Q, tt), 1%nat) /\
    oracle w' = 1%nat.
Proof. eexists. split; [vm_compute; reflexivity|]. split; reflexivity. Qed.

(** * Further properties *)

(** ** The generator and the two mutations *)

Section MutationMore.
Context {V : Type} `{!EqDecision V} `{!NumpyArray V}.
Context {R O : Type}.
Local Abbreviation M := (M V R O).
Local Abbreviation World := (World V R O).
Local Abbreviation Mute := (gmap string V).

Lemma set_rng_pos_twice n m (w : World) :
  set_rng_pos n (set_rng_pos m w) = set_rng_pos n w.
Proof. reflexivity. Qed.

Lemma choice_run {A} (xs : list A) (w : World) :
  xs <> [] ->
  exists x,
    choice xs w = Done x (set_rng_pos (S (rng_pos w)) w) /\
    xs !! (rng w (rng_pos w) mod length xs)%nat = Some x.
Proof.
  intros Hne. destruct xs as [|x0 xs]; [done|].
  destruct (lookup_lt_is_Some_2 (x0 :: xs) (rng w (rng_pos w) mod length (x0 :: xs))%nat)
    as [x Hx].
  { by apply Nat.mod_upper_bound. }
  exists x. split; [|done]. unfold choice, bind, draw. by rewrite Hx.
Qed.

Lemma choice_Done {A} (xs : list A) (w : World) x w' :
  choice xs w = Done x w' -> w' = set_rng_pos (S (rng_pos w)) w /\ x ∈ xs.
Proof.
  destruct xs as [|x0 xs]; [done|]. intros Hrun.
  destruct (choice_run (x0 :: xs) w) as (y & Hy & Hlook); [done|].
  rewrite Hy in Hrun. injection Hrun as <- <-.
  split; [done|]. by eapply list_elem_of_lookup_2.
Qed.

Lemma gaussian_int_run center max_deviation (w : World) :
  1 <= max_deviation ->
  exists g,
    _gaussian_int center max_deviation w
    = Done g (set_rng_pos (S (rng_pos w)) w) /\
    center - max_deviation <= g <= center + max_deviation.
Proof.
  unfold _gaussian_int. intros Hdev.
  destruct (Z.leb_spec max_deviation 0) as [|_]; [lia|].
  destruct (choice_run
              ((fun k => k + center) <$> arange (- max_deviation) (max_deviation + 1))
              w) as (g & Hrun & Hg).
  { intros Hnil%(f_equal length).
    rewrite length_fmap, length_arange in Hnil. cbn in Hnil. lia. }
  exists g. split; [done|].
  apply list_elem_of_lookup_2, list_elem_of_fmap in Hg as (k & -> & Hk).
  unfold arange in Hk. apply list_elem_of_fmap in Hk as (i & -> & Hi).
  apply elem_of_seq in Hi. lia.
Qed.

Lemma gaussian_int_raises center max_deviation (w : World) :
  max_deviation <= 0 ->
  _gaussian_int center max_deviation w = Raised ValueError w.
Proof.
  unfold _gaussian_int. intros Hdev.
  by destruct (Z.leb_spec max_deviation 0) as [_|]; [|lia].
Qed.

(** X1. [_gaussian_int] with a deviation of at least one takes exactly one
    draw and returns an integer no further than [max_deviation] from
    [center]; with a deviation of zero or less it raises [ValueError]
    without drawing. *)
Theorem gaussian_int_window center max_deviation (w : World) :
  (1 <= max_deviation ->
   exists g,
     _gaussian_int center max_deviation w
     = Done g (set_rng_pos (S (rng_pos w)) w) /\
     center - max_deviation <= g <= center + max_deviation) /\
  (max_deviation <= 0 ->
   _gaussian_int center max_deviation w = Raised ValueError w).
Proof.
  split; intros Hdev.
  - by apply gaussian_int_run.
  - by apply gaussian_int_raises.
Qed.

Lemma gaussian_int_Done center max_deviation (w : World) g w' :
  _gaussian_int center max_deviation w = Done g w' ->
  w' = set_rng_pos (S (rng_pos w)) w /\
  center - max_deviation <= g <= center + max_deviation.
Proof.
  intros Hrun. destruct (Z.le_gt_cases max_deviation 0) as [Hle|Hgt].
  - by rewrite (gaussian_int_raises _ _ _ Hle) in Hrun.
  - destruct (gaussian_int_run center max_deviation w) as (g' & Hg' & Hwin); [lia|].
    rewrite Hg' in Hrun. by injection Hrun as <- <-.
Qed.

(** A loop whose passes each take one draw and write one value under the
    key at hand. *)
Lemma for_fold_insert_spec (body : Mute -> string * list V -> M Mute)
    (P : string * list V -> V -> Prop) :
  (forall res item w,
      ensures (body res item) w (fun res' w' =>
        w' = set_rng_pos (S (rng_pos w)) w /\
        exists v, res' = <[item.1 := v]> res /\ P item v)) ->
  forall l res w,
    ensures (for_fold body l res) w (fun res' w' =>
      w' = set_rng_pos (rng_pos w + length l) w /\
      (forall p, is_Some (res' !! p) <-> is_Some (res !! p) \/ p ∈ l.*1) /\
      (NoDup l.*1 ->
       (forall p r, (p, r) ∈ l -> exists v, res' !! p = Some v /\ P (p, r) v) /\
       (forall p, p ∉ l.*1 -> res' !! p = res !! p))).
Proof.
  intros Hbody. induction l as [|[p0 r0] l IH]; intros res w.
  - cbn. intros ? ? [= <- <-]. split.
    { rewrite Nat.add_0_r. by destruct w. }
    split; [intros p; rewrite elem_of_nil; tauto|].
    intros _. split; [by intros ? ? ?%elem_of_nil|done].
  - cbn. apply ensures_bind. intros res1 w1 H1.
    apply Hbody in H1 as (-> & v & -> & Hv). cbn in *.
    eapply ensures_weaken; [|by apply IH].
    cbn. intros res' w' (-> & Hdom & Hin). split.
    { rewrite set_rng_pos_twice. f_equal. lia. }
    split.
    + intros p. rewrite Hdom, elem_of_cons, lookup_insert_is_Some.
      destruct (decide (p0 = p)) as [->|Hne]; [tauto|].
      split; [intros [[?|[_ ?]]|?]|intros [?|[?|?]]]; try tauto; congruence.
    + intros [Hp0 Hnd]%NoDup_cons. destruct (Hin Hnd) as [Hin' Hout]. split.
      * intros p r [[= -> ->]|Hpr]%elem_of_cons; [|by apply Hin'].
        exists v. split; [|done]. rewrite Hout by done. apply lookup_insert_eq.
      * intros p [Hne Hp]%not_elem_of_cons. rewrite Hout by done.
        by apply lookup_insert_ne.
Qed.

Lemma py_nth_nonneg {A} (l : list A) i x :
  0 <= i -> py_nth l i = Some x -> l !! Z.to_nat i = Some x.
Proof.
  intros Hi. unfold py_nth. by destruct (Z.ltb_spec i 0) as [|_]; [lia|].
Qed.

Lemma step_body_spec parent max_step res item (w : World) :
  ensures (step_body parent max_step res item) w (fun res' w' =>
    w' = set_rng_pos (S (rng_pos w)) w /\
    exists v', res' = <[item.1 := v']> res /\
      exists v i j,
        parent !! item.1 = Some v /\ index v item.2 = Some i /\
        item.2 !! j = Some v' /\
        Z.abs (Z.of_nat j - Z.of_nat i) <= max_step).
Proof.
  unfold step_body.
  apply ensures_bind. intros v w1 [Hv ->]%getitem_Done.
  apply ensures_bind. intros i w1 [Hi ->]%getitem_Done.
  apply ensures_bind. intros g w1 [-> Hg]%gaussian_int_Done.
  apply ensures_bind. intros x w2 [Hx ->]%getitem_Done.
  intros res' w2 [= <- <-]. split; [done|].
  exists x. split; [done|].
  pose proof (lookup_lt_Some _ _ _ (index_lookup _ _ _ Hi)) as Hlt.
  apply py_nth_nonneg in Hx; [|lia].
  exists v, i, (Z.to_nat (Z.min (Z.of_nat (length item.2) - 1) (Z.max 0 g))).
  repeat (split; [done|]). lia.
Qed.

(** One pass of step mutation, fully accounted for. *)
Lemma step_once_spec parent max_step (w : World) :
  ensures (step_once parent max_step) w (fun res w' =>
    w' = set_rng_pos (rng_pos w + length (mutable_param_ranges w)) w /\
    (forall p, is_Some (res !! p) <-> p ∈ (mutable_param_ranges w).*1) /\
    (NoDup (mutable_param_ranges w).*1 ->
     within_step (mutable_param_ranges w) parent res max_step)).
Proof.
  intros res w'. rewrite step_once_unfold. revert res w'.
  eapply ensures_weaken;
    [|apply (for_fold_insert_spec _ (fun item v' =>
         exists v i j,
           parent !! item.1 = Some v /\ index v item.2 = Some i /\
           item.2 !! j = Some v' /\
           Z.abs (Z.of_nat j - Z.of_nat i) <= max_step)), step_body_spec].
  cbn. intros res w' (-> & Hdom & Hin). split; [done|]. split.
  - intros p. rewrite Hdom, lookup_empty, is_Some_alt. tauto.
  - intros Hnd p r Hpr. destruct (Hin Hnd) as [Hin' _].
    destruct (Hin' p r Hpr) as (v' & Hres & v & i & j & ? & ? & ? & ?).
    by exists v, i, v', j.
Qed.

(** What [_step_mutate] returns is the outcome of one of its passes: the
    pass number [k], counted from zero, which starts after [k] earlier passes
    have each taken one draw per parameter. *)
Lemma step_mutate_result fuel parent max_step (w : World) res w' :
  _step_mutate fuel parent max_step w = Done res w' ->
  exists k,
    (k < fuel)%nat /\
    step_once parent max_step
      (set_rng_pos (rng_pos w + k * length (mutable_param_ranges w)) w)
    = Done res w' /\
    res ∉ prev_used_params w.
Proof.
  revert w. induction fuel as [|fuel IH]; intros w Hrun; [done|].
  rewrite step_mutate_unfold in Hrun.
  destruct (step_once parent max_step w) as [res1 w1| |] eqn:Hone; [|done..].
  apply step_once_spec in Hone as Hw1. destruct Hw1 as (Hw1 & _).
  destruct (decide (res1 ∈ prev_used_params w1)) as [Hin|Hnew].
  - apply IH in Hrun as (k & Hk & Hpass & Hfresh). subst w1.
    exists (S k). split; [lia|]. split; [|done].
    rewrite <- Hpass. f_equal. cbn. rewrite set_rng_pos_twice. f_equal. lia.
  - injection Hrun as <- <-. exists 0%nat. split; [lia|]. split.
    + rewrite <- Hone. f_equal. cbn. rewrite Nat.add_0_r. by destruct w.
    + by subst w1.
Qed.

Lemma nth_pass_0 parent max_step (w : World) :
  nth_pass 0 parent max_step w = step_once parent max_step w.
Proof. unfold nth_pass. cbn. rewrite Nat.add_0_r. by destruct w. Qed.

Lemma nth_pass_S k parent max_step (w : World) :
  nth_pass (S k) parent max_step w
  = nth_pass k parent max_step
      (set_rng_pos (rng_pos w + length (mutable_param_ranges w)) w).
Proof. unfold nth_pass. cbn. rewrite set_rng_pos_twice. do 2 f_equal. lia. Qed.

(** The call returns the outcome of the first pass whose assignment is not
    in the history, and only that. *)
Lemma step_mutate_first_fresh fuel parent max_step (w : World) res w' :
  _step_mutate fuel parent max_step w = Done res w' <->
  exists k,
    (k < fuel)%nat /\
    nth_pass k parent max_step w = Done res w' /\
    (res ∉ prev_used_params w) /\
    passes_collide k parent max_step w.
Proof.
  revert w. induction fuel as [|fuel IH]; intros w.
  { split; [done|]. intros (k & Hk & _). lia. }
  rewrite step_mutate_unfold, <- nth_pass_0.
  destruct (nth_pass 0 parent max_step w) as [res1 w1| |] eqn:Hone.
  - rewrite nth_pass_0 in Hone. apply step_once_spec in Hone as Hw1.
    destruct Hw1 as (Hw1 & _). rewrite <- nth_pass_0 in Hone.
    assert (prev_used_params w1 = prev_used_params w) as Hprev by by subst w1.
    rewrite Hprev. destruct (decide (res1 ∈ prev_used_params w)) as [Hin|Hnew].
    + rewrite IH, Hprev. subst w1. split.
      * intros (k & Hk & Hpass & Hfresh & Hbefore). exists (S k).
        split; [lia|]. rewrite nth_pass_S. split; [done|]. split; [done|].
        intros [|j] Hj; [eexists _, _; split; [exact Hone|done]|].
        rewrite nth_pass_S. apply Hbefore. lia.
      * intros ([|k] & Hk & Hpass & Hfresh & Hbefore).
        { rewrite Hone in Hpass. by injection Hpass as <- _. }
        exists k. split; [lia|]. rewrite nth_pass_S in Hpass.
        split; [done|]. split; [done|].
        intros j Hj. rewrite <- nth_pass_S. apply Hbefore. lia.
    + split.
      * intros [= <- <-]. exists 0%nat. split; [lia|]. split; [done|].
        split; [done|]. intros j Hj. lia.
      * intros ([|k] & Hk & Hpass & Hfresh & Hbefore); [congruence|].
        destruct (Hbefore 0%nat) as (r & wj & Hr & Hin); [lia|]. congruence.
  - split; [done|]. intros ([|k] & Hk & Hpass & Hfresh & Hbefore); [congruence|].
    destruct (Hbefore 0%nat) as (r & wj & Hr & Hin); [lia|]. congruence.
  - split; [done|]. intros ([|k] & Hk & Hpass & Hfresh & Hbefore); [congruence|].
    destruct (Hbefore 0%nat) as (r & wj & Hr & Hin); [lia|]. congruence.
Qed.

(** While every pass collides, the call goes on calling itself. *)
Lemma step_mutate_all_collide fuel parent max_step (w : World) :
  passes_collide fuel parent max_step w ->
  _step_mutate fuel parent max_step w = Diverge.
Proof.
  revert w. induction fuel as [|fuel IH]; intros w Hall; [done|].
  rewrite step_mutate_unfold.
  destruct (Hall 0%nat) as (r & w1 & Hone & Hin); [lia|].
  rewrite nth_pass_0 in Hone. rewrite Hone.
  apply step_once_spec in Hone as (-> & _).
  change (prev_used_params (set_rng_pos _ w)) with (prev_used_params w).
  destruct (decide (r ∈ prev_used_params w)); [|done].
  apply IH. intros j Hj. rewrite <- nth_pass_S. apply Hall. lia.
Qed.

(** C8, as the code has it.  [_step_mutate] samples again after every
    collision and returns the first sample that the history does not hold:
    the assignment it returns is never a member of [prev_used_params], and
    the history is left untouched.  It returns only when some sample is new:
    while every sample collides the call goes on calling itself, however
    many assignments the history lacks. *)
Theorem step_mutate_never_repeats fuel parent max_step (w : World) :
  (forall res w',
      _step_mutate fuel parent max_step w = Done res w' <->
      exists k,
        (k < fuel)%nat /\
        nth_pass k parent max_step w = Done res w' /\
        (res ∉ prev_used_params w) /\
        passes_collide k parent max_step w) /\
  (forall res w',
      _step_mutate fuel parent max_step w = Done res w' ->
      (res ∉ prev_used_params w) /\ prev_used_params w' = prev_used_params w) /\
  (passes_collide fuel parent max_step w ->
   _step_mutate fuel parent max_step w = Diverge).
Proof.
  split; [|split].
  - intros res w'. apply step_mutate_first_fresh.
  - intros res w' Hrun. apply step_mutate_fresh in Hrun as [Hw Hnew].
    split; [done|]. by apply only_rng_prev.
  - apply step_mutate_all_collide.
Qed.

(** X2. Every value returned by [_step_mutate] lies, in its candidate list,
    at most [max_step] places away from the parent's value. *)
Theorem step_mutate_within_step fuel parent max_step (w : World) res w' :
  NoDup (mutable_param_ranges w).*1 ->
  _step_mutate fuel parent max_step w = Done res w' ->
  within_step (mutable_param_ranges w) parent res max_step.
Proof.
  intros Hnd (k & _ & Hpass & _)%step_mutate_result.
  apply step_once_spec in Hpass as (_ & _ & Hstep). by apply Hstep.
Qed.

(** X3. Both mutations return a dictionary whose keys are exactly the
    mutable parameters and change nothing in the world but the position of
    the generator: [_random_mutate] takes one draw per parameter, and
    [_step_mutate] takes one draw per parameter in each of its passes. *)
Theorem mutation_keys_and_draws (w : World) :
  (forall res w',
      _random_mutate w = Done res w' ->
      w' = set_rng_pos (rng_pos w + length (mutable_param_ranges w)) w /\
      forall p, is_Some (res !! p) <-> p ∈ (mutable_param_ranges w).*1) /\
  (forall fuel parent max_step res w',
      _step_mutate fuel parent max_step w = Done res w' ->
      (exists k, (1 <= k <= fuel)%nat /\
         w' = set_rng_pos (rng_pos w + k * length (mutable_param_ranges w)) w) /\
      forall p, is_Some (res !! p) <-> p ∈ (mutable_param_ranges w).*1).
Proof.
  split.
  - intros res w'. unfold _random_mutate. intros Hrun.
    apply bind_Done in Hrun as (ranges & w0 & [-> ->]%get_Done & Hrun).
    apply (for_fold_insert_spec _ (fun _ _ => True)) in Hrun
      as (-> & Hdom & _).
    + split; [done|]. intros p. rewrite Hdom, lookup_empty, is_Some_alt. tauto.
    + intros res0 item w1. apply ensures_bind.
      intros v w2 [-> _]%choice_Done res' w3 [= <- <-]. eauto.
  - intros fuel parent max_step res w' (k & Hk & Hpass & _)%step_mutate_result.
    apply step_once_spec in Hpass as (-> & Hdom & _). cbn in *. split; [|done].
    exists (S k). split; [lia|]. rewrite set_rng_pos_twice. f_equal. lia.
Qed.

(** A loop in which every pass returns or raises an exception of the kind
    [E], and some pass always raises one, raises one. *)
Lemma for_fold_raises {A B} (f : B -> A -> M B) (E : exn -> Prop) l :
  (forall acc x w, x ∈ l ->
     (exists acc' w', f acc x w = Done acc' w') \/
     (exists e w', f acc x w = Raised e w' /\ E e)) ->
  (exists x, x ∈ l /\
     forall acc w, exists e w', f acc x w = Raised e w' /\ E e) ->
  forall acc w, exists e w', for_fold f l acc w = Raised e w' /\ E e.
Proof.
  induction l as [|x l IH]; intros Hall (y & Hy & Hbad) acc w.
  - by apply elem_of_nil in Hy.
  - cbn. unfold bind.
    destruct (Hall acc x w) as [(acc' & w' & Hd)|(e & w' & -> & He)]; [by left| |].
    + rewrite Hd. apply elem_of_cons in Hy as [->|Hy].
      * destruct (Hbad acc w) as (e & w2 & Hr & _). congruence.
      * apply IH; [|by eauto]. intros ? ? ? Hin. apply Hall. by right.
    + by exists e, w'.
Qed.

Lemma index_None (v : V) l : v ∉ l -> index v l = None.
Proof.
  intros Hv. destruct (index v l) as [i|] eqn:Hi; [|done].
  destruct Hv. by eapply list_elem_of_lookup_2, index_lookup.
Qed.

(** X4. [_random_mutate] raises [ValueError] when some parameter has no
    candidate at all.  [_step_mutate] raises [KeyError] or [ValueError] when
    the parent lacks a mutable parameter or holds a value that is not among
    its candidates: such a parent is never mutated. *)
Theorem mutation_rejects_bad_input (w : World) :
  ((exists item, item ∈ mutable_param_ranges w /\ item.2 = []) ->
   exists w', _random_mutate w = Raised ValueError w') /\
  (forall fuel parent max_step,
      1 <= max_step ->
      (exists p r, (p, r) ∈ mutable_param_ranges w /\
         (parent !! p = None \/ exists v, parent !! p = Some v /\ v ∉ r)) ->
      exists e w',
        _step_mutate (S fuel) parent max_step w = Raised e w' /\
        (e = KeyError \/ e = ValueError)).
Proof.
  split.
  - intros (item & Hitem & Hnil).
    destruct (for_fold_raises
                (fun (res : Mute) (item : string * list V) =>
                   v <- choice (np_array item.2) ;; ret (<[item.1 := v]> res))
                (fun e => e = ValueError) (mutable_param_ranges w))
      with (acc := (∅ : Mute)) (w := w) as (e & w' & Hrun & ->).
    + intros acc x w0 _. destruct x.2 as [|x0 xs] eqn:Hx.
      * right. by exists ValueError, w0.
      * left. destruct (choice_run (np_array (x0 :: xs)) w0) as (v & Hv & _);
          [by intros ?%fmap_nil_inv|].
        eexists _, _. cbn beta. unfold bind. rewrite Hv. reflexivity.
    + exists item. split; [done|]. intros acc w0. exists ValueError, w0.
      cbn beta. unfold bind. by rewrite Hnil.
    + by exists w'.
  - intros fuel parent max_step Hstep (p & r & Hpr & Hbad).
    destruct (for_fold_raises (step_body parent max_step)
                (fun e => e = KeyError \/ e = ValueError) (mutable_param_ranges w))
      with (acc := (∅ : Mute)) (w := w) as (e & w' & Hrun & He).
    + intros acc [q s] w0 _.
      destruct (parent !! q) as [v|] eqn:Hq.
      * destruct (decide (v ∈ s)) as [Hin|Hout].
        -- left. destruct (step_body_yields parent max_step acc (q, s) w0 Hstep)
             as (acc' & w1 & Hrun & _); [by exists v|]. by exists acc', w1.
        -- right. exists ValueError, w0. split; [|by right].
           unfold step_body, bind. cbn. rewrite Hq. cbn.
           by rewrite (index_None v s Hout).
      * right. exists KeyError, w0. split; [|by left].
        unfold step_body, bind. cbn. by rewrite Hq.
    + exists (p, r). split; [done|]. intros acc w0.
      destruct Hbad as [Hnone|(v & Hv & Hout)].
      * exists KeyError, w0. split; [|by left].
        unfold step_body, bind. cbn. by rewrite Hnone.
      * exists ValueError, w0. split; [|by right].
        unfold step_body, bind. cbn. rewrite Hv. cbn.
        by rewrite (index_None v r Hout).
    + exists e, w'. split; [|done].
      rewrite step_mutate_unfold, step_once_unfold. by rewrite Hrun.
Qed.
End MutationMore.

Lemma gaussian_int_window_witness :
  (exists g,
     _gaussian_int 2 1 (sample_world [] 2040)
     = Done g (set_rng_pos 1 (sample_world [] 2040)) /\ 2 - 1 <= g <= 2 + 1) /\
  _gaussian_int 2 0 (sample_world [] 2040) = Raised ValueError (sample_world [] 2040).
Proof.
  destruct (gaussian_int_window 2 1 (sample_world [] 2040)) as [Hok _].
  destruct (gaussian_int_window 2 0 (sample_world [] 2040)) as [_ Hbad].
  split; [apply Hok; lia|apply Hbad; lia].
Defined.

Lemma step_mutate_within_step_witness :
  exists res w',
    _step_mutate 3 {["X" := 3]} 1 (sample_world [{["X" := 2]}] 2040) = Done res w' /\
    within_step sample_ranges {["X" := 3]} res 1.
Proof.
  assert (exists res w',
            _step_mutate 3 {["X" := 3]} 1 (sample_world [{["X" := 2]}] 2040)
            = Done res w') as (res & w' & Hrun).
  { eexists _, _. vm_compute. reflexivity. }
  exists res, w'. split; [exact Hrun|].
  apply (step_mutate_within_step 3 {["X" := 3]} 1
           (sample_world [{["X" := 2]}] 2040) res w'); [|exact Hrun].
  apply NoDup_singleton.
Defined.

Lemma mutation_keys_and_draws_witness :
  exists res w',
    _random_mutate (sample_world [] 2040) = Done res w' /\
    w' = set_rng_pos 1 (sample_world [] 2040) /\
    forall p, is_Some (res !! p) <-> p ∈ sample_ranges.*1.
Proof.
  assert (exists res w',
            _random_mutate (sample_world [] 2040) = Done res w')
    as (res & w' & Hrun).
  { eexists _, _. vm_compute. reflexivity. }
  exists res, w'. split; [exact Hrun|].
  destruct (mutation_keys_and_draws (sample_world [] 2040)) as [Hrandom _].
  exact (Hrandom res w' Hrun).
Defined.

Lemma mutation_rejects_bad_input_witness :
  exists e w',
    _step_mutate 1 {["X" := 7]} 1 (sample_world [] 2040) = Raised e w' /\
    (e = KeyError \/ e = ValueError).
Proof.
  destruct (mutation_rejects_bad_input (sample_world [] 2040)) as [_ Hstep].
  apply (Hstep 0%nat {["X" := 7]} 1); [lia|].
  exists "X", [1; 2; 3; 4; 5]. split; [apply list_elem_of_here|].
  right. exists 7. split; [reflexivity|].
  intros Hin. repeat (apply elem_of_cons in Hin as [Hin|Hin]; [discriminate Hin|]).
  by apply elem_of_nil in Hin.
Defined.

Lemma step_mutate_never_repeats_witness :
  exists res w',
    _step_mutate 3 {["X" := 3]} 1 (sample_world [{["X" := 2]}] 2040) = Done res w' /\
    (res ∉ prev_used_params (sample_world [{["X" := 2]}] 2040)) /\
    prev_used_params w' = prev_used_params (sample_world [{["X" := 2]}] 2040).
Proof.
  assert (exists res w',
            _step_mutate 3 {["X" := 3]} 1 (sample_world [{["X" := 2]}] 2040)
            = Done res w') as (res & w' & Hrun).
  { eexists _, _. vm_compute. reflexivity. }
  exists res, w'. split; [exact Hrun|].
  destruct (step_mutate_never_repeats 3 {["X" := 3]} 1
              (sample_world [{["X" := 2]}] 2040)) as (_ & Hfresh & _).
  exact (Hfresh res w' Hrun).
Defined.

(** Every pass from the parent 3 with [max_step = 1] builds 2, 3 or 4. *)
Lemma exhausted_world_collides n : passes_collide n {["X" := 3]} 1 exhausted_world.
Proof.
  intros j _. unfold nth_pass.
  set (wj := set_rng_pos _ exhausted_world).
  assert (values_in (mutable_param_ranges wj) ({["X" := 3]} : gmap string Z))
    as Hparent.
  { apply sample_values_in. do 2 apply list_elem_of_further. apply list_elem_of_here. }
  destruct (step_once_yields {["X" := 3]} 1 wj ltac:(lia) Hparent)
    as (r & w' & Hone & _).
  exists r, w'. split; [done|].
  apply step_once_spec in Hone as (_ & Hdom & Hstep).
  destruct (Hstep (NoDup_singleton _) "X" [1; 2; 3; 4; 5])
    as (v & i & v' & k & Hv & Hi & Hr & Hk & Hdist); [apply list_elem_of_here|].
  injection Hv as <-. injection Hi as <-.
  assert (r = {["X" := v']}) as ->.
  { apply map_eq. intros p. destruct (decide (p = "X")) as [->|Hp].
    - by rewrite Hr, lookup_singleton_eq.
    - rewrite lookup_singleton_ne by done.
      apply eq_None_not_Some. rewrite Hdom.
      by intros ->%list_elem_of_singleton. }
  destruct k as [|[|[|[|[|k]]]]]; cbn in Hk; try lia; try done;
    injection Hk as <-; cbn.
  - apply list_elem_of_here.
  - apply list_elem_of_further, list_elem_of_here.
  - do 2 apply list_elem_of_further. apply list_elem_of_here.
Qed.

(** With the parent and its two neighbours in the history, which then holds
    three of the five assignments, every sample collides: the call returns
    nothing, whatever depth it is allowed. *)
Lemma step_mutate_exhausted_neighbourhood :
  values_in (mutable_param_ranges exhausted_world) {["X" := 3]} /\
  (length (prev_used_params exhausted_world)
   < assignments_qty (mutable_param_ranges exhausted_world))%nat /\
  forall fuel, _step_mutate fuel {["X" := 3]} 1 exhausted_world = Diverge.
Proof.
  split; [|split].
  - apply sample_values_in. do 2 apply list_elem_of_further. apply list_elem_of_here.
  - vm_compute. lia.
  - intros fuel. apply step_mutate_all_collide, exhausted_world_collides.
Qed.


(** ** The tally file under resets and failures *)

Section TallyMore.
Context {V : Type} `{!EqDecision V} `{!NumpyArray V}.
Context {R O : Type}.
Local Abbreviation M := (M V R O).
Local Abbreviation World := (World V R O).
Local Abbreviation Mute := (gmap string V).

Lemma bind_Raised {A B} (c : M A) (k : A -> M B) (w : World) e w' :
  bind c k w = Raised e w' <->
  c w = Raised e w' \/ exists a w1, c w = Done a w1 /\ k a w1 = Raised e w'.
Proof.
  unfold bind. destruct (c w) as [a w1|e1 w1|]; split.
  - intros Hk. right. by exists a, w1.
  - intros [Heq|(a' & w2 & Heq & Hk)]; [discriminate Heq|].
    injection Heq as <- <-. exact Hk.
  - intros Heq. left. by injection Heq as -> ->.
  - intros [Heq|(a' & w2 & Heq & _)]; [by injection Heq as -> ->|discriminate Heq].
  - intros Heq. discriminate Heq.
  - intros [Heq|(a' & w2 & Heq & _)]; discriminate Heq.
Qed.

Lemma update_param_count_unfold vals (w : World) :
  _update_param_count vals w
  = bind (for_each (mutable_param_ranges w) (bump vals))
      (fun _ => cnt <- get param_cnt ;; modify (set_tally_file (FTable cnt)))
      (prepared_world w).
Proof.
  unfold _update_param_count, bind at 1. rewrite load_tally_run.
  unfold bind at 1, get. unfold bind at 1.
  assert (mutable_param_ranges (load_world w) = mutable_param_ranges w) as Hr.
  { unfold load_world. by destruct (tally_file w). }
  unfold prepared_world. rewrite Hr.
  unfold bind at 1. by destruct (reset_success (load_world w)).
Qed.

Lemma prepared_world_facts (w : World) :
  param_cnt (prepared_world w) = effective_table w /\
  mutable_param_ranges (prepared_world w) = mutable_param_ranges w /\
  tally_file (prepared_world w) = file_after_load (tally_file w) /\
  oracle (prepared_world w) = oracle w.
Proof.
  unfold prepared_world, effective_table, load_world, file_after_load.
  destruct w as [g gp ranges prev rets reset cnt file runs mdl saved orc].
  cbn. by destruct file, reset.
Qed.

(** One pass of the loop either bumps a counter or raises on the spot. *)
Lemma bump_cases vals item (w : World) :
  (exists t, bump vals item w = Done tt (set_param_cnt t w)) \/
  (exists e, bump vals item w = Raised e w /\
     (e = KeyError \/ e = ValueError \/ e = IndexError)).
Proof.
  unfold bump, bind, get, modify. cbn.
  destruct (param_cnt w !! item.1) as [row|]; cbn; [|right; eauto].
  destruct (vals !! item.1) as [v|]; cbn; [|right; eauto].
  destruct (index v item.2) as [i|]; cbn; [|right; eauto].
  destruct (row !! i) as [c|]; cbn; [|right; eauto 6].
  left. by eexists.
Qed.

Lemma bump_loop_raised vals l (w : World) e w' :
  for_each l (bump vals) w = Raised e w' ->
  (exists t, w' = set_param_cnt t w) /\
  (e = KeyError \/ e = ValueError \/ e = IndexError).
Proof.
  revert w. induction l as [|item l IH]; intros w; [done|].
  rewrite for_each_cons. unfold bind.
  destruct (bump_cases vals item w) as [[t ->]|(e1 & -> & He1)].
  - intros Hrun. apply IH in Hrun as [[t' ->] He]. split; [by exists t'|done].
  - intros [= <- <-]. split; [|done]. exists (param_cnt w). by destruct w.
Qed.

Lemma prepared_world_reset (w : World) :
  (reset_success w = true \/ (forall t, tally_file w <> FTable t) ->
   reset_success (prepared_world w) = false) /\
  (reset_success w = false -> reset_success (prepared_world w) = false).
Proof.
  unfold prepared_world, load_world.
  destruct w as [g gp ranges prev rets reset cnt file runs mdl saved orc].
  cbn. split.
  - intros [->|Hfile]; [by destruct file|].
    destruct file as [|text|t]; [done..|]. by destruct (Hfile t).
  - intros ->. by destruct file.
Qed.

(** X5. On a tally file that is blank, unreadable or an object of integer
    arrays, a call of [_update_param_count] that raises does so with a
    [KeyError], a [ValueError] or an [IndexError], from the loop over the
    parameters; the final dump is not reached, so that the file holds what
    the first [with] block left: a table as it was, the empty object in
    place of blank text, and unreadable text with ['{}'] appended.  The reset
    flag is off afterwards, whatever it was, and no simulation state is
    touched. *)
Theorem failed_accept_keeps_file vals (w : World) e w' :
  _update_param_count vals w = Raised e w' ->
  (e = KeyError \/ e = ValueError \/ e = IndexError) /\
  match tally_file w with
  | FEmpty => tally_file w' = FTable ∅
  | FCorrupt text => tally_file w' = FCorrupt (text +:+ "{}")
  | FTable t => tally_file w' = FTable t
  end /\
  reset_success w' = false /\
  oracle w' = oracle w.
Proof.
  rewrite update_param_count_unfold.
  destruct (prepared_world_facts w) as (_ & _ & Hfile & Horc).
  destruct (prepared_world_reset w) as [Hon Hoff].
  intros [Hloop|(u & w1 & _ & Htail)]%bind_Raised.
  - apply bump_loop_raised in Hloop as [[t ->] He]. cbn.
    split; [done|]. rewrite Hfile, Horc. split; [by destruct (tally_file w)|].
    split; [|done].
    destruct (reset_success w) eqn:Hreset; [apply Hon; by left|by apply Hoff].
  - unfold bind, get, modify in Htail. done.
Qed.

(** X6. When the reset flag is set, or the tally file is blank or
    unreadable, an accepted assignment leaves a fresh table in the file:
    for every mutable parameter a row of zeros with a single 1 at the index
    of the accepted value, and no row for any other name. *)
Theorem tally_reset_starts_from_zero vals (w : World) :
  NoDup (mutable_param_ranges w).*1 ->
  values_in (mutable_param_ranges w) vals ->
  reset_success w = true \/ tally_file w = FEmpty \/
    (exists text, tally_file w = FCorrupt text) ->
  exists t',
    _update_param_count vals w
    = Done tt (set_tally_file (FTable t')
                 (set_param_cnt t' (set_reset_success false w))) /\
    (forall p r, (p, r) ∈ mutable_param_ranges w ->
       exists v i,
         vals !! p = Some v /\ index v r = Some i /\
         t' !! p = Some (<[i := 1]> (replicate (length r) 0))) /\
    (forall p, p ∉ (mutable_param_ranges w).*1 -> t' !! p = None).
Proof.
  intros Hnd Hvals Hreset.
  assert (effective_table w = zero_table (mutable_param_ranges w)) as Hzero.
  { unfold effective_table.
    destruct Hreset as [->|[->|[text ->]]]; [done|by destruct (reset_success w)..]. }
  destruct (update_param_count_step vals w Hnd) as ([] & w' & Hrun & t' & -> & Hin & Hout);
    [rewrite Hzero; by apply zero_table_shaped|done|].
  exists t'. split; [done|]. rewrite Hzero in Hin, Hout. split.
  - intros p r Hpr.
    destruct (Hin p r Hpr) as (v & i & row & n & Hv & Hi & Hrow & Hn & Ht').
    rewrite (zero_table_lookup _ p r Hnd Hpr) in Hrow. injection Hrow as <-.
    apply lookup_replicate in Hn as [-> _]. by exists v, i.
  - intros p Hp. rewrite (Hout p Hp).
    destruct (zero_table_lookup_aux (mutable_param_ranges w) ∅ p Hnd) as [_ Hnone].
    unfold zero_table. rewrite Hnone by done. apply lookup_empty.
Qed.

Lemma bump_run vals p r row v i n (w : World) :
  param_cnt w !! p = Some row -> vals !! p = Some v ->
  index v r = Some i -> row !! i = Some n ->
  bump vals (p, r) w
  = Done tt (set_param_cnt (<[p := <[i := n + 1]> row]> (param_cnt w)) w).
Proof.
  intros Hrow Hv Hi Hn. unfold bump, bind, get, modify. cbn.
  rewrite Hrow. cbn. rewrite Hv. cbn. rewrite Hi. cbn. by rewrite Hn.
Qed.

Lemma bump_missing_row vals p r (w : World) :
  param_cnt w !! p = None -> bump vals (p, r) w = Raised KeyError w.
Proof. intros Hrow. unfold bump, bind, get. cbn. by rewrite Hrow. Qed.

Lemma bump_off_grid vals p r row v (w : World) :
  param_cnt w !! p = Some row -> vals !! p = Some v -> v ∉ r ->
  bump vals (p, r) w = Raised ValueError w.
Proof.
  intros Hrow Hv Hout. unfold bump, bind, get. cbn.
  rewrite Hrow. cbn. rewrite Hv. cbn. by rewrite (index_None v r Hout).
Qed.

Lemma bump_loop_missing vals (l : list (string * list V)) (w : World) :
  NoDup l.*1 ->
  values_in l vals ->
  (forall p r row, (p, r) ∈ l -> param_cnt w !! p = Some row ->
     length row = length r) ->
  (exists p r, (p, r) ∈ l /\ param_cnt w !! p = None) ->
  exists t, for_each l (bump vals) w = Raised KeyError (set_param_cnt t w).
Proof.
  revert w. induction l as [|[p0 r0] l IH]; intros w Hnd Hvals Hshape Hmiss.
  - destruct Hmiss as (p & r & []%elem_of_nil & _).
  - cbn in Hnd. apply NoDup_cons in Hnd as [Hp0 Hnd].
    rewrite for_each_cons. unfold bind.
    destruct (param_cnt w !! p0) as [row|] eqn:Hrow.
    + destruct (Hvals p0 r0) as (v & Hv & Hvin); [left|].
      destruct (index_elem_of v r0 Hvin) as [i Hi].
      assert (is_Some (row !! i)) as [n Hn].
      { apply lookup_lt_is_Some_2. rewrite (Hshape p0 r0 row); [|left|done].
        by eapply lookup_lt_Some, index_lookup. }
      rewrite (bump_run vals p0 r0 row v i n w); [|done..].
      assert (forall p r, (p, r) ∈ l -> p <> p0) as Hne.
      { intros p r Hpr ->. apply Hp0, list_elem_of_fmap. by exists (p0, r). }
      destruct (IH (set_param_cnt (<[p0 := <[i := n + 1]> row]> (param_cnt w)) w))
        as [t Hrun]; [done|..].
      * intros p r Hpr. apply Hvals. by right.
      * intros p r row' Hpr. cbn. rewrite lookup_insert_ne by (symmetry; eauto).
        apply Hshape. by right.
      * destruct Hmiss as (p & r & [[= -> ->]|Hpr]%elem_of_cons & Hnone);
          [congruence|].
        exists p, r. split; [done|]. cbn.
        by rewrite lookup_insert_ne by (symmetry; eauto).
      * exists t. by rewrite Hrun.
    + rewrite (bump_missing_row vals p0 r0 w Hrow).
      exists (param_cnt w). by destruct w.
Qed.

Lemma bump_loop_off_grid vals (l : list (string * list V)) (w : World) :
  NoDup l.*1 ->
  table_shaped l (param_cnt w) ->
  (forall p r, (p, r) ∈ l -> is_Some (vals !! p)) ->
  (exists p r v, (p, r) ∈ l /\ vals !! p = Some v /\ v ∉ r) ->
  exists t, for_each l (bump vals) w = Raised ValueError (set_param_cnt t w).
Proof.
  revert w. induction l as [|[p0 r0] l IH]; intros w Hnd Hshape Hvals Hbad.
  - destruct Hbad as (p & r & v & []%elem_of_nil & _).
  - cbn in Hnd. apply NoDup_cons in Hnd as [Hp0 Hnd].
    rewrite for_each_cons. unfold bind.
    destruct (Hshape p0 r0) as (row & Hrow & Hlen); [left|].
    destruct (Hvals p0 r0) as [v Hv]; [left|].
    destruct (decide (v ∈ r0)) as [Hvin|Hvout].
    + destruct (index_elem_of v r0 Hvin) as [i Hi].
      assert (is_Some (row !! i)) as [n Hn].
      { apply lookup_lt_is_Some_2. rewrite Hlen.
        by eapply lookup_lt_Some, index_lookup. }
      rewrite (bump_run vals p0 r0 row v i n w); [|done..].
      assert (forall p r, (p, r) ∈ l -> p <> p0) as Hne.
      { intros p r Hpr ->. apply Hp0, list_elem_of_fmap. by exists (p0, r). }
      destruct (IH (set_param_cnt (<[p0 := <[i := n + 1]> row]> (param_cnt w)) w))
        as [t Hrun]; [done|..].
      * intros p r Hpr. destruct (Hshape p r) as (row' & Hrow' & Hlen'); [by right|].
        exists row'. split; [|done]. cbn.
        by rewrite lookup_insert_ne by (symmetry; eauto).
      * intros p r Hpr. eapply Hvals. by right.
      * destruct Hbad as (p & r & v' & [[= -> ->]|Hpr]%elem_of_cons & Hv' & Hout).
        -- congruence.
        -- by exists p, r, v'.
      * exists t. by rewrite Hrun.
    + rewrite (bump_off_grid vals p0 r0 row v w); [|done..].
      exists (param_cnt w). by destruct w.
Qed.

(** X7. A readable tally file that lacks the row of a mutable parameter, as
    the empty object does, is not repaired when the reset flag is off: an
    accepted assignment raises [KeyError] and the file stays as it is. *)
Theorem stale_table_raises_key_error vals (w : World) t :
  NoDup (mutable_param_ranges w).*1 ->
  values_in (mutable_param_ranges w) vals ->
  tally_file w = FTable t ->
  reset_success w = false ->
  (forall p r row, (p, r) ∈ mutable_param_ranges w -> t !! p = Some row ->
     length row = length r) ->
  (exists p r, (p, r) ∈ mutable_param_ranges w /\ t !! p = None) ->
  exists w',
    _update_param_count vals w = Raised KeyError w' /\
    tally_file w' = FTable t.
Proof.
  intros Hnd Hvals Hfile Hreset Hshape Hmiss.
  destruct (prepared_world_facts w) as (Hcnt & _ & Htf & _).
  assert (effective_table w = t) as Heff.
  { unfold effective_table. by rewrite Hreset, Hfile. }
  rewrite Heff in Hcnt.
  destruct (bump_loop_missing vals (mutable_param_ranges w) (prepared_world w))
    as [t' Hrun]; [done|done|by rewrite Hcnt|by rewrite Hcnt|].
  eexists. rewrite update_param_count_unfold. unfold bind at 1. rewrite Hrun.
  split; [done|]. cbn. by rewrite Htf, Hfile.
Qed.

(** X8. An accepted value that is not among the candidates of its parameter
    makes [_update_param_count] raise [ValueError]; nothing is written to
    the tally file for that call. *)
Theorem off_grid_value_raises_value_error vals (w : World) :
  NoDup (mutable_param_ranges w).*1 ->
  table_shaped (mutable_param_ranges w) (effective_table w) ->
  (forall p r, (p, r) ∈ mutable_param_ranges w -> is_Some (vals !! p)) ->
  (exists p r v, (p, r) ∈ mutable_param_ranges w /\ vals !! p = Some v /\ v ∉ r) ->
  exists w',
    _update_param_count vals w = Raised ValueError w' /\
    tally_file w' = file_after_load (tally_file w) /\
    oracle w' = oracle w.
Proof.
  intros Hnd Hshape Hvals Hbad.
  destruct (prepared_world_facts w) as (Hcnt & _ & Htf & Horc).
  destruct (bump_loop_off_grid vals (mutable_param_ranges w) (prepared_world w))
    as [t' Hrun]; [done|by rewrite Hcnt|done|done|].
  eexists. rewrite update_param_count_unfold. unfold bind at 1. rewrite Hrun.
  split; [done|]. cbn. by rewrite Htf, Horc.
Qed.
End TallyMore.

Lemma sample_off_grid : (7 : Z) ∉ [1; 2; 3; 4; 5].
Proof.
  intros Hin. repeat (apply elem_of_cons in Hin as [Hin|Hin]; [discriminate Hin|]).
  by apply elem_of_nil in Hin.
Qed.

Lemma failed_accept_keeps_file_witness :
  exists e w',
    _update_param_count {["X" := 7]}
      (set_tally_file (FCorrupt "{") (sample_world [] 2040))
    = Raised e w' /\
    (e = KeyError \/ e = ValueError \/ e = IndexError) /\
    tally_file w' = FCorrupt "{{}" /\
    reset_success w' = false /\
    oracle w' = oracle (sample_world [] 2040).
Proof.
  assert (exists e w',
            _update_param_count {["X" := 7]}
              (set_tally_file (FCorrupt "{") (sample_world [] 2040))
            = Raised e w') as (e & w' & Hrun).
  { eexists _, _. vm_compute. reflexivity. }
  exists e, w'. split; [exact Hrun|].
  exact (failed_accept_keeps_file _ _ _ _ Hrun).
Defined.

Lemma tally_reset_starts_from_zero_witness :
  exists t',
    _update_param_count {["X" := 3]} (set_tally_file (FCorrupt "{") (sample_world [] 2040))
    = Done tt (set_tally_file (FTable t')
                 (set_param_cnt t'
                    (set_reset_success false
                       (set_tally_file (FCorrupt "{") (sample_world [] 2040))))) /\
    (forall p r, (p, r) ∈ sample_ranges ->
       exists v i,
         ({["X" := 3]} : gmap string Z) !! p = Some v /\ index v r = Some i /\
         t' !! p = Some (<[i := 1]> (replicate (length r) 0))) /\
    (forall p, p ∉ sample_ranges.*1 -> t' !! p = None).
Proof.
  apply (tally_reset_starts_from_zero {["X" := 3]}
           (set_tally_file (FCorrupt "{") (sample_world [] 2040))).
  - apply NoDup_singleton.
  - apply sample_values_in. do 2 apply list_elem_of_further. apply list_elem_of_here.
  - right. right. exists "{". reflexivity.
Defined.

Lemma stale_table_raises_key_error_witness :
  exists w',
    _update_param_count {["X" := 3]}
      (set_tally_file (FTable ∅) (sample_world [] 2040))
    = Raised KeyError w' /\
    tally_file w' = FTable ∅.
Proof.
  apply (stale_table_raises_key_error {["X" := 3]}
           (set_tally_file (FTable ∅) (sample_world [] 2040)) ∅).
  - apply NoDup_singleton.
  - apply sample_values_in. do 2 apply list_elem_of_further. apply list_elem_of_here.
  - reflexivity.
  - reflexivity.
  - intros p r row _ Hrow. rewrite lookup_empty in Hrow. discriminate Hrow.
  - exists "X", [1; 2; 3; 4; 5]. split; [apply list_elem_of_here|apply lookup_empty].
Defined.

Lemma off_grid_value_raises_value_error_witness :
  exists w',
    _update_param_count {["X" := 7]} (sample_world [] 2040) = Raised ValueError w' /\
    tally_file w' = file_after_load (tally_file (sample_world [] 2040)) /\
    oracle w' = oracle (sample_world [] 2040).
Proof.
  apply (off_grid_value_raises_value_error {["X" := 7]} (sample_world [] 2040)).
  - apply NoDup_singleton.
  - apply (zero_table_shaped sample_ranges). apply NoDup_singleton.
  - intros p r Hin. apply list_elem_of_singleton in Hin. injection Hin as -> ->.
    exists 7. reflexivity.
  - exists "X", [1; 2; 3; 4; 5], 7. split; [apply list_elem_of_here|].
    split; [reflexivity|apply sample_off_grid].
Defined.

(** ** One child *)

Section ChildMore.
Context {V : Type} `{!EqDecision V} `{!NumpyArray V}.
Context {R O : Type}.
Local Abbreviation M := (M V R O).
Local Abbreviation World := (World V R O).
Local Abbreviation Mute := (gmap string V).
Variable sim : Full V -> Z -> option R -> Z -> O -> option (Q * R) * O.

Lemma make_child_halves fuel full rate mutate parent max_step idx :
  _make_child sim fuel full rate mutate parent max_step idx
  = bind (choose_child fuel mutate parent max_step)
      (evaluate_child sim full rate idx).
Proof. reflexivity. Qed.

Lemma same_store_refl (w : World) : same_store w w.
Proof. by repeat split. Qed.

Lemma same_store_trans (w1 w2 w3 : World) :
  same_store w1 w2 -> same_store w2 w3 -> same_store w1 w3.
Proof.
  unfold same_store. intros (?&?&?&?&?&?&?) (?&?&?&?&?&?&?).
  repeat split; congruence.
Qed.

Lemma only_rng_same_store (w w' : World) : only_rng w w' -> same_store w w'.
Proof. intros [n ->]. by repeat split. Qed.

Lemma choose_child_step fuel parent max_step (w : World) :
  choose_child fuel "step" (Some parent) max_step w
  = match _step_mutate fuel parent max_step w with
    | Done child w1 =>
        Done child (set_prev_used_params (prev_used_params w1 ++ [child]) w1)
    | Raised e w1 => Raised e w1
    | Diverge => Diverge
    end.
Proof.
  unfold choose_child. case_decide; [|done]. unfold bind, getitem, ret, get, modify.
  by destruct (_step_mutate fuel parent max_step w).
Qed.

Lemma choose_child_random fuel parent max_step (w : World) :
  choose_child fuel "random" parent max_step w
  = match _random_mutate (set_prev_used_params [] w) with
    | Done child w1 =>
        Done child (set_prev_used_params (prev_used_params w1 ++ [child]) w1)
    | Raised e w1 => Raised e w1
    | Diverge => Diverge
    end.
Proof.
  unfold choose_child. repeat case_decide; try done;
    unfold bind, ret, get, modify;
    by destruct (_random_mutate (set_prev_used_params [] w)).
Qed.

Lemma choose_child_identical fuel parent max_step (w : World) :
  choose_child fuel "identical" (Some parent) max_step w = Done parent w.
Proof. unfold choose_child. by repeat case_decide. Qed.

(** The simulation of a chosen child, case by case. *)
Lemma evaluate_child_with full rate idx child (w : World) reuse :
  (if decide (idx = 0%nat) then Some None else Some <$> returns w) = Some reuse ->
  evaluate_child sim full rate idx child w
  = match sim (update full child) (monte_carlo_runs rate) reuse
            (MONTE_CARLO_RUNS w) (oracle w) with
    | (None, o') => Done (update full child, None) (set_oracle o' w)
    | (Some (s_rate, rets), o') =>
        Done (update full child, Some (s_rate, child))
             (set_returns (Some rets) (set_oracle o' w))
    end.
Proof.
  unfold evaluate_child, bind, getitem, ret, get, modify.
  case_decide.
  - intros [= <-]. cbn. by destruct (sim _ _ _ _ _) as [[[s rets]|] o].
  - destruct (returns w) as [r|]; [|done]. intros [= <-]. cbn.
    by destruct (sim _ _ _ _ _) as [[[s rets]|] o].
Qed.

Lemma evaluate_child_unset full rate idx child (w : World) :
  idx <> 0%nat -> returns w = None ->
  evaluate_child sim full rate idx child w = Raised AttributeError w.
Proof.
  intros Hidx Hret. unfold evaluate_child, bind, getitem, get.
  case_decide; [done|]. by rewrite Hret.
Qed.

Lemma evaluate_child_Done full rate idx child (w : World) full' res w' :
  evaluate_child sim full rate idx child w = Done (full', res) w' ->
  full' = update full child /\
  (res = None \/ exists r, res = Some (r, child)) /\
  prev_used_params w' = prev_used_params w /\
  rng_pos w' = rng_pos w /\
  same_store w w'.
Proof.
  destruct (if decide (idx = 0%nat) then Some None else Some <$> returns w)
    as [reuse|] eqn:Hreuse.
  - rewrite (evaluate_child_with _ _ _ _ _ reuse Hreuse).
    destruct (sim _ _ _ _ _) as [[[s rets]|] o]; intros [= <- <- <-];
      (split; [done|]); (split; [eauto|]); by repeat split.
  - case_decide; [done|]. destruct (returns w) eqn:Hret; [done|].
    by rewrite evaluate_child_unset.
Qed.

Lemma random_mutate_only_rng (w : World) res w' :
  _random_mutate w = Done res w' -> only_rng w w'.
Proof.
  unfold _random_mutate. intros Hrun.
  apply bind_Done in Hrun as (ranges & w0 & [-> ->]%get_Done & Hrun).
  apply (for_fold_insert_spec _ (fun _ _ => True)) in Hrun as (-> & _).
  - by eexists.
  - intros res0 item w1. apply ensures_bind.
    intros v w2 [-> _]%choice_Done res' w3 [= <- <-]. eauto.
Qed.

Lemma make_child_step_Done fuel full rate parent max_step idx (w : World)
    full' res w' :
  _make_child sim fuel full rate "step" (Some parent) max_step idx w
  = Done (full', res) w' ->
  exists child w1,
    _step_mutate fuel parent max_step w = Done child w1 /\
    (child ∉ prev_used_params w) /\
    prev_used_params w' = prev_used_params w ++ [child] /\
    full' = update full child /\
    (res = None \/ exists r, res = Some (r, child)) /\
    same_store w w'.
Proof.
  rewrite make_child_halves.
  intros (c & w2 & Hchoose & Heval)%bind_Done.
  rewrite choose_child_step in Hchoose.
  destruct (_step_mutate fuel parent max_step w) as [child w1| |] eqn:Hstep;
    [|done..].
  injection Hchoose as <- <-.
  apply step_mutate_fresh in Hstep as Hfresh. destruct Hfresh as [Hrng Hnew].
  apply evaluate_child_Done in Heval as (-> & Hres & Hprev & _ & Hstore).
  exists child, w1. repeat (split; [done|]). split.
  - rewrite Hprev. cbn. by rewrite (only_rng_prev _ _ Hrng).
  - split; [done|]. split; [done|].
    eapply same_store_trans; [|exact Hstore].
    destruct Hrng as [n ->]. by repeat split.
Qed.

Lemma make_child_random_Done fuel full rate parent max_step idx (w : World)
    full' res w' :
  _make_child sim fuel full rate "random" parent max_step idx w
  = Done (full', res) w' ->
  exists child,
    prev_used_params w' = [child] /\
    full' = update full child /\
    (res = None \/ exists r, res = Some (r, child)) /\
    same_store w w'.
Proof.
  rewrite make_child_halves.
  intros (c & w2 & Hchoose & Heval)%bind_Done.
  rewrite choose_child_random in Hchoose.
  destruct (_random_mutate (set_prev_used_params [] w)) as [child w1| |] eqn:Hrand;
    [|done..].
  injection Hchoose as <- <-.
  apply random_mutate_only_rng in Hrand as [n ->].
  apply evaluate_child_Done in Heval as (-> & Hres & Hprev & _ & Hstore).
  exists child. split; [by rewrite Hprev|]. split; [done|]. split; [done|].
  eapply same_store_trans; [|exact Hstore]. by repeat split.
Qed.

(** X9. The first child of a generation ([idx = 0]) is simulated with fresh
    draws; a later child is simulated with the draws kept from the latest
    completed simulation, and raises [AttributeError] when none was kept.
    A completed simulation replaces the kept draws, a cancelled one leaves
    them as they were. *)
Theorem later_children_reuse_draws fuel full rate mutate parent max_step idx
    (w : World) child w1 :
  choose_child fuel mutate parent max_step w = Done child w1 ->
  let run := fun reuse =>
    match sim (update full child) (monte_carlo_runs rate) reuse
            (MONTE_CARLO_RUNS w1) (oracle w1) with
    | (None, o') => Done (update full child, None) (set_oracle o' w1)
    | (Some (s_rate, rets), o') =>
        Done (update full child, Some (s_rate, child))
             (set_returns (Some rets) (set_oracle o' w1))
    end in
  (idx = 0%nat ->
   _make_child sim fuel full rate mutate parent max_step idx w = run None) /\
  (idx <> 0%nat -> forall r, returns w1 = Some r ->
   _make_child sim fuel full rate mutate parent max_step idx w = run (Some r)) /\
  (idx <> 0%nat -> returns w1 = None ->
   _make_child sim fuel full rate mutate parent max_step idx w
   = Raised AttributeError w1).
Proof.
  intros Hchoose run. rewrite make_child_halves. unfold bind. rewrite Hchoose.
  split; [|split].
  - intros ->. by apply evaluate_child_with.
  - intros Hidx r Hret. apply evaluate_child_with.
    case_decide; [done|]. by rewrite Hret.
  - intros Hidx Hret. by apply evaluate_child_unset.
Qed.

(** X10. What [_make_child] does to the history, strategy by strategy.  A
    step child is an assignment that was not in the history and is appended
    to it, so a history without repeats stays without repeats; a random
    child replaces the whole history; the re-evaluation of the parent leaves
    the history and the generator alone.  This holds for cancelled runs
    too, and in every case the tally, the model and the parameter file are
    untouched. *)
Theorem child_history_discipline fuel full rate parent max_step idx (w : World)
    full' res w' :
  (_make_child sim fuel full rate "step" (Some parent) max_step idx w
   = Done (full', res) w' ->
   exists child,
     (child ∉ prev_used_params w) /\
     prev_used_params w' = prev_used_params w ++ [child] /\
     (NoDup (prev_used_params w) -> NoDup (prev_used_params w')) /\
     full' = update full child /\
     (res = None \/ exists r, res = Some (r, child)) /\
     same_store w w') /\
  (_make_child sim fuel full rate "random" None max_step idx w
   = Done (full', res) w' ->
   exists child,
     prev_used_params w' = [child] /\
     full' = update full child /\
     (res = None \/ exists r, res = Some (r, child)) /\
     same_store w w') /\
  (_make_child sim fuel full rate "identical" (Some parent) max_step idx w
   = Done (full', res) w' ->
   prev_used_params w' = prev_used_params w /\
   rng_pos w' = rng_pos w /\
   full' = update full parent /\
   (res = None \/ exists r, res = Some (r, parent)) /\
   same_store w w').
Proof.
  split; [|split].
  - intros (child & w1 & _ & Hnew & Hprev & Hfull & Hres & Hstore)%make_child_step_Done.
    exists child. repeat (split; [done|]). split; [|done].
    intros Hnd. rewrite Hprev. apply NoDup_app. split; [done|]. split.
    + intros x Hx ->%list_elem_of_singleton. done.
    + apply NoDup_singleton.
  - apply make_child_random_Done.
  - rewrite make_child_halves. unfold bind. rewrite choose_child_identical.
    intros (-> & Hres & Hprev & Hrng & Hstore)%evaluate_child_Done. done.
Qed.

(** X11. A strategy name other than ['step'], ['random'] and ['identical']
    makes [_make_child] raise before anything is mutated, stored or
    simulated. *)
Theorem unknown_mutation_is_fatal fuel full rate mutate parent max_step idx
    (w : World) :
  mutate <> "step" -> mutate <> "random" -> mutate <> "identical" ->
  _make_child sim fuel full rate mutate parent max_step idx w
  = Raised NoValidMutation w.
Proof.
  intros H1 H2 H3. rewrite make_child_halves. unfold bind, choose_child.
  by repeat case_decide.
Qed.

Lemma is_falsy_Some_false r : is_falsy (Some r) = false -> ~ (r == 0)%Q.
Proof. cbn. intros Hz Heq%Qeq_bool_iff. congruence. Qed.

Lemma make_children_spec fuel idxs (l : Locals) acc (w : World) l' children w' :
  make_children sim fuel idxs l acc w = Done (l', Some children) w' ->
  exists new,
    children = acc ++ new /\
    length new = length idxs /\
    prev_used_params w' = prev_used_params w ++ new.*2 /\
    (forall c, c ∈ new -> (c.2 ∉ prev_used_params w) /\ ~ (c.1 == 0)%Q) /\
    NoDup new.*2 /\
    same_store w w'.
Proof.
  revert l acc w. induction idxs as [|idx idxs IH]; intros l acc w; cbn.
  - intros [[= <- <-] <-]%ret_Done. exists []. rewrite !app_nil_r.
    repeat (split; [done|]). split; [by intros ? ?%elem_of_nil|].
    split; [apply NoDup_nil_2|apply same_store_refl].
  - intros ([full1 res] & w1 & Hchild & Hrest)%bind_Done. cbn in Hrest.
    destruct (is_falsy (fst <$> res)) eqn:Hfalsy;
      [by apply ret_Done in Hrest as [[=] _]|].
    apply bind_Done in Hrest as ([r m] & w2 & [Hres ->]%getitem_Done & Hrest).
    subst res. cbn in Hfalsy.
    apply make_child_step_Done in Hchild
      as (child & w0 & _ & Hnew & Hprev & _ & Hsame & Hstore).
    destruct Hsame as [[=]|(r' & [= -> ->])].
    apply IH in Hrest as (new & -> & Hlen & Hprev' & Hall & Hnd & Hstore').
    exists ((r', child) :: new). split; [by rewrite <- app_assoc|].
    split; [cbn; by rewrite Hlen|]. split.
    { rewrite Hprev', Hprev. cbn. by rewrite <- app_assoc. }
    split; [|split].
    + intros c [->|Hc]%elem_of_cons.
      * split; [done|]. by apply is_falsy_Some_false.
      * destruct (Hall c Hc) as [Hout Hnz]. split; [|done].
        intros Hin. apply Hout. rewrite Hprev. apply elem_of_app. by left.
    + cbn. apply NoDup_cons. split; [|done].
      intros (c & Heq & Hc)%list_elem_of_fmap.
      destruct (Hall c Hc) as [Hout _]. apply Hout. rewrite Hprev, <- Heq.
      apply elem_of_app. right. apply list_elem_of_here.
    + by eapply same_store_trans.
Qed.

Lemma make_children_store fuel idxs (l : Locals) acc (w : World) r w' :
  make_children sim fuel idxs l acc w = Done r w' -> same_store w w'.
Proof.
  revert l acc w. induction idxs as [|idx idxs IH]; intros l acc w; cbn.
  - intros [_ ->]%ret_Done. apply same_store_refl.
  - intros ([full1 res] & w1 & Hchild & Hrest)%bind_Done. cbn in Hrest.
    apply make_child_step_Done in Hchild as (child & w0 & _ & _ & _ & _ & _ & Hstore).
    destruct (is_falsy (fst <$> res)).
    + by apply ret_Done in Hrest as [_ ->].
    + apply bind_Done in Hrest as (c & w2 & [_ ->]%getitem_Done & Hrest).
      eapply same_store_trans; [done|]. by eapply IH.
Qed.

(** X12. The children that one generation evaluates are pairwise distinct
    assignments, none of which was in the history before; they are appended
    to the history in the order of evaluation, each has a non-zero rate, and
    evaluating them writes nothing to the tally, to the model or to the
    parameter file. *)
Theorem children_are_distinct fuel idxs (l : Locals) (w : World) l' children w' :
  make_children sim fuel idxs l [] w = Done (l', Some children) w' ->
  length children = length idxs /\
  NoDup children.*2 /\
  (forall c, c ∈ children -> (c.2 ∉ prev_used_params w) /\ ~ (c.1 == 0)%Q) /\
  prev_used_params w' = prev_used_params w ++ children.*2 /\
  same_store w w'.
Proof.
  intros (new & -> & Hlen & Hprev & Hall & Hnd & Hstore)%make_children_spec.
  done.
Qed.

Lemma random_restart_skip cancelled fuel (l : Locals) (w : World) :
  Qltb (success_rate l) SUCCESS_THRESH = false ->
  random_restart sim cancelled fuel l w = Done (l, false) w.
Proof. intros Hge. destruct fuel; cbn; by rewrite Hge. Qed.

(** X13. When the random-restart loop is entered and ends without the
    cancellation test firing, the rate it leaves is at least
    [SUCCESS_THRESH], the history holds exactly the assignment it accepted
    as the new parent, the plateau counter is as before, and the tally, the
    model and the parameter file are untouched. *)
Theorem random_restart_reaches_threshold cancelled fuel (l : Locals) (w : World)
    l' w' :
  Qltb (success_rate l) SUCCESS_THRESH = true ->
  random_restart sim cancelled fuel l w = Done (l', false) w' ->
  (SUCCESS_THRESH <= success_rate l')%Q /\
  prev_used_params w' = [parent_mute_param_vals l'] /\
  parent_is_best_qty l' = parent_is_best_qty l /\
  same_store w w'.
Proof.
  revert l w. induction fuel as [|fuel IH]; intros l w Hlow; cbn; rewrite Hlow;
    [done|].
  intros ([full1 res] & w1 & Hchild & Hrest)%bind_Done. cbn in Hrest.
  destruct (cancelled (fst <$> res)); [by apply ret_Done in Hrest as [[=] _]|].
  apply bind_Done in Hrest as ([r m] & w2 & [Hres ->]%getitem_Done & Hrest).
  subst res.
  apply make_child_random_Done in Hchild as (child & Hprev & _ & Hsame & Hstore).
  destruct Hsame as [[=]|(r' & [= -> ->])]. cbn in Hrest.
  destruct (Qltb r' SUCCESS_THRESH) eqn:Hr'.
  - apply IH in Hrest as (Hge & Hprev' & Hqty & Hstore'); [|done].
    repeat (split; [done|]). by eapply same_store_trans.
  - rewrite random_restart_skip in Hrest by done. injection Hrest as <- <-.
    split; [|done]. cbn. apply Qnot_lt_le. intros Hlt%Qltb_lt. congruence.
Qed.

(** X14. Sorting the children keeps all of them, puts them in order of
    decreasing rate, and puts first the earliest child among those with the
    best rate: every child evaluated before it has a strictly lower rate. *)
Theorem sort_desc_first_best (children : list (Q * Mute)) :
  sort_desc children ≡ₚ children /\
  StronglySorted (fun a b : Q * Mute => (b.1 <= a.1)%Q) (sort_desc children) /\
  forall best, head (sort_desc children) = Some best ->
    exists before after,
      children = before ++ best :: after /\
      (forall c, c ∈ before -> (c.1 < best.1)%Q) /\
      (forall c, c ∈ after -> (c.1 <= best.1)%Q).
Proof.
  unfold sort_desc.
  assert (forall (c : Q * Mute) sorted, insert_desc c sorted ≡ₚ c :: sorted) as Hperm.
  { intros c sorted. induction sorted as [|d sorted IH]; cbn; [done|].
    destruct (Qgtb _ _); [done|]. rewrite IH. apply Permutation_swap. }
  assert (forall (c : Q * Mute) sorted,
            StronglySorted (fun a b : Q * Mute => (b.1 <= a.1)%Q) sorted ->
            StronglySorted (fun a b : Q * Mute => (b.1 <= a.1)%Q)
              (insert_desc c sorted)) as Hsorted.
  { intros c sorted. induction sorted as [|d sorted IH]; cbn; intros Hs.
    - repeat constructor.
    - apply StronglySorted_inv in Hs as [Hs Hd].
      destruct (Qgtb c.1 d.1) eqn:Hgt.
      + apply Qgtb_lt, Qlt_le_weak in Hgt.
        constructor; [by constructor|]. constructor; [done|].
        eapply Forall_impl; [exact Hd|]. cbn. intros x Hx. by eapply Qle_trans.
      + constructor; [by apply IH|].
        apply Forall_forall. intros x Hx. rewrite Hperm in Hx.
        apply elem_of_cons in Hx as [->|Hx].
        * apply Qnot_lt_le. intros Hlt%Qgtb_lt. congruence.
        * rewrite Forall_forall in Hd. by apply Hd. }
  assert (forall l : list (Q * Mute),
            foldl (fun sorted c => insert_desc c sorted) [] l ≡ₚ l) as Hall.
  { induction l as [|c l IH] using rev_ind; [done|].
    by rewrite foldl_snoc, Hperm, IH, Permutation_cons_append. }
  split; [|split].
  - apply Hall.
  - induction children as [|c children IH] using rev_ind; [constructor|].
    rewrite foldl_snoc. by apply Hsorted.
  - induction children as [|c children IH] using rev_ind; [done|].
    rewrite foldl_snoc. intros best.
    destruct (foldl (fun sorted c0 => insert_desc c0 sorted) [] children)
      as [|d sorted] eqn:Hfold; cbn.
    + intros [= <-].
      assert (children = []) as ->.
      { symmetry. apply Permutation_nil_l. rewrite <- Hfold. apply Hall. }
      exists [], []. split; [done|]. split; by intros ? ?%elem_of_nil.
    + destruct (IH d eq_refl) as (before & after & -> & Hbefore & Hafter).
      destruct (Qgtb c.1 d.1) eqn:Hgt; cbn; intros [= <-].
      * apply Qgtb_lt in Hgt. exists (before ++ d :: after), [].
        split; [done|]. split; [|by intros ? ?%elem_of_nil].
        intros x [Hx|[->|Hx]%elem_of_cons]%elem_of_app; [|done|].
        -- eapply Qlt_trans; [by apply Hbefore|done].
        -- eapply Qle_lt_trans; [by apply Hafter|done].
      * exists before, (after ++ [c]). split; [by rewrite <- app_assoc|].
        split; [done|].
        intros x [Hx|Hx%list_elem_of_singleton]%elem_of_app; [by apply Hafter|].
        subst x. apply Qnot_lt_le. intros Hlt%Qgtb_lt. congruence.
Qed.
End ChildMore.

(** ** The loop around the children *)

Section LoopMore.
Context {V : Type} `{!EqDecision V} `{!NumpyArray V}.
Context {R O : Type}.
Local Abbreviation M := (M V R O).
Local Abbreviation World := (World V R O).
Local Abbreviation Mute := (gmap string V).
Variable sim : Full V -> Z -> option R -> Z -> O -> option (Q * R) * O.
Variable save : Mute -> bool -> Model V * Full V -> Model V * Full V.

(** When nothing of its own ends later than the persisted jobs, the check
    returns at once. *)
Lemma check_if_beaten_quiet (restart : M unit) (full : Full V) (w : World) :
  covers (persisted w) full ->
  ~ own_is_later full (persisted w) ->
  _check_if_beaten restart full w = Done tt w.
Proof.
  intros Hcov Hnot. rewrite check_if_beaten_unfold.
  apply for_each_quiet. intros usr Husr.
  destruct (jobs_of_monitored usr full Husr) as [jobs Hjobs].
  unfold bind. rewrite Hjobs. cbn.
  apply for_each_quiet. intros [i inc] Hitem.
  apply elem_of_lookup_imap in Hitem as (i' & inc' & [= <- <-] & Hinc).
  assert (job_entry usr i full = Some inc) as Hown.
  { unfold job_entry. by rewrite Hjobs. }
  destruct (Hcov usr i Husr) as [sinc Hsinc]; [by eexists|].
  apply (check_entry_not_later _ _ _ _ sinc); [done|].
  apply Qnot_lt_le. intros Hlt. apply Hnot. by exists usr, i, inc, sinc.
Qed.

(** X15. When the persisted baseline has fewer user jobs than the loop's
    own assignment, and no own job checked before the missing one ends later
    than its counterpart, [_check_if_beaten] raises [IndexError] and starts
    no new search. *)
Theorem missing_saved_job_raises_index_error (restart : M unit) (full : Full V)
    (w : World) i inc :
  user_jobs full !! i = Some inc ->
  user_jobs (persisted w) !! i = None ->
  (forall j incj, (j < i)%nat -> user_jobs full !! j = Some incj ->
     exists sinc, user_jobs (persisted w) !! j = Some sinc /\
                  (last_date incj <= last_date sinc)%Q) ->
  _check_if_beaten restart full w = Raised IndexError w.
Proof.
  intros Hown Hnone Hbefore. rewrite check_if_beaten_unfold.
  rewrite for_each_cons. unfold bind at 1.
  assert ((jobs <- getitem KeyError (jobs_of ("user" +:+ "_jobs") full) ;;
           for_each (enumerate jobs) (check_entry restart "user")) w
          = Raised IndexError w) as ->; [|done].
  unfold bind. cbn.
  apply (for_each_first_raise _ _ _ i (i, inc)).
  - unfold enumerate. by rewrite list_lookup_imap, Hown.
  - intros j [j' incj] Hj Hlook. unfold enumerate in Hlook.
    rewrite list_lookup_imap in Hlook.
    destruct (user_jobs full !! j) as [x|] eqn:Hx; [|done].
    injection Hlook as <- <-.
    destruct (Hbefore j x Hj Hx) as (sinc & Hs & Hle).
    by apply (check_entry_not_later _ _ _ _ sinc).
  - by apply (check_entry_missing _ _ _ _ _ (user_jobs (persisted w))).
Qed.

(** X16. A generation whose children loop ends in [return None] has written
    nothing to the tally, to the model or to the parameter file, and [main]
    returns with the world that loop left. *)
Theorem cut_short_generation_writes_nothing fuel restart advancing (l : Locals)
    (w : World) l1 w1 :
  covers (persisted w) (full_param_vals l) ->
  ~ own_is_later (full_param_vals l) (persisted w) ->
  make_children sim fuel (seq 0 OFFSPRING_QTY) l [] w = Done (l1, None) w1 ->
  generation sim save fuel restart advancing l w = Done (Return l1) w1 /\
  while_true 1 (generation sim save fuel restart advancing) l w
  = Done (arg_content l1) w1 /\
  same_store w w1.
Proof.
  intros Hcov Hnot Hkids.
  assert (generation sim save fuel restart advancing l w = Done (Return l1) w1)
    as Hgen.
  { unfold generation. unfold bind at 1.
    rewrite check_if_beaten_quiet by done. unfold bind at 1. by rewrite Hkids. }
  split; [done|]. split.
  - cbn. unfold bind. by rewrite Hgen.
  - by eapply make_children_store.
Qed.

Local Arguments _check_if_beaten : simpl never.

(** X17. When the re-evaluation confirms the parent (a non-zero rate of at
    least [TARGET_SUCCESS_RATE]) and no other instance is ahead, the saved
    budget is put back, the parent is handed to [save_from_genetic] together
    with the advancing flag, and only then [main] is called again, on the
    values of the model as saved. *)
Theorem confirmed_parent_is_saved_before_restart fuel restart advancing
    (l : Locals) (w : World) r' rets o' :
  let full1 := update (full_param_vals l) (parent_mute_param_vals l) in
  let w1 := set_MONTE_CARLO_RUNS (MONTE_CARLO_RUNS w)
              (set_returns (Some rets)
                 (set_oracle o' (set_MONTE_CARLO_RUNS MAX_MONTE_RUNS w))) in
  let w2 := set_model_persisted
              (save (parent_mute_param_vals l) advancing (model w, persisted w))
              w1 in
  sim full1 (monte_carlo_runs (success_rate l)) None MAX_MONTE_RUNS (oracle w)
  = (Some (r', rets), o') ->
  ~ (r' == 0)%Q ->
  (TARGET_SUCCESS_RATE <= r')%Q ->
  covers (persisted w) full1 ->
  ~ own_is_later full1 (persisted w) ->
  confirm sim save fuel restart advancing l w
  = bind (restart (Some (param_vals (model w2))))
      (fun shared =>
         ret (Continue
                (with_full (default (param_vals (model w2)) shared)
                   (rebind_full (param_vals (model w2))
                      (with_full (update full1 (parent_mute_param_vals l))
                         (with_rate r' (with_full full1 l)))))))
      w2 /\
  MONTE_CARLO_RUNS w2 = MONTE_CARLO_RUNS w /\
  (model w2, persisted w2)
  = save (parent_mute_param_vals l) advancing (model w, persisted w).
Proof.
  intros full1 w1 w2 Hsim Hnz Hge Hcov Hnot. split; [|split].
  - unfold confirm. unfold bind at 1, get. unfold bind at 1, modify.
    unfold bind at 1. rewrite make_child_identical. cbn. fold full1.
    rewrite Hsim. cbn.
    destruct (Qeq_bool r' 0) eqn:Hz; [by apply Qeq_bool_iff in Hz|].
    unfold bind at 1, getitem, ret. unfold bind at 1. cbn.
    assert (Qltb r' TARGET_SUCCESS_RATE = false) as ->.
    { apply not_true_is_false. intros Hlt%Qltb_lt. by apply Qlt_not_le in Hlt. }
    unfold bind at 1.
    rewrite (check_if_beaten_quiet _ full1 w1) by done.
    reflexivity.
  - reflexivity.
  - subst w2. cbn. by destruct (save _ _ _).
Qed.

(** X18. [main] tallies the seed before it simulates anything, so a model
    whose current value of some mutable parameter is not among the
    candidates makes the first call of [main] raise [ValueError] without one
    simulation. *)
Theorem main_rejects_off_grid_start fuel (w : World) t :
  NoDup (param_ranges (model w)).*1 ->
  tally_file w = FTable t ->
  table_shaped (param_ranges (model w)) t ->
  (forall p r, (p, r) ∈ param_ranges (model w) ->
     is_Some (scalars (param_vals (model w)) !! p)) ->
  (exists p r v, (p, r) ∈ param_ranges (model w) /\
     scalars (param_vals (model w)) !! p = Some v /\ v ∉ r) ->
  exists w', main sim save (S fuel) None w = Raised ValueError w' /\
             oracle w' = oracle w.
Proof.
  intros Hnd Hfile Hshape Hvals Hbad.
  set (ranges := param_ranges (model w)) in *.
  set (parent := filter (fun kv : string * V => kv.1 ∈ ranges.*1)
                   (scalars (param_vals (model w))) : Mute).
  set (w0 := set_prev_used_params [] (set_mutable_param_ranges ranges w)).
  assert (forall p r, (p, r) ∈ ranges ->
            parent !! p = scalars (param_vals (model w)) !! p) as Hparent.
  { intros p r Hpr. subst parent. apply option_eq. intros v.
    rewrite map_lookup_filter_Some. cbn. split; [by intros [? _]|].
    intros Hv. split; [done|]. apply list_elem_of_fmap. by exists (p, r). }
  destruct (prepared_world_facts w0) as (Hcnt & Hr & Htf & Horc).
  destruct (bump_loop_off_grid parent ranges (prepared_world w0)) as [t' Hrun].
  - done.
  - rewrite Hcnt. unfold effective_table. cbn. rewrite Hfile.
    destruct (reset_success w); [by apply zero_table_shaped|done].
  - intros p r Hpr. rewrite (Hparent p r Hpr). by eapply Hvals.
  - destruct Hbad as (p & r & v & Hpr & Hv & Hout). exists p, r, v.
    by rewrite (Hparent p r Hpr).
  - exists (set_param_cnt t' (prepared_world w0)).
    split; [|cbn; by rewrite Horc].
    cbn [main]. unfold bind at 1.
    assert (first_parameter_set sim fuel None w
            = Done ({| full_param_vals := param_vals (model w);
                       success_rate := 0; parent_is_best_qty := 0;
                       parent_mute_param_vals := parent;
                       arg_alias := false; arg_frozen := None |}, false) w0)
      as -> by reflexivity.
    cbn. unfold bind at 1. rewrite update_param_count_unfold.
    unfold bind at 1. change (mutable_param_ranges w0) with ranges.
    by rewrite Hrun.
Qed.
End LoopMore.

(** ** The budget as a function of the rate *)

Lemma Qpower_positive_le_compat (a b : Q) (p : positive) :
  (0 <= a)%Q -> (a <= b)%Q -> (Qpower_positive a p <= Qpower_positive b p)%Q.
Proof.
  intros Ha Hab. induction p as [|p IH] using Pos.peano_ind; [done|].
  rewrite <- !Pos.add_1_r, !Qpower_plus_positive.
  apply Qmult_le_compat_nonneg.
  - split; [by apply Qpower_pos_positive|done].
  - split; done.
Qed.

Lemma py_int_le (x y : Q) : (0 <= x)%Q -> (x <= y)%Q -> py_int x <= py_int y.
Proof.
  unfold Qle, py_int. cbn. rewrite Z.mul_1_r. intros H0 Hxy.
  apply Z.quot_le_lower_bound; [lia|].
  pose proof (Z.mul_quot_le (Qnum x) (Zpos (Qden x)) H0 ltac:(lia)) as Hq.
  pose proof (Z.quot_pos (Qnum x) (Zpos (Qden x)) H0 ltac:(lia)) as Hq0.
  nia.
Qed.

Lemma clamp_Qeq (a b x : Q) : (py_max a (py_min b x) == Qmax a (Qmin b x))%Q.
Proof.
  rewrite py_max_Qmax. apply Q.max_compat; [reflexivity|]. apply py_min_Qmin.
Qed.

Lemma py_int_floor (x : Q) :
  (0 <= x)%Q -> (inject_Z (py_int x) <= x)%Q /\ (x < inject_Z (py_int x) + 1)%Q.
Proof.
  destruct x as [p q]. unfold Qle, Qlt, py_int. cbn.
  change (Z.pos (1 * 1)) with 1. intros Hp.
  rewrite Z.quot_div_nonneg by lia.
  pose proof (Z.mul_div_le p (Z.pos q) ltac:(lia)).
  pose proof (Z.mul_succ_div_gt p (Z.pos q) ltac:(lia)).
  lia.
Qed.

Lemma monte_carlo_runs_clamped (r : Q) :
  (inject_Z (monte_carlo_runs r) <= clamped_budget r)%Q /\
  (clamped_budget r < inject_Z (monte_carlo_runs r) + 1)%Q /\
  INITIAL_MONTE_RUNS <= monte_carlo_runs r <= MAX_MONTE_RUNS.
Proof.
  unfold monte_carlo_runs, clamped_budget.
  set (x := (inject_Z MAX_MONTE_RUNS * (r + (1 - TARGET_SUCCESS_RATE)) ^ 70)%Q).
  assert (inject_Z INITIAL_MONTE_RUNS
          <= py_max (inject_Z INITIAL_MONTE_RUNS) (py_min (inject_Z MAX_MONTE_RUNS) x))%Q
    as Hlow.
  { rewrite clamp_Qeq. apply Q.le_max_l. }
  destruct (py_int_floor
              (py_max (inject_Z INITIAL_MONTE_RUNS) (py_min (inject_Z MAX_MONTE_RUNS) x)))
    as [Hle Hlt].
  { eapply Qle_trans; [|exact Hlow]. done. }
  pose proof (clamp_Qeq (inject_Z INITIAL_MONTE_RUNS) (inject_Z MAX_MONTE_RUNS) x)
    as Hclamp.
  split; [by rewrite <- Hclamp|]. split; [by rewrite <- Hclamp|].
  apply py_int_bounds; [done|]. rewrite Hclamp.
  apply Q.max_lub; [done|apply Q.le_min_l].
Qed.

Lemma monte_carlo_runs_Qeq (r r' : Q) :
  (r == r')%Q -> monte_carlo_runs r = monte_carlo_runs r'.
Proof.
  intros Heq. unfold monte_carlo_runs. apply py_int_Qeq.
  rewrite !clamp_Qeq. by rewrite Heq.
Qed.

(** The budget is rounded down: at a prior rate of 0.9 the clamped quantity
    lies between 137 and 138. *)
Lemma budget_at_nine_tenths :
  monte_carlo_runs 0.9 = 137 /\
  (inject_Z 137 < clamped_budget 0.9)%Q /\ (clamped_budget 0.9 < inject_Z 138)%Q.
Proof. split; [reflexivity|]. split; reflexivity. Qed.

Section BudgetFacts.
Context {V : Type} `{!EqDecision V} `{!NumpyArray V}.
Context {R O : Type}.
Local Abbreviation World := (World V R O).
Variable sim : Full V -> Z -> option R -> Z -> O -> option (Q * R) * O.

(** C6. Whatever the strategy, once [_make_child] has its child the
    simulator is called with a budget [n] that is the integer part of
    [max(INITIAL_MONTE_RUNS, min(MAX_MONTE_RUNS, MAX_MONTE_RUNS * (r + (1 -
    TARGET_SUCCESS_RATE)) ** 70))] for the prior rate [r]: the one integer
    with [n <= ... < n + 1].  It lies between [INITIAL_MONTE_RUNS] and
    [MAX_MONTE_RUNS], is [INITIAL_MONTE_RUNS] for a prior rate of 0 and
    [MAX_MONTE_RUNS] for a prior rate of 0.95. *)
Theorem budget_formula fuel full rate mutate parent max_step idx (w : World)
    child w1 reuse :
  choose_child fuel mutate parent max_step w = Done child w1 ->
  (idx = 0%nat /\ reuse = None) \/
  (idx <> 0%nat /\ is_Some reuse /\ returns w1 = reuse) ->
  exists n : Z,
    (inject_Z n <= clamped_budget rate)%Q /\
    (clamped_budget rate < inject_Z n + 1)%Q /\
    INITIAL_MONTE_RUNS <= n <= MAX_MONTE_RUNS /\
    ((rate == 0)%Q -> n = INITIAL_MONTE_RUNS) /\
    ((rate == 0.95)%Q -> n = MAX_MONTE_RUNS) /\
    _make_child sim fuel full rate mutate parent max_step idx w
    = match sim (update full child) n reuse (MONTE_CARLO_RUNS w1) (oracle w1) with
      | (None, o') => Done (update full child, None) (set_oracle o' w1)
      | (Some (s_rate, rets), o') =>
          Done (update full child, Some (s_rate, child))
               (set_returns (Some rets) (set_oracle o' w1))
      end.
Proof.
  intros Hchoose Hreuse. exists (monte_carlo_runs rate).
  destruct (monte_carlo_runs_clamped rate) as (Hle & Hlt & Hbounds).
  repeat (split; [done|]). split; [|split].
  - intros Heq. by rewrite (monte_carlo_runs_Qeq _ _ Heq).
  - intros Heq. by rewrite (monte_carlo_runs_Qeq _ _ Heq).
  - rewrite make_child_halves. unfold bind. rewrite Hchoose.
    apply evaluate_child_with.
    destruct Hreuse as [[-> ->]|(Hidx & [r ->] & ->)]; [done|].
    by case_decide.
Qed.
End BudgetFacts.

Lemma budget_formula_witness :
  exists n : Z,
    (inject_Z n <= clamped_budget 0.9)%Q /\
    (clamped_budget 0.9 < inject_Z n + 1)%Q /\
    INITIAL_MONTE_RUNS <= n <= MAX_MONTE_RUNS /\
    ((0.9 == 0)%Q -> n = INITIAL_MONTE_RUNS) /\
    ((0.9 == 0.95)%Q -> n = MAX_MONTE_RUNS) /\
    _make_child (replay [Some 0.97%Q]) 1 (sample_full trio_parent 2040) 0.9
      "identical" (Some trio_parent) 1 0 trio_world
    = match replay [Some 0.97%Q] (update (sample_full trio_parent 2040) trio_parent)
              n None (MONTE_CARLO_RUNS trio_world) (oracle trio_world) with
      | (None, o') =>
          Done (update (sample_full trio_parent 2040) trio_parent, None)
               (set_oracle o' trio_world)
      | (Some (s_rate, rets), o') =>
          Done (update (sample_full trio_parent 2040) trio_parent,
                Some (s_rate, trio_parent))
               (set_returns (Some rets) (set_oracle o' trio_world))
      end.
Proof.
  apply (budget_formula (replay [Some 0.97%Q]) 1 (sample_full trio_parent 2040) 0.9
           "identical" (Some trio_parent) 1 0 trio_world trio_parent trio_world None).
  - reflexivity.
  - left. split; reflexivity.
Defined.

(** X19. The budget never decreases when the prior rate grows, and it is
    the minimum, [INITIAL_MONTE_RUNS], for every prior rate up to 0.89. *)
Theorem budget_grows_with_rate (r1 r2 : Q) :
  (0 <= r1)%Q -> (r1 <= r2)%Q ->
  monte_carlo_runs r1 <= monte_carlo_runs r2 /\
  ((r2 <= 0.89)%Q -> monte_carlo_runs r2 = INITIAL_MONTE_RUNS).
Proof.
  assert (forall a b, (0 <= a)%Q -> (a <= b)%Q ->
            monte_carlo_runs a <= monte_carlo_runs b) as Hmono.
  { intros a b Ha Hab. unfold monte_carlo_runs. apply py_int_le.
    - rewrite clamp_Qeq. eapply Qle_trans; [|apply Q.le_max_l]. done.
    - rewrite !clamp_Qeq.
      apply Q.max_le_compat_l, Q.min_le_compat_l.
      apply Qmult_le_l; [done|].
      apply Qpower_positive_le_compat.
      + rewrite <- (Qplus_0_r 0). apply Qplus_le_compat; done.
      + by apply Qplus_le_l. }
  intros H1 H12. split; [by apply Hmono|].
  intros H2.
  assert (monte_carlo_runs r2 <= INITIAL_MONTE_RUNS) as Hup.
  { change INITIAL_MONTE_RUNS with (monte_carlo_runs 0.89).
    apply Hmono; [by eapply Qle_trans|done]. }
  assert (INITIAL_MONTE_RUNS <= monte_carlo_runs r2) as Hlow.
  { unfold monte_carlo_runs.
    apply (py_int_bounds INITIAL_MONTE_RUNS MAX_MONTE_RUNS); rewrite clamp_Qeq.
    - apply Q.le_max_l.
    - apply Q.max_lub; [done|apply Q.le_min_l]. }
  lia.
Qed.

(** X20. From a prior rate of [TARGET_SUCCESS_RATE] on the budget is
    [MAX_MONTE_RUNS]; in particular every rate that opens the confirmation
    pass is budgeted at [MAX_MONTE_RUNS] by the formula itself. *)
Theorem budget_is_full_from_target (r : Q) :
  ((TARGET_SUCCESS_RATE <= r)%Q -> monte_carlo_runs r = MAX_MONTE_RUNS) /\
  (beats_target r = true -> monte_carlo_runs r = MAX_MONTE_RUNS).
Proof.
  assert ((TARGET_SUCCESS_RATE <= r)%Q -> monte_carlo_runs r = MAX_MONTE_RUNS)
    as Hfull.
  { intros Hr. unfold monte_carlo_runs.
    assert (1 <= (r + (1 - TARGET_SUCCESS_RATE)) ^ 70)%Q as Hpow.
    { apply Qpower_1_le; [|done].
      apply (Qle_trans _ (TARGET_SUCCESS_RATE + (1 - TARGET_SUCCESS_RATE))%Q);
        [done|].
      by apply Qplus_le_l. }
    assert (inject_Z MAX_MONTE_RUNS
            <= inject_Z MAX_MONTE_RUNS * (r + (1 - TARGET_SUCCESS_RATE)) ^ 70)%Q
      as Hbig.
    { rewrite <- (Qmult_1_r (inject_Z MAX_MONTE_RUNS)) at 1.
      by apply Qmult_le_l. }
    unfold py_min.
    destruct (Qltb _ (inject_Z MAX_MONTE_RUNS)) eqn:Hlt.
    - apply Qltb_lt in Hlt. by apply Qlt_not_le in Hlt.
    - reflexivity. }
  split; [done|]. intros Hbeat. apply Hfull.
  apply Qle_bool_iff in Hbeat. eapply Qle_trans; [|exact Hbeat]. done.
Qed.

Lemma budget_grows_with_rate_witness :
  monte_carlo_runs 0.5 <= monte_carlo_runs 0.93 /\
  ((0.93 <= 0.89)%Q -> monte_carlo_runs 0.93 = INITIAL_MONTE_RUNS).
Proof. apply (budget_grows_with_rate 0.5 0.93); done. Defined.

Lemma budget_is_full_from_target_witness :
  monte_carlo_runs 0.97 = MAX_MONTE_RUNS.
Proof.
  destruct (budget_is_full_from_target 0.97) as [Hfull _]. apply Hfull. done.
Defined.

(** ** [models/model.py] *)

Section ModelFileFacts.
Context {J : Type} `{!EqDecision J}.
Local Abbreviation params_t := (list (string * gmap string J)).

Lemma keeps_complement attr attr_val (obj : gmap string J) :
  ModelFile.keeps true attr attr_val obj
  = negb (ModelFile.keeps false attr attr_val obj).
Proof.
  unfold ModelFile.keeps. destruct (obj !! attr) as [a|]; [|done].
  destruct attr_val as [v|]; [|done].
  by rewrite bool_decide_not, negb_involutive.
Qed.

Lemma elem_of_filter_params include attr attr_val (ps : params_t) entry :
  entry ∈ ModelFile.filter_params include attr attr_val ps <->
  entry ∈ ps /\ ModelFile.keeps include attr attr_val entry.2 = true.
Proof.
  induction ps as [|[param obj] ps IH]; cbn [ModelFile.filter_params].
  - split; [by intros ?%elem_of_nil|by intros [?%elem_of_nil _]].
  - destruct (ModelFile.keeps include attr attr_val obj) eqn:Hk.
    + rewrite !elem_of_cons, IH. split.
      * intros [->|[? ?]]; [by split; [left|]|by split; [right|]].
      * intros [[->|?] ?]; [by left|by right].
    + rewrite elem_of_cons, IH. split.
      * intros [? ?]. by split; [right|].
      * intros [[->|?] Hkeep]; [|done]. cbn in Hkeep. congruence.
Qed.

(** X21. For one attribute and one optional value, [filter_params] with
    [include=True] and with [include=False] split the parameters: the two
    results together are the parameters, each result keeps the file order
    and the objects, and every parameter is in exactly one of the two. *)
Theorem filter_params_partition attr attr_val (ps : params_t) :
  ModelFile.filter_params true attr attr_val ps
  ++ ModelFile.filter_params false attr attr_val ps ≡ₚ ps /\
  (forall include, sublist (ModelFile.filter_params include attr attr_val ps) ps) /\
  (forall entry, entry ∈ ps ->
     (entry ∈ ModelFile.filter_params true attr attr_val ps <->
      entry ∉ ModelFile.filter_params false attr attr_val ps)).
Proof.
  split; [|split].
  - induction ps as [|[param obj] ps IH]; [done|].
    cbn [ModelFile.filter_params]. rewrite keeps_complement.
    destruct (ModelFile.keeps false attr attr_val obj); cbn [negb app].
    + rewrite <- Permutation_middle. by f_equiv.
    + by f_equiv.
  - intros include. induction ps as [|[param obj] ps IH]; [done|].
    cbn [ModelFile.filter_params].
    destruct (ModelFile.keeps include attr attr_val obj);
      [by apply sublist_skip|by apply sublist_cons].
  - intros entry Hin. rewrite !elem_of_filter_params, keeps_complement.
    destruct (ModelFile.keeps false attr attr_val entry.2); cbn.
    + split; [by intros [_ ?]|]. intros Hnot. by destruct Hnot.
    + split; [by intros _ [_ ?]|done].
Qed.

Lemma set_vals_spec (params_vals : gmap string J) (ps : params_t) :
  match (ModelFile.set_vals params_vals ps).2 with
  | None =>
      Forall2 (fun old new : string * gmap string J =>
                 new.1 = old.1 /\
                 new.2 !! "val" = params_vals !! old.1 /\
                 is_Some (params_vals !! old.1) /\
                 forall a, a <> "val" -> new.2 !! a = old.2 !! a)
        ps (ModelFile.set_vals params_vals ps).1
  | Some e =>
      exists key, e = ModelFile.MissingKey key /\ key ∈ ps.*1 /\
                  params_vals !! key = None
  end /\
  (ModelFile.set_vals params_vals ps).1.*1 = ps.*1.
Proof.
  induction ps as [|[param obj] ps [IH IHkeys]]; cbn; [by split; [constructor|]|].
  destruct (params_vals !! param) as [v|] eqn:Hv; cbn.
  - split; [|by rewrite IHkeys].
    destruct (ModelFile.set_vals params_vals ps).2 as [e|].
    + destruct IH as (key & -> & Hkey & Hnone). exists key.
      split; [done|]. split; [by right|done].
    + constructor; [|done]. cbn. rewrite Hv.
      split; [done|]. split; [apply lookup_insert_eq|]. split; [done|].
      intros a Ha. by apply lookup_insert_ne.
  - split; [|done]. exists param. split; [done|]. split; [by left|done].
Qed.


(** X23. When [params_vals] lacks a parameter of the model, [save_params]
    raises [KeyError] for the first such parameter and does not touch the
    parameter file; the model keeps its parameter names. *)
Theorem save_params_missing_value (params_vals : gmap string J)
    (st : ModelFile.state) :
  (exists param, param ∈ (ModelFile.params st).*1 /\ params_vals !! param = None) ->
  exists key,
    (ModelFile.save_params params_vals st).2 = Some (ModelFile.MissingKey key) /\
    key ∈ (ModelFile.params st).*1 /\
    params_vals !! key = None /\
    ModelFile.file (ModelFile.save_params params_vals st).1 = ModelFile.file st /\
    (ModelFile.params (ModelFile.save_params params_vals st).1).*1
    = (ModelFile.params st).*1.
Proof.
  intros (param & Hparam & Hnone). unfold ModelFile.save_params.
  destruct (set_vals_spec params_vals (ModelFile.params st)) as [Hspec Hkeys].
  destruct (ModelFile.set_vals params_vals (ModelFile.params st)).2 as [e|].
  - destruct Hspec as (key & -> & Hkey & Hk). exists key. by repeat split.
  - exfalso. apply list_elem_of_fmap in Hparam as ([p obj] & -> & Hin).
    apply list_elem_of_lookup in Hin as [i Hi].
    destruct (Forall2_lookup_l _ _ _ _ _ Hspec Hi) as (new & _ & _ & _ & [v Hv] & _).
    cbn in *. congruence.
Qed.
End ModelFileFacts.

(** ** Instances on the sample data *)

Lemma job_entry_user {V} i (f : Full V) : job_entry "user" i f = user_jobs f !! i.
Proof. reflexivity. Qed.

Lemma job_entry_partner {V} i (f : Full V) :
  job_entry "partner" i f = partner_jobs f !! i.
Proof. reflexivity. Qed.

Lemma same_jobs_covers {V} (saved own : Full V) :
  user_jobs saved = user_jobs own -> partner_jobs saved = partner_jobs own ->
  covers saved own.
Proof.
  intros Hu Hp usr i [->|[->|[]%elem_of_nil]%elem_of_cons]%elem_of_cons;
    rewrite ?job_entry_user, ?job_entry_partner, ?Hu, ?Hp; done.
Qed.

Lemma same_jobs_not_later {V} (own saved : Full V) :
  user_jobs saved = user_jobs own -> partner_jobs saved = partner_jobs own ->
  ~ own_is_later own saved.
Proof.
  intros Hu Hp (usr & i & inc & sinc & Hin & Hown & Hsaved & Hlt).
  assert (job_entry usr i saved = job_entry usr i own) as Heq.
  { apply elem_of_cons in Hin as [->|Hin];
      [|apply elem_of_cons in Hin as [->|[]%elem_of_nil]];
      rewrite ?job_entry_user, ?job_entry_partner, ?Hu, ?Hp; done. }
  rewrite Heq, Hown in Hsaved. injection Hsaved as <-.
  by apply Qlt_irrefl in Hlt.
Qed.

Lemma later_children_reuse_draws_witness :
  exists child w1,
    choose_child 30 "step" (Some trio_parent) 1 trio_world = Done child w1 /\
    _make_child (fun _ _ _ _ n => (Some (0.6%Q, tt), S n)) 30
      (sample_full trio_parent 2040) 0.7 "step" (Some trio_parent) 1 0 trio_world
    = Done (update (sample_full trio_parent 2040) child, Some (0.6%Q, child))
        (set_returns (Some tt) (set_oracle (S (oracle w1)) w1)).
Proof.
  assert (exists child w1,
            choose_child 30 "step" (Some trio_parent) 1 trio_world
            = Done child w1) as (child & w1 & Hrun).
  { eexists _, _. vm_compute. reflexivity. }
  exists child, w1. split; [exact Hrun|].
  destruct (later_children_reuse_draws (fun _ _ _ _ n => (Some (0.6%Q, tt), S n))
              30 (sample_full trio_parent 2040) 0.7 "step" (Some trio_parent)
              1 0 trio_world child w1 Hrun) as [Hfirst _].
  exact (Hfirst eq_refl).
Defined.

Lemma unknown_mutation_is_fatal_witness :
  _make_child (replay []) 30 (sample_full trio_parent 2040) 0.7 "shuffle"
    (Some trio_parent) 1 0 trio_world
  = Raised NoValidMutation trio_world.
Proof.
  apply (unknown_mutation_is_fatal (replay []) 30 (sample_full trio_parent 2040)
           0.7 "shuffle" (Some trio_parent) 1 0 trio_world);
    intros Heq; discriminate Heq.
Defined.

Lemma children_are_distinct_witness :
  exists l' children w',
    make_children (replay (replicate 10 (Some 0.6%Q))) 30 (seq 0 OFFSPRING_QTY)
      (trio_locals 0.7 2) [] trio_world
    = Done (l', Some children) w' /\
    length children = length (seq 0 OFFSPRING_QTY) /\
    NoDup children.*2 /\
    (forall c, c ∈ children ->
       (c.2 ∉ prev_used_params trio_world) /\ ~ (c.1 == 0)%Q) /\
    prev_used_params w' = prev_used_params trio_world ++ children.*2 /\
    same_store trio_world w'.
Proof.
  assert (exists l' children w',
            make_children (replay (replicate 10 (Some 0.6%Q))) 30
              (seq 0 OFFSPRING_QTY) (trio_locals 0.7 2) [] trio_world
            = Done (l', Some children) w') as (l' & children & w' & Hrun).
  { eexists _, _, _. vm_compute. reflexivity. }
  exists l', children, w'. split; [exact Hrun|].
  exact (children_are_distinct _ _ _ _ _ _ _ _ Hrun).
Defined.

Lemma random_restart_reaches_threshold_witness :
  exists l' w',
    random_restart (replay [Some 0.3%Q; Some 0.6%Q]) is_falsy 5
      (trio_locals 0.4 2) trio_world
    = Done (l', false) w' /\
    (SUCCESS_THRESH <= success_rate l')%Q /\
    prev_used_params w' = [parent_mute_param_vals l'] /\
    parent_is_best_qty l' = parent_is_best_qty (trio_locals 0.4 2) /\
    same_store trio_world w'.
Proof.
  assert (exists l' w',
            random_restart (replay [Some 0.3%Q; Some 0.6%Q]) is_falsy 5
              (trio_locals 0.4 2) trio_world
            = Done (l', false) w') as (l' & w' & Hrun).
  { eexists _, _. vm_compute. reflexivity. }
  exists l', w'. split; [exact Hrun|].
  apply (random_restart_reaches_threshold (replay [Some 0.3%Q; Some 0.6%Q])
           is_falsy 5 (trio_locals 0.4 2) trio_world l' w').
  - reflexivity.
  - exact Hrun.
Defined.

Lemma missing_saved_job_raises_index_error_witness :
  _check_if_beaten diverge (sample_full trio_parent 2040) jobless_world
  = Raised IndexError jobless_world.
Proof.
  apply (missing_saved_job_raises_index_error diverge
           (sample_full trio_parent 2040) jobless_world 0 {| last_date := 2040 |}).
  - reflexivity.
  - reflexivity.
  - intros j incj Hj. lia.
Defined.

Lemma cut_short_generation_writes_nothing_witness :
  exists l1 w1,
    make_children (replay [Some 0.6%Q; None]) 30 (seq 0 OFFSPRING_QTY)
      (trio_locals 0.7 2) [] trio_world
    = Done (l1, None) w1 /\
    generation (replay [Some 0.6%Q; None]) store 30 (fun _ => diverge) false
      (trio_locals 0.7 2) trio_world
    = Done (Return l1) w1 /\
    while_true 1
      (generation (replay [Some 0.6%Q; None]) store 30 (fun _ => diverge) false)
      (trio_locals 0.7 2) trio_world
    = Done (arg_content l1) w1 /\
    same_store trio_world w1.
Proof.
  assert (exists l1 w1,
            make_children (replay [Some 0.6%Q; None]) 30 (seq 0 OFFSPRING_QTY)
              (trio_locals 0.7 2) [] trio_world
            = Done (l1, None) w1) as (l1 & w1 & Hrun).
  { eexists _, _. vm_compute. reflexivity. }
  exists l1, w1. split; [exact Hrun|].
  apply (cut_short_generation_writes_nothing (replay [Some 0.6%Q; None]) store 30
           (fun _ => diverge) false (trio_locals 0.7 2) trio_world l1 w1).
  - apply same_jobs_covers; reflexivity.
  - apply same_jobs_not_later; reflexivity.
  - exact Hrun.
Defined.

Lemma confirmed_parent_is_saved_before_restart_witness :
  exists l' w2,
    confirm (replay [Some 0.97%Q]) store 1 (fun next_loop => ret next_loop) true
      (trio_locals 0.96 0) trio_world
    = Done (Continue l') w2 /\
    MONTE_CARLO_RUNS w2 = MONTE_CARLO_RUNS trio_world /\
    (model w2, persisted w2)
    = store trio_parent true (model trio_world, persisted trio_world).
Proof.
  destruct (confirmed_parent_is_saved_before_restart (replay [Some 0.97%Q]) store
              1 (fun next_loop => ret next_loop) true (trio_locals 0.96 0)
              trio_world 0.97%Q tt 1%nat) as (Hrun & Hruns & Hsaved).
  - reflexivity.
  - intros Heq. discriminate Heq.
  - intros Hle. discriminate Hle.
  - apply same_jobs_covers; reflexivity.
  - apply same_jobs_not_later; reflexivity.
  - eexists _, _. split; [rewrite Hrun; reflexivity|]. split; [exact Hruns|exact Hsaved].
Defined.

Lemma main_rejects_off_grid_start_witness :
  exists w',
    main (replay []) store 1 None off_grid_world = Raised ValueError w' /\
    oracle w' = oracle off_grid_world.
Proof.
  apply (main_rejects_off_grid_start (replay []) store 0 off_grid_world
           (zero_table sample_ranges)).
  - apply NoDup_singleton.
  - reflexivity.
  - apply (zero_table_shaped sample_ranges). apply NoDup_singleton.
  - intros p r Hin. apply list_elem_of_singleton in Hin. injection Hin as -> ->.
    exists 7. reflexivity.
  - exists "X", [1; 2; 3; 4; 5], 7. split; [apply list_elem_of_here|].
    split; [reflexivity|apply sample_off_grid].
Defined.


Lemma save_params_missing_value_witness :
  exists key,
    (ModelFile.save_params {["age" := "31"]}
       {| ModelFile.params := sample_params; ModelFile.file := None |}).2
    = Some (ModelFile.MissingKey key) /\
    key ∈ sample_params.*1 /\
    ({["age" := "31"]} : gmap string string) !! key = None /\
    ModelFile.file
      (ModelFile.save_params {["age" := "31"]}
         {| ModelFile.params := sample_params; ModelFile.file := None |}).1
    = None /\
    (ModelFile.params
       (ModelFile.save_params {["age" := "31"]}
          {| ModelFile.params := sample_params; ModelFile.file := None |}).1).*1
    = sample_params.*1.
Proof.
  apply (save_params_missing_value {["age" := "31"]}
           {| ModelFile.params := sample_params; ModelFile.file := None |}).
  exists "retire". split; [|reflexivity].
  apply list_elem_of_further, list_elem_of_here.
Defined.
